(** * Mycelium orchestrator: a shallow embedding of [main.py] and
    [modules/seedbox.py], and the properties of its specification.

    The definitions come first.
    - [Py]: the fragment of Python's exception model the code relies on
      (the [BaseException] / [Exception] split, results of fallible calls).
    - [Path]: the string and path operations of [pathlib] and [glob] that
      the seedbox uses.
    - [Seedbox]: [modules/seedbox.py] as a state-and-exception monad over
      a file system, the seedbox object and an event trace; libtorrent, the
      clock and [open] are an interface ([Env]).
    - [Orchestrator]: [main.py] as a transition system: the three asyncio
      tasks, the executor thread, the signal handler and the supervisor
      ([run] and [main]) with their program counters.  A coroutine runs
      from one [await] to the next without another coroutine in between;
      signals, the clock and the executor thread move at any time.

    The facts follow ([PathFacts], [SeedboxFacts], [OrchestratorFacts]),
    and the properties of the specification with their scenarios
    ([SeedboxSpec], [OrchestratorSpec]). *)

From Stdlib Require Import ZArith Ascii String List Bool Lia DecimalString.
From stdpp Require Import base option list gmap strings fin_maps.

Local Open Scope string_scope.
Local Open Scope Z_scope.
Local Open Scope list_scope.

(* ===================================================================== *)
(** * Python exceptions and results *)
(* ===================================================================== *)

Module Py.

(** The exception kinds that occur in the program.  [KeyboardInterrupt],
    [SystemExit] and [CancelledError] derive from [BaseException] only;
    the other three are subclasses of [Exception].  [OtherException]
    stands for any [Exception] subclass that is neither of the two
    declared kinds ([OSError], [RuntimeError], [AttributeError], ...). *)
Inductive exn : Type :=
| KeyboardInterrupt
| SystemExit (code : Z)
| CancelledError
| CodeSyncError (msg : string)
| SeedboxError (msg : string)
| OtherException (cls msg : string).

(** [isinstance(e, Exception)] *)
Definition is_Exception (e : exn) : bool :=
  match e with
  | KeyboardInterrupt | SystemExit _ | CancelledError => false
  | CodeSyncError _ | SeedboxError _ | OtherException _ _ => true
  end.

Definition is_CodeSyncError (e : exn) : bool :=
  match e with CodeSyncError _ => true | _ => false end.

Definition is_SeedboxError (e : exn) : bool :=
  match e with SeedboxError _ => true | _ => false end.

Definition is_KeyboardInterrupt (e : exn) : bool :=
  match e with KeyboardInterrupt => true | _ => false end.

Definition is_CancelledError (e : exn) : bool :=
  match e with CancelledError => true | _ => false end.

(** [str(e)], as interpolated by the f-strings of the handlers. *)
Definition exn_str (e : exn) : string :=
  match e with
  | KeyboardInterrupt | CancelledError => ""
  | SystemExit c => NilZero.string_of_int (Z.to_int c)
  | CodeSyncError m | SeedboxError m | OtherException _ m => m
  end.

(** Outcome of a call: a value or a raised exception. *)
Inductive result (A : Type) : Type :=
| Return (a : A)
| Raise (e : exn).
Arguments Return {A} a.
Arguments Raise {A} e.

End Py.
Export Py.

(* ===================================================================== *)
(** * Strings and paths *)
(* ===================================================================== *)

Module Path.

(** [s.endswith(suf)]: some tail of [s] is [suf]. *)
Fixpoint endswith (s suf : string) : bool :=
  if String.eqb s suf then true
  else match s with
       | EmptyString => false
       | String _ s' => endswith s' suf
       end.

(** [strip_prefix p s = Some r] when [s = p ++ r]. *)
Fixpoint strip_prefix (p s : string) : option string :=
  match p, s with
  | EmptyString, _ => Some s
  | String a p', String b s' =>
      if Ascii.eqb a b then strip_prefix p' s' else None
  | String _ _, EmptyString => None
  end.

Fixpoint has_char (c : ascii) (s : string) : bool :=
  match s with
  | EmptyString => false
  | String a s' => Ascii.eqb a c || has_char c s'
  end.

(** [p / name] for a path that is already normalised. *)
Definition join (dir name : string) : string := dir +:+ "/" +:+ name.

(** The text after the last separator: [Path(p).name]. *)
Fixpoint name_of (p : string) : string :=
  match p with
  | EmptyString => EmptyString
  | String a p' =>
      if has_char "/" p' then name_of p'
      else if Ascii.eqb a "/" then p' else p
  end.

(** The text before the last separator: [str(Path(p).parent)]; the
    parent of a bare name is ["."], that of [/name] is the root. *)
Fixpoint dirname (p : string) : option string :=
  match p with
  | EmptyString => None
  | String a p' =>
      match dirname p' with
      | Some d => Some (String a d)
      | None => if Ascii.eqb a "/" then Some EmptyString else None
      end
  end.

Definition parent_of (p : string) : string :=
  match dirname p with
  | None => "."
  | Some EmptyString => "/"
  | Some d => d
  end.

(** A directory path that [glob] takes literally and to which [/ "*"]
    appends: [str(Path(dir))] holds none of the pattern characters [*],
    [?] and [[], and it is neither the current directory, which
    [pathlib] drops from a joined path, nor the root. *)
Definition plain_dir (dir : string) : bool :=
  negb (has_char "*" dir) && negb (has_char "?" dir)
  && negb (has_char "[" dir)
  && negb (String.eqb dir "") && negb (String.eqb dir ".")
  && negb (endswith dir "/").

(** A directory entry name that the pattern [*] of [glob] matches: the
    pattern never matches a name that starts with a dot. *)
Definition star_matches (name : string) : bool :=
  match name with
  | EmptyString => false
  | String a _ => negb (Ascii.eqb a ".") && negb (has_char "/" name)
  end.

End Path.

(* ===================================================================== *)
(** * modules/seedbox.py *)
(* ===================================================================== *)

Module Seedbox.

Import Path.

(** ** The world the seedbox acts on *)

Inductive fsnode : Type :=
| RegularFile (data : string)
| Directory.

(** The file system: normalised path to node. *)
Abbreviation FS := (gmap string fsnode).

(** [status] of one handle, as far as [get_status] reads it. *)
Record torrent_status : Type :=
  { total_upload : Z; num_peers : Z }.

(** The dictionary [get_status] returns. *)
Record status : Type :=
  { active : bool; torrents : Z; peers : Z; uploaded : Z }.

(** What the run leaves behind: one constructor per logging statement
    of the module, with the values its f-string interpolates (the status
    record carries the snapshot itself rather than the megabytes rendered
    to one decimal), and one per call that reaches outside the process. *)
Inductive event : Type :=
| DebugTorrentExists (name : string)
| InfoCreatingTorrent (name : string)
| InfoTorrentCreated (name : string)
| InfoSessionInitialized (pmin pmax : Z)
| InfoFound (n : nat)
| InfoAdded (name : string)
| ErrorFailedToAdd (name : string) (e : exn)
| InfoStarting
| InfoContentDirectory (dir : string)
| InfoTracker (url : string)
| InfoSeedingCount (n : nat)
| InfoSeeding (st : status)
| InfoInterrupted
| ErrorSeedbox (e : exn)
| InfoStopping
| CallSession                          (* lt.session() *)
| CallListenOn (pmin pmax : Z)         (* session.listen_on *)
| CallAddTorrent (torrent_file : string)
| CallSleep (seconds : Z).             (* time.sleep *)

Definition opens_network (ev : event) : bool :=
  match ev with
  | CallSession | CallListenOn _ _ => true
  | _ => false
  end.

Definition is_status_log (ev : event) : bool :=
  match ev with InfoSeeding _ => true | _ => false end.

(** ** libtorrent, the clock and [open]: what the module calls but does
    not define.  Every call may raise. *)
Class Env : Type :=
  { torrent_entry : Type;
    torrent_info : Type;
    (** [file_storage], [add_files], [create_torrent], [add_tracker],
        [set_creator], [set_piece_hashes], [generate] on a content path
        with a tracker. *)
    lt_generate : FS -> string -> string -> result torrent_entry;
    lt_bencode : torrent_entry -> result string;
    (** [lt.torrent_info(path)] on the bytes of the file. *)
    lt_parse : string -> result torrent_info;
    lt_session_new : option exn;
    lt_listen_on : Z -> Z -> option exn;
    lt_apply_settings : Z -> option exn;
    (** [session.add_torrent], given how many items are registered. *)
    lt_add_torrent : nat -> torrent_info -> string -> option exn;
    (** [handle.status()] of the item with the given metadata and save
        path, at the given status tick. *)
    lt_status : nat -> torrent_info -> string -> result torrent_status;
    (** [open(path, "wb")] *)
    os_open_wb : FS -> string -> option exn;
    (** An exception delivered to the thread during the sleep of a tick. *)
    time_sleep : nat -> option exn }.

Section WithEnv.

Context `{env : Env}.

(** A handle names the registered item. *)
Record torrent_handle : Type :=
  { ti : torrent_info; save_path : string }.

Record lt_session : Type :=
  { listening : option (Z * Z);
    listen_interfaces : option (string * Z);
    registered : list torrent_handle }.

(** The attributes of a [Seedbox] object. *)
Record seedbox : Type :=
  { content_dir : string;
    tracker_url : string;
    port_min : Z;
    port_max : Z;
    session : option lt_session;
    handles : list (torrent_handle * string) }.

(** [Seedbox.__init__] *)
Definition init (dir tracker : string) (pmin pmax : Z) : seedbox :=
  {| content_dir := dir; tracker_url := tracker;
     port_min := pmin; port_max := pmax;
     session := None; handles := [] |}.

Record world : Type :=
  { self : seedbox; fs : FS; trace : list event }.

(** ** State and exceptions *)

Definition M (A : Type) : Type := world -> result A * world.

Definition ret {A} (a : A) : M A := fun w => (Return a, w).

Definition bind {A B} (c : M A) (k : A -> M B) : M B :=
  fun w => match c w with
           | (Return a, w') => k a w'
           | (Raise e, w') => (Raise e, w')
           end.

Definition raise {A} (e : exn) : M A := fun w => (Raise e, w).

(** [try: c  except BaseException as e: h e] *)
Definition try_except {A} (c : M A) (h : exn -> M A) : M A :=
  fun w => match c w with
           | (Return a, w') => (Return a, w')
           | (Raise e, w') => h e w'
           end.

(** [try: c  finally: f] *)
Definition try_finally {A} (c : M A) (f : M unit) : M A :=
  fun w => match c w with
           | (r, w') =>
               match f w' with
               | (Return _, w'') => (r, w'')
               | (Raise e, w'') => (Raise e, w'')
               end
           end.

Definition gets {A} (f : world -> A) : M A := fun w => (Return (f w), w).

Definition emit (ev : event) : M unit :=
  fun w => (Return tt,
            {| self := self w; fs := fs w; trace := trace w ++ [ev] |}).

Definition set_self (s : seedbox) : M unit :=
  fun w => (Return tt, {| self := s; fs := fs w; trace := trace w |}).

Definition set_fs (m : FS) : M unit :=
  fun w => (Return tt, {| self := self w; fs := m; trace := trace w |}).

(** A library call that may raise and returns nothing. *)
Definition call (o : option exn) : M unit :=
  match o with None => ret tt | Some e => raise e end.

(** A library call that may raise or return a value. *)
Definition call_r {A} (r : result A) : M A :=
  match r with Return a => ret a | Raise e => raise e end.

Notation "'let!' x ':=' c 'in' k" := (bind c (fun x => k))
  (at level 10, x name, c at level 100, k at level 200).
Notation "'let!' '_' ':=' c 'in' k" := (bind c (fun _ => k))
  (at level 10, c at level 100, k at level 200).

(** ** The file system calls *)

(** [Path.exists()] *)
Definition exists_ (p : string) : M bool :=
  gets (fun w => bool_decide (is_Some (fs w !! p))).

(** [open(p, "wb")]: creates the file or truncates it. *)
Definition open_wb (p : string) : M unit :=
  let! m := gets fs in
  let! _ := call (os_open_wb m p) in
  set_fs (<[p := RegularFile ""]> m).

(** [f.write(data)] on the file just opened. *)
Definition write (p data : string) : M unit :=
  let! m := gets fs in
  set_fs (<[p := RegularFile data]> m).

(** [glob.glob(str(dir / "*"))] for a directory path that is
    [plain_dir]: the entries of [dir] that [*] matches (those whose name
    does not start with a dot), as paths [dir/name].  A path that is not
    a directory has none.  In a path with pattern characters [glob]
    expands the directory part as well, and for the current directory it
    gives bare names: what the theorems say of the files selected is
    said under the hypothesis [plain_dir]. *)
Definition is_entry (dir p : string) : bool :=
  match strip_prefix (dir +:+ "/") p with
  | Some name => star_matches name
  | None => false
  end.

Definition glob_star (m : FS) (dir : string) : list string :=
  match m !! dir with
  | Some Directory => filter (fun p => is_entry dir p = true) (map_to_list m).*1
  | _ => []
  end.

(** ** Seedbox._create_torrent *)
Definition _create_torrent (file_path : string) : M string :=
  let torrent_file := file_path +:+ ".torrent" in
  let! present := exists_ torrent_file in
  if (present : bool) then
    let! _ := emit (DebugTorrentExists (name_of torrent_file)) in
    ret torrent_file
  else
    let! _ := emit (InfoCreatingTorrent (name_of file_path)) in
    let! m := gets fs in
    let! tracker := gets (fun w => tracker_url (self w)) in
    let! torrent := call_r (lt_generate m file_path tracker) in
    let! _ := open_wb torrent_file in
    let! data := call_r (lt_bencode torrent) in
    let! _ := write torrent_file data in
    let! _ := emit (InfoTorrentCreated (name_of torrent_file)) in
    ret torrent_file.

(** ** Seedbox._initialize_session *)
Definition _initialize_session : M unit :=
  let! s := gets self in
  let! _ := emit CallSession in
  let! _ := call lt_session_new in
  let s1 := {| content_dir := content_dir s; tracker_url := tracker_url s;
               port_min := port_min s; port_max := port_max s;
               session := Some {| listening := None;
                                  listen_interfaces := None;
                                  registered := [] |};
               handles := handles s |} in
  let! _ := set_self s1 in
  let! _ := emit (CallListenOn (port_min s) (port_max s)) in
  let! _ := call (lt_listen_on (port_min s) (port_max s)) in
  let s2 := {| content_dir := content_dir s; tracker_url := tracker_url s;
               port_min := port_min s; port_max := port_max s;
               session := Some {| listening := Some (port_min s, port_max s);
                                  listen_interfaces := None;
                                  registered := [] |};
               handles := handles s |} in
  let! _ := set_self s2 in
  let! _ := call (lt_apply_settings (port_min s)) in
  let s3 := {| content_dir := content_dir s; tracker_url := tracker_url s;
               port_min := port_min s; port_max := port_max s;
               session := Some {| listening := Some (port_min s, port_max s);
                                  listen_interfaces := Some ("0.0.0.0", port_min s);
                                  registered := [] |};
               handles := handles s |} in
  let! _ := set_self s3 in
  emit (InfoSessionInitialized (port_min s) (port_max s)).

(** ** Seedbox._load_content_files *)
Definition _load_content_files : M (list string) :=
  let! dir := gets (fun w => content_dir (self w)) in
  let! present := exists_ dir in
  if negb present then
    raise (SeedboxError ("Content directory not found: " +:+ dir))
  else
    let! m := gets fs in
    let files := glob_star m dir in
    let files := filter (fun f => endswith f ".torrent" = false) files in
    match files with
    | [] => raise (SeedboxError ("No files found in: " +:+ dir))
    | _ :: _ =>
        let! _ := emit (InfoFound (length files)) in
        ret files
    end.

(** ** Seedbox._add_torrents *)

(** [lt.torrent_info(str(torrent_file))] reads the file. *)
Definition torrent_info_of (torrent_file : string) : M torrent_info :=
  let! m := gets fs in
  match m !! torrent_file with
  | Some (RegularFile data) => call_r (lt_parse data)
  | _ => raise (OtherException "RuntimeError" "No such file or directory")
  end.

(** [self.session.add_torrent({'ti': info, 'save_path': path})] *)
Definition add_torrent (info : torrent_info) (path : string)
  : M torrent_handle :=
  let! s := gets self in
  match session s with
  | None =>
      raise (OtherException "AttributeError"
               "'NoneType' object has no attribute 'add_torrent'")
  | Some ses =>
      let! _ := call (lt_add_torrent (length (registered ses)) info path) in
      let h := {| ti := info; save_path := path |} in
      let! _ := set_self
                  {| content_dir := content_dir s; tracker_url := tracker_url s;
                     port_min := port_min s; port_max := port_max s;
                     session := Some {| listening := listening ses;
                                        listen_interfaces := listen_interfaces ses;
                                        registered := registered ses ++ [h] |};
                     handles := handles s |} in
      ret h
  end.

(** [self.handles.append((handle, name))] *)
Definition append_handle (h : torrent_handle) (name : string) : M unit :=
  let! s := gets self in
  set_self {| content_dir := content_dir s; tracker_url := tracker_url s;
              port_min := port_min s; port_max := port_max s;
              session := session s;
              handles := handles s ++ [(h, name)] |}.

(** The body of the [try] inside the [for]. *)
Definition add_one (file_path : string) : M unit :=
  let! torrent_file := _create_torrent file_path in
  let! info := torrent_info_of torrent_file in
  let! _ := emit (CallAddTorrent torrent_file) in
  let! handle := add_torrent info (parent_of file_path) in
  let! _ := append_handle handle (name_of file_path) in
  emit (InfoAdded (name_of file_path)).

(** [except Exception as e]: log; anything else propagates. *)
Definition add_one_guarded (file_path : string) : M unit :=
  try_except (add_one file_path)
    (fun e => if is_Exception e
              then emit (ErrorFailedToAdd (name_of file_path) e)
              else raise e).

Fixpoint _add_torrents (files : list string) : M unit :=
  match files with
  | [] => ret tt
  | file_path :: rest =>
      let! _ := add_one_guarded file_path in
      _add_torrents rest
  end.

(** ** Seedbox.get_status *)
Fixpoint sum_status (tick : nat) (hs : list (torrent_handle * string))
  (total_up total_peers : Z) : result (Z * Z) :=
  match hs with
  | [] => Return (total_up, total_peers)
  | (h, _) :: hs' =>
      match lt_status tick (ti h) (save_path h) with
      | Return st =>
          sum_status tick hs' (total_up + total_upload st)
            (total_peers + num_peers st)
      | Raise e => Raise e
      end
  end.

Definition get_status (tick : nat) : M status :=
  let! hs := gets (fun w => handles (self w)) in
  match hs with
  | [] => ret {| active := false; torrents := 0; peers := 0; uploaded := 0 |}
  | _ :: _ =>
      let! totals := call_r (sum_status tick hs 0 0) in
      ret {| active := true; torrents := Z.of_nat (length hs);
             peers := totals.2; uploaded := totals.1 |}
  end.

(** ** Seedbox.seed_content *)

(** The [try] body up to the [while True], in two parts: down to
    [_load_content_files], then the registrations and the check. *)
Definition seed_open : M (list string) :=
  let! s := gets self in
  let! _ := emit InfoStarting in
  let! _ := emit (InfoContentDirectory (content_dir s)) in
  let! _ := emit (InfoTracker (tracker_url s)) in
  let! _ := _initialize_session in
  _load_content_files.

Definition seed_setup : M unit :=
  let! files := seed_open in
  let! _ := _add_torrents files in
  let! hs := gets (fun w => handles (self w)) in
  match hs with
  | [] => raise (SeedboxError "No torrents loaded")
  | _ :: _ => emit (InfoSeedingCount (length hs))
  end.

(** One turn of the [while True] body. *)
Definition seed_tick (status_interval : Z) (tick : nat) : M unit :=
  let! st := get_status tick in
  let! _ := emit (InfoSeeding st) in
  let! _ := emit (CallSleep status_interval) in
  call (time_sleep tick).

(** The [except] clauses, in order. *)
Definition seed_except (e : exn) : M unit :=
  if is_KeyboardInterrupt e then emit InfoInterrupted
  else if is_Exception e then
    let! _ := emit (ErrorSeedbox e) in
    raise (SeedboxError ("Seeding failed: " +:+ exn_str e))
  else raise e.

(** The [finally] clause. *)
Definition seed_finally : M unit :=
  let! s := gets (fun w => session (self w)) in
  match s with
  | Some _ => emit InfoStopping
  | None => ret tt
  end.

(** Leaving the [try] with an exception: handlers, then [finally]. *)
Definition seed_leave (e : exn) : M unit :=
  try_finally (seed_except e) seed_finally.

(** How the call stands: still inside the loop, about to run the
    given tick, or over. *)
Inductive outcome : Type :=
| Seeding (tick : nat)
| Finished (r : result unit).

(** The [while True], for at most [fuel] turns. *)
Fixpoint seed_loop (status_interval : Z) (fuel tick : nat) (w : world)
  : outcome * world :=
  match fuel with
  | O => (Seeding tick, w)
  | S fuel' =>
      match seed_tick status_interval tick w with
      | (Return _, w') => seed_loop status_interval fuel' (S tick) w'
      | (Raise e, w') =>
          let (r, w'') := seed_leave e w' in (Finished r, w'')
      end
  end.

Definition seed_content (status_interval : Z) (fuel : nat) (w : world)
  : outcome * world :=
  match seed_setup w with
  | (Return _, w') => seed_loop status_interval fuel O w'
  | (Raise e, w') =>
      let (r, w'') := seed_leave e w' in (Finished r, w'')
  end.

End WithEnv.

(** An environment in which every call returns: libtorrent accepts every
    file and the disk is writable.  The scenarios run in it. *)
Definition quiet : Env :=
  {| torrent_entry := string;
     torrent_info := string;
     lt_generate := fun _ file_path tracker => Return (file_path +:+ "@" +:+ tracker);
     lt_bencode := fun torrent => Return torrent;
     lt_parse := fun data => Return data;
     lt_session_new := None;
     lt_listen_on := fun _ _ => None;
     lt_apply_settings := fun _ => None;
     lt_add_torrent := fun _ _ _ => None;
     lt_status := fun _ _ _ => Return {| total_upload := 0; num_peers := 0 |};
     os_open_wb := fun _ _ => None;
     time_sleep := fun _ => None |}.

(** The same, except that [e] is delivered during every sleep of the
    status loop. *)
Definition interrupted_by (e : exn) : Env :=
  {| torrent_entry := string;
     torrent_info := string;
     lt_generate := fun _ file_path tracker => Return (file_path +:+ "@" +:+ tracker);
     lt_bencode := fun torrent => Return torrent;
     lt_parse := fun data => Return data;
     lt_session_new := None;
     lt_listen_on := fun _ _ => None;
     lt_apply_settings := fun _ => None;
     lt_add_torrent := fun _ _ _ => None;
     lt_status := fun _ _ _ => Return {| total_upload := 0; num_peers := 0 |};
     os_open_wb := fun _ _ => None;
     time_sleep := fun _ => Some e |}.

(** ** Disks and seedboxes of the scenarios *)

(** A content directory with three files and no metadata file. *)
Definition three_files : FS :=
  <["content" := Directory]>
    (<["content/a.bin" := RegularFile "aaaa"]>
       (<["content/b.bin" := RegularFile "bbbb"]>
          (<["content/c.bin" := RegularFile "cccc"]> ∅))).

(** A content directory with one file, its metadata file and a dotfile. *)
Definition with_dotfile : FS :=
  <["content" := Directory]>
    (<["content/a.bin" := RegularFile "aaaa"]>
       (<["content/a.bin.torrent" := RegularFile "content/a.bin@udp://tracker"]>
          (<["content/.env" := RegularFile "KEY=1"]> ∅))).

(** A disk without the content directory. *)
Definition no_content : FS := <["readme" := RegularFile "hello"]> ∅.

(** A freshly constructed seedbox on a disk, nothing logged yet. *)
Definition fresh `{env : Env} (disk : FS) : world :=
  {| self := init "content" "udp://tracker" 6881 6891;
     fs := disk;
     trace := [] |}.

(** ** Predicates of the specification *)

(** The world after [_create_torrent] found the metadata file in place:
    one debug record, nothing else. *)
Definition reused `{env : Env} (file_path : string) (w : world) : world :=
  {| self := self w; fs := fs w;
     trace := trace w
              ++ [DebugTorrentExists (name_of (file_path +:+ ".torrent"))] |}.

(** The claim's reading of the eligible files: every top-level entry of
    the directory whose name does not end in [.torrent]. *)
Definition top_level_non_torrent (m : FS) (dir p : string) : Prop :=
  exists name, p = join dir name /\ is_Some (m !! p)
               /\ name <> "" /\ has_char "/" name = false
               /\ endswith name ".torrent" = false.

(** What [_load_content_files] keeps of the listing. *)
Definition eligible `{env : Env} (m : FS) (dir : string) : list string :=
  filter (fun f => endswith f ".torrent" = false) (glob_star m dir).

(** [data] is the metadata of [f] and [info] what libtorrent reads
    back from it: the torrent generated for [f] with the tracker, on a
    disk that differs from [m0] by metadata files of [files] at most, then
    bencoded and parsed. *)
Definition made_from `{env : Env} (m0 : FS) (files : list string)
  (tracker f data : string) (info : torrent_info) : Prop :=
  exists (m : FS) (torrent : torrent_entry),
    (forall p, (forall g, g ∈ files -> p <> g +:+ ".torrent") ->
               m !! p = m0 !! p)
    /\ lt_generate m f tracker = Return torrent
    /\ lt_bencode torrent = Return data
    /\ lt_parse data = Return info.

(** The metadata files that the listing of the directory shows. *)
Definition metadata_files `{env : Env} (m : FS) (dir : string) : list string :=
  filter (fun f => endswith f ".torrent" = true) (glob_star m dir).

(** Every call into libtorrent and every [open] returns. *)
Record calls_return `{env : Env} : Prop :=
  { session_returns : lt_session_new = None;
    listen_returns : forall pmin pmax, lt_listen_on pmin pmax = None;
    settings_return : forall port, lt_apply_settings port = None;
    generate_returns : forall m file_path tracker,
        exists torrent, lt_generate m file_path tracker = Return torrent;
    bencode_returns : forall torrent,
        exists data, lt_bencode torrent = Return data;
    parse_returns : forall data, exists info, lt_parse data = Return info;
    add_returns : forall n info path, lt_add_torrent n info path = None;
    open_returns : forall m path, os_open_wb m path = None;
    status_returns : forall tick info path,
        exists st, lt_status tick info path = Return st }.

(** The three calls of [_initialize_session] return. *)
Record session_opens `{env : Env} : Prop :=
  { opens_new : lt_session_new = None;
    opens_listen : forall pmin pmax, lt_listen_on pmin pmax = None;
    opens_settings : forall port, lt_apply_settings port = None }.

(** When one of them raises, it raises an instance of [Exception]. *)
Record session_raises_Exceptions `{env : Env} : Prop :=
  { raises_new : forall e, lt_session_new = Some e -> is_Exception e = true;
    raises_listen : forall pmin pmax e,
        lt_listen_on pmin pmax = Some e -> is_Exception e = true;
    raises_settings : forall port e,
        lt_apply_settings port = Some e -> is_Exception e = true }.

(** The set-up failures that the session declares. *)
Inductive setup_failure `{env : Env} (w : world) : Prop :=
| directory_missing :
    fs w !! content_dir (self w) = None -> setup_failure w
| no_eligible_files :
    is_Some (fs w !! content_dir (self w)) ->
    eligible (fs w) (content_dir (self w)) = [] -> setup_failure w
| nothing_registered (files : list string) (w1 w2 : world) :
    seed_open w = (Return files, w1) ->
    _add_torrents files w1 = (Return tt, w2) ->
    handles (self w2) = [] -> setup_failure w.

(** The seedbox once a session is open and bound. *)
Definition with_session `{env : Env} (s : seedbox) : seedbox :=
  {| content_dir := content_dir s; tracker_url := tracker_url s;
     port_min := port_min s; port_max := port_max s;
     session := Some {| listening := Some (port_min s, port_max s);
                        listen_interfaces := Some ("0.0.0.0", port_min s);
                        registered := [] |};
     handles := handles s |}.

(** [e] is raised inside [seed_content], by the set-up or by a turn of
    the status loop after turns that returned, and [fuel] lets the call
    get there. *)
Definition enough `{env : Env} (status_interval : Z) (w : world)
  (e : exn) (w1 : world) (fuel : nat) : Prop :=
  seed_setup w = (Raise e, w1)
  \/ exists n w0, (n < fuel)%nat
                  /\ seed_content status_interval n w = (Seeding n, w0)
                  /\ seed_tick status_interval n w0 = (Raise e, w1).

(** ** Measures and further scenarios *)

(** The sum of a field over the statuses of the handles. *)
Definition sum_of (f : torrent_status -> Z) (sts : list torrent_status) : Z :=
  fold_right (fun st acc => f st + acc) 0 sts.

(** The items registered with the session of a seedbox. *)
Definition session_items `{env : Env} (s : seedbox) : list torrent_handle :=
  match session s with
  | Some ses => registered ses
  | None => []
  end.

(** What the status loop logs for a list of snapshots, one turn each. *)
Definition status_records (status_interval : Z) (sts : list status)
  : list event :=
  flat_map (fun st => [InfoSeeding st; CallSleep status_interval]) sts.

(** As [quiet], except that [lt.bencode] raises [e]. *)
Definition bencode_raises (e : exn) : Env :=
  {| torrent_entry := string;
     torrent_info := string;
     lt_generate := fun _ file_path tracker => Return (file_path +:+ "@" +:+ tracker);
     lt_bencode := fun _ => Raise e;
     lt_parse := fun data => Return data;
     lt_session_new := None;
     lt_listen_on := fun _ _ => None;
     lt_apply_settings := fun _ => None;
     lt_add_torrent := fun _ _ _ => None;
     lt_status := fun _ _ _ => Return {| total_upload := 0; num_peers := 0 |};
     os_open_wb := fun _ _ => None;
     time_sleep := fun _ => None |}.

(** As [quiet], except that [lt.session()] raises [e]. *)
Definition session_refused (e : exn) : Env :=
  {| torrent_entry := string;
     torrent_info := string;
     lt_generate := fun _ file_path tracker => Return (file_path +:+ "@" +:+ tracker);
     lt_bencode := fun torrent => Return torrent;
     lt_parse := fun data => Return data;
     lt_session_new := Some e;
     lt_listen_on := fun _ _ => None;
     lt_apply_settings := fun _ => None;
     lt_add_torrent := fun _ _ _ => None;
     lt_status := fun _ _ _ => Return {| total_upload := 0; num_peers := 0 |};
     os_open_wb := fun _ _ => None;
     time_sleep := fun _ => None |}.

(** As [quiet], except that every item reports 2 peers and 1024 bytes
    uploaded. *)
Definition busy : Env :=
  {| torrent_entry := string;
     torrent_info := string;
     lt_generate := fun _ file_path tracker => Return (file_path +:+ "@" +:+ tracker);
     lt_bencode := fun torrent => Return torrent;
     lt_parse := fun data => Return data;
     lt_session_new := None;
     lt_listen_on := fun _ _ => None;
     lt_apply_settings := fun _ => None;
     lt_add_torrent := fun _ _ _ => None;
     lt_status := fun _ _ _ => Return {| total_upload := 1024; num_peers := 2 |};
     os_open_wb := fun _ _ => None;
     time_sleep := fun _ => None |}.


(** As [quiet], except that [listen_on] raises [e]. *)
Definition ports_taken (e : exn) : Env :=
  {| torrent_entry := string;
     torrent_info := string;
     lt_generate := fun _ file_path tracker => Return (file_path +:+ "@" +:+ tracker);
     lt_bencode := fun torrent => Return torrent;
     lt_parse := fun data => Return data;
     lt_session_new := None;
     lt_listen_on := fun _ _ => Some e;
     lt_apply_settings := fun _ => None;
     lt_add_torrent := fun _ _ _ => None;
     lt_status := fun _ _ _ => Return {| total_upload := 0; num_peers := 0 |};
     os_open_wb := fun _ _ => None;
     time_sleep := fun _ => None |}.

(** As [quiet], except that no metadata can be generated for the file
    [bad]: libtorrent raises [e]. *)
Definition unreadable (bad : string) (e : exn) : Env :=
  {| torrent_entry := string;
     torrent_info := string;
     lt_generate := fun _ file_path tracker =>
                      if String.eqb file_path bad then Raise e
                      else Return (file_path +:+ "@" +:+ tracker);
     lt_bencode := fun torrent => Return torrent;
     lt_parse := fun data => Return data;
     lt_session_new := None;
     lt_listen_on := fun _ _ => None;
     lt_apply_settings := fun _ => None;
     lt_add_torrent := fun _ _ _ => None;
     lt_status := fun _ _ _ => Return {| total_upload := 0; num_peers := 0 |};
     os_open_wb := fun _ _ => None;
     time_sleep := fun _ => None |}.

(** The two records that close a turn of the [for] of [_add_torrents]. *)
Definition is_added_log (ev : event) : bool :=
  match ev with InfoAdded _ => true | _ => false end.

Definition is_failed_log (ev : event) : bool :=
  match ev with ErrorFailedToAdd _ _ => true | _ => false end.

Definition added (l : list event) : nat :=
  length (filter (fun ev => is_added_log ev = true) l).

Definition failed (l : list event) : nat :=
  length (filter (fun ev => is_failed_log ev = true) l).

End Seedbox.

(* ===================================================================== *)
(** * main.py *)
(* ===================================================================== *)

Module Orchestrator.

(** [config.py] is not among the sources: the constants of [Config] that
    [main.py] reads are parameters of the development. *)
Record Config : Type :=
  { REPO_URL : string;
    REPO_BRANCH : string;
    CONTENT_DIR : string;
    TORRENT_TRACKER : string;
    SEEDBOX_PORT_MIN : Z;
    SEEDBOX_PORT_MAX : Z;
    UPDATE_CHECK_INTERVAL : nat;
    HEARTBEAT_INTERVAL : nat;
    SEEDBOX_STATUS_INTERVAL : Z;
    EXIT_SUCCESS : Z;
    EXIT_FAILURE : Z;
    EXIT_RESTART : Z }.

(** The four coroutines scheduled on the event loop. *)
Inductive task : Type := TUpdate | THeartbeat | TBridge | TRun.

Global Instance task_eq_dec : EqDecision task.
Proof. solve_decision. Defined.

(** One constructor per logging statement of [main.py] and one per call
    that leaves the coroutine. *)
Inductive event : Type :=
| InfoSignal (signum : Z)
| InfoUpdatesDetected
| InfoUpdatesPulled
| ErrorCodeSync (e : exn)
| InfoRunning
| ErrorSeedboxFailed (e : exn)
| ErrorUnexpectedSeedbox (e : exn)
| InfoOrchestratorStarting
| InfoRepository (url : string)
| InfoBranch (branch : string)
| InfoUpdateInterval (seconds : nat)
| InfoContentDirectory (dir : string)
| InfoTasksCancelled
| InfoStopped
| InfoInterruptedByUser
| ErrorFatal (e : exn)
| CallHasUpdates
| CallPullUpdates
| CallSysExit (code : Z)
| CallSleep (t : task) (seconds : nat)
| CallRunInExecutor
| CallCancel (t : task)
| CallGatherCancelled
| CallExecutorShutdown.

Definition is_poll (ev : event) : bool :=
  match ev with CallHasUpdates => true | _ => false end.

Definition is_heartbeat (ev : event) : bool :=
  match ev with InfoRunning => true | _ => false end.



Definition is_shutdown_call (ev : event) : bool :=
  match ev with
  | CallCancel _ | CallGatherCancelled | CallExecutorShutdown => true
  | _ => false
  end.

Definition is_pulled (ev : event) : bool :=
  match ev with InfoUpdatesPulled => true | _ => false end.

Definition is_sys_exit (ev : event) : bool :=
  match ev with CallSysExit _ => true | _ => false end.

Definition is_unexpected_log (ev : event) : bool :=
  match ev with ErrorUnexpectedSeedbox _ => true | _ => false end.

(** How many records of a kind a log holds. *)
Fixpoint count (f : event -> bool) (l : list event) : nat :=
  match l with
  | [] => O
  | ev :: l' => ((if f ev then 1 else 0) + count f l')%nat
  end.

(** ** Program counters *)

(** [check_for_updates]: at the loop head before the first turn, about to
    call [has_updates], about to call [pull_updates], suspended in
    [asyncio.sleep] until the clock reaches [wake], or over. *)
Inductive um_pc : Type :=
| UM_Start
| UM_Call
| UM_Pull
| UM_Sleeping (wake : nat)
| UM_Done (r : result unit).

(** [heartbeat] *)
Inductive hb_pc : Type :=
| HB_Start
| HB_Emit
| HB_Sleeping (wake : nat)
| HB_Done (r : result unit).

(** [run_seedbox]: before [run_in_executor], suspended on its future, or
    over. *)
Inductive sb_pc : Type :=
| SB_Start
| SB_Awaiting
| SB_Done (r : result unit).

(** The single thread of the executor running [seed_content]. *)
Inductive worker_pc : Type :=
| W_Idle
| W_Setup
| W_Loop (tick : nat)
| W_Finished (r : result unit).

(** [run], then the handlers of [main]: suspended on the first [gather];
    in [finally] before the cancellations, suspended on the second
    [gather], inside [executor.shutdown(wait=True)]; or the process has
    exited.  [pending] is the exception that left the [try]. *)
Inductive run_pc : Type :=
| R_Gather
| R_Finally (pending : option exn)
| R_AwaitCancelled (pending : option exn)
| R_Shutdown (pending : option exn)
| R_Exited (code : Z).

Section WithConfig.

Context `{env : Seedbox.Env} (Config : Config).

Record state : Type :=
  { running : bool;                  (* self.running *)
    clock : nat;                     (* seconds on the loop's clock *)
    cur : option task;               (* the coroutine the loop is inside *)
    um : um_pc;
    hb : hb_pc;
    sb : sb_pc;
    worker : worker_pc;
    seed : Seedbox.world;            (* self.seedbox, the disk, its log *)
    gathered : option exn;           (* first exception of a child of gather *)
    sup : run_pc;
    log : list event }.

Definition set_running (b : bool) (s : state) : state :=
  {| running := b; clock := clock s; cur := cur s; um := um s; hb := hb s;
     sb := sb s; worker := worker s; seed := seed s;
     gathered := gathered s; sup := sup s; log := log s |}.

Definition set_clock (n : nat) (s : state) : state :=
  {| running := running s; clock := n; cur := cur s; um := um s; hb := hb s;
     sb := sb s; worker := worker s; seed := seed s;
     gathered := gathered s; sup := sup s; log := log s |}.

Definition set_cur (c : option task) (s : state) : state :=
  {| running := running s; clock := clock s; cur := c; um := um s; hb := hb s;
     sb := sb s; worker := worker s; seed := seed s;
     gathered := gathered s; sup := sup s; log := log s |}.

Definition set_um (pc : um_pc) (s : state) : state :=
  {| running := running s; clock := clock s; cur := cur s; um := pc; hb := hb s;
     sb := sb s; worker := worker s; seed := seed s;
     gathered := gathered s; sup := sup s; log := log s |}.

Definition set_hb (pc : hb_pc) (s : state) : state :=
  {| running := running s; clock := clock s; cur := cur s; um := um s; hb := pc;
     sb := sb s; worker := worker s; seed := seed s;
     gathered := gathered s; sup := sup s; log := log s |}.

Definition set_sb (pc : sb_pc) (s : state) : state :=
  {| running := running s; clock := clock s; cur := cur s; um := um s; hb := hb s;
     sb := pc; worker := worker s; seed := seed s;
     gathered := gathered s; sup := sup s; log := log s |}.

Definition set_worker (pc : worker_pc) (w : Seedbox.world) (s : state) : state :=
  {| running := running s; clock := clock s; cur := cur s; um := um s; hb := hb s;
     sb := sb s; worker := pc; seed := w;
     gathered := gathered s; sup := sup s; log := log s |}.

Definition set_gathered (g : option exn) (s : state) : state :=
  {| running := running s; clock := clock s; cur := cur s; um := um s; hb := hb s;
     sb := sb s; worker := worker s; seed := seed s;
     gathered := g; sup := sup s; log := log s |}.

Definition set_sup (pc : run_pc) (s : state) : state :=
  {| running := running s; clock := clock s; cur := cur s; um := um s; hb := hb s;
     sb := sb s; worker := worker s; seed := seed s;
     gathered := gathered s; sup := pc; log := log s |}.

Definition emit (evs : list event) (s : state) : state :=
  {| running := running s; clock := clock s; cur := cur s; um := um s; hb := hb s;
     sb := sb s; worker := worker s; seed := seed s;
     gathered := gathered s; sup := sup s; log := log s ++ evs |}.

(** The loop is between callbacks: a suspended coroutine may resume. *)
Definition idle (s : state) : bool :=
  match cur s with None => true | Some _ => false end.

(** The loop is inside coroutine [t], between two of its awaits. *)
Definition inside (t : task) (s : state) : bool :=
  bool_decide (cur s = Some t).

(** A child of the first [gather] raised: the first exception is the
    one [gather] delivers. *)
Definition deliver (r : result unit) (s : state) : state :=
  match r, gathered s, sup s with
  | Raise e, None, R_Gather => set_gathered (Some e) s
  | _, _, _ => s
  end.

(** ** Orchestrator.__init__ and the start of Orchestrator.run: the
    state when [run] suspends on [gather] with the three tasks created. *)
Definition start (disk : Seedbox.FS) : state :=
  {| running := true;
     clock := O;
     cur := None;
     um := UM_Start; hb := HB_Start; sb := SB_Start;
     worker := W_Idle;
     seed := {| Seedbox.self :=
                  Seedbox.init (CONTENT_DIR Config) (TORRENT_TRACKER Config)
                    (SEEDBOX_PORT_MIN Config) (SEEDBOX_PORT_MAX Config);
                Seedbox.fs := disk;
                Seedbox.trace := [] |};
     gathered := None;
     sup := R_Gather;
     log := [ InfoOrchestratorStarting;
              InfoRepository (REPO_URL Config);
              InfoBranch (REPO_BRANCH Config);
              InfoUpdateInterval (UPDATE_CHECK_INTERVAL Config);
              InfoContentDirectory (CONTENT_DIR Config) ] |}.

(** ** Orchestrator._handle_shutdown *)
Definition _handle_shutdown (signum : Z) (s : state) : state :=
  set_running false (emit [InfoSignal signum] s).

(** ** Orchestrator.check_for_updates *)

(** [while self.running:] *)
Definition um_head (s : state) : state :=
  if running s then set_cur (Some TUpdate) (set_um UM_Call s)
  else deliver (Return tt) (set_cur None (set_um (UM_Done (Return tt)) s)).

(** [await asyncio.sleep(Config.UPDATE_CHECK_INTERVAL)] *)
Definition um_sleep (s : state) : state :=
  set_cur None
    (set_um (UM_Sleeping (clock s + UPDATE_CHECK_INTERVAL Config))
       (emit [CallSleep TUpdate (UPDATE_CHECK_INTERVAL Config)] s)).

(** An exception inside the [try]: [except CodeSyncError]. *)
Definition um_except (e : exn) (s : state) : state :=
  if is_CodeSyncError e then um_sleep (emit [ErrorCodeSync e] s)
  else deliver (Raise e) (set_cur None (set_um (UM_Done (Raise e)) s)).

(** One move of the coroutine; [reply] is what the [SourceSync] call at
    hand does (the value of [pull_updates] is not used). *)
Definition check_for_updates (reply : result bool) (s : state) : state :=
  match um s with
  | UM_Start => if idle s then um_head s else s
  | UM_Sleeping wake =>
      if idle s && (wake <=? clock s)%nat then um_head s else s
  | UM_Call =>
      if inside TUpdate s then
        let s := emit [CallHasUpdates] s in
        match reply with
        | Return true => set_um UM_Pull (emit [InfoUpdatesDetected] s)
        | Return false => um_sleep s
        | Raise e => um_except e s
        end
      else s
  | UM_Pull =>
      if inside TUpdate s then
        let s := emit [CallPullUpdates] s in
        match reply with
        | Return _ =>
            um_except (SystemExit (EXIT_RESTART Config))
              (emit [InfoUpdatesPulled; CallSysExit (EXIT_RESTART Config)] s)
        | Raise e => um_except e s
        end
      else s
  | UM_Done _ => s
  end.

(** ** Orchestrator.heartbeat *)
Definition hb_head (s : state) : state :=
  if running s then set_cur (Some THeartbeat) (set_hb HB_Emit s)
  else deliver (Return tt) (set_cur None (set_hb (HB_Done (Return tt)) s)).

Definition heartbeat (s : state) : state :=
  match hb s with
  | HB_Start => if idle s then hb_head s else s
  | HB_Sleeping wake =>
      if idle s && (wake <=? clock s)%nat then hb_head s else s
  | HB_Emit =>
      if inside THeartbeat s then
        set_cur None
          (set_hb (HB_Sleeping (clock s + HEARTBEAT_INTERVAL Config))
             (emit [InfoRunning;
                    CallSleep THeartbeat (HEARTBEAT_INTERVAL Config)] s))
      else s
  | HB_Done _ => s
  end.

(** ** Orchestrator.run_seedbox *)

(** What the [await] of the executor's future gives, through the two
    [except] clauses. *)
Definition sb_resume (r : result unit) (s : state) : state :=
  match r with
  | Return _ => deliver (Return tt) (set_sb (SB_Done (Return tt)) s)
  | Raise e =>
      if is_SeedboxError e then
        deliver (Return tt)
          (set_sb (SB_Done (Return tt)) (emit [ErrorSeedboxFailed e] s))
      else if is_Exception e then
        deliver (Return tt)
          (set_sb (SB_Done (Return tt)) (emit [ErrorUnexpectedSeedbox e] s))
      else deliver (Raise e) (set_sb (SB_Done (Raise e)) s)
  end.

Definition run_seedbox (s : state) : state :=
  match sb s with
  | SB_Start =>
      if idle s then
        set_sb SB_Awaiting
          (set_worker W_Setup (seed s) (emit [CallRunInExecutor] s))
      else s
  | SB_Awaiting =>
      if idle s then
        match worker s with
        | W_Finished r => sb_resume r s
        | _ => s
        end
      else s
  | SB_Done _ => s
  end.

(** ** The executor thread: [Seedbox.seed_content] *)
Definition finish_worker (e : exn) (w : Seedbox.world) (s : state) : state :=
  let (r, w') := Seedbox.seed_leave e w in
  set_worker (W_Finished r) w' s.

Definition worker_step (s : state) : state :=
  match worker s with
  | W_Idle | W_Finished _ => s
  | W_Setup =>
      match Seedbox.seed_setup (seed s) with
      | (Return _, w) => set_worker (W_Loop O) w s
      | (Raise e, w) => finish_worker e w s
      end
  | W_Loop tick =>
      match Seedbox.seed_tick (SEEDBOX_STATUS_INTERVAL Config) tick (seed s) with
      | (Return _, w) => set_worker (W_Loop (S tick)) w s
      | (Raise e, w) => finish_worker e w s
      end
  end.

(** ** Orchestrator.run and main *)

Definition um_done (s : state) : bool :=
  match um s with UM_Done _ => true | _ => false end.
Definition hb_done (s : state) : bool :=
  match hb s with HB_Done _ => true | _ => false end.
Definition sb_done (s : state) : bool :=
  match sb s with SB_Done _ => true | _ => false end.

Definition all_done (s : state) : bool :=
  um_done s && hb_done s && sb_done s.

(** [task.cancel()]: a task that is not over ends with
    [CancelledError] at the [await] it is suspended on, which none of
    the three coroutines catches. *)
Definition cancelled_um (pc : um_pc) : um_pc :=
  match pc with
  | UM_Done r => UM_Done r
  | _ => UM_Done (Raise CancelledError)
  end.
Definition cancelled_hb (pc : hb_pc) : hb_pc :=
  match pc with
  | HB_Done r => HB_Done r
  | _ => HB_Done (Raise CancelledError)
  end.
Definition cancelled_sb (pc : sb_pc) : sb_pc :=
  match pc with
  | SB_Done r => SB_Done r
  | _ => SB_Done (Raise CancelledError)
  end.

Definition cancel_um (s : state) : state :=
  emit [CallCancel TUpdate] (set_um (cancelled_um (um s)) s).
Definition cancel_hb (s : state) : state :=
  emit [CallCancel THeartbeat] (set_hb (cancelled_hb (hb s)) s).
Definition cancel_sb (s : state) : state :=
  emit [CallCancel TBridge] (set_sb (cancelled_sb (sb s)) s).

(** The handlers of [main] around [asyncio.run], and the status the
    interpreter exits with. *)
Definition main (pending : option exn) : list event * Z :=
  match pending with
  | None => ([InfoStopped], EXIT_SUCCESS Config)
  | Some KeyboardInterrupt => ([InfoInterruptedByUser], EXIT_SUCCESS Config)
  | Some (SystemExit code) => ([], code)
  | Some CancelledError => ([], 1)
  | Some e => ([ErrorFatal e], EXIT_FAILURE Config)
  end.

Definition worker_stopped (s : state) : bool :=
  match worker s with
  | W_Idle | W_Finished _ => true
  | W_Setup | W_Loop _ => false
  end.

Definition run (s : state) : state :=
  match sup s with
  | R_Gather =>
      if idle s then
        match gathered s with
        | Some e =>
            if is_CancelledError e then
              set_cur (Some TRun)
                (set_sup (R_Finally None) (emit [InfoTasksCancelled] s))
            else set_cur (Some TRun) (set_sup (R_Finally (Some e)) s)
        | None =>
            if all_done s then set_cur (Some TRun) (set_sup (R_Finally None) s)
            else s
        end
      else s
  | R_Finally pending =>
      if inside TRun s then
        set_cur None
          (set_sup (R_AwaitCancelled pending)
             (emit [CallGatherCancelled]
                (cancel_sb (cancel_hb (cancel_um s)))))
      else s
  | R_AwaitCancelled pending =>
      if idle s then
        set_cur (Some TRun)
          (set_sup (R_Shutdown pending) (emit [CallExecutorShutdown] s))
      else s
  | R_Shutdown pending =>
      if inside TRun s && worker_stopped s then
        let (evs, code) := main pending in
        set_cur None (set_sup (R_Exited code) (emit evs s))
      else s
  | R_Exited _ => s
  end.

(** ** The transition system *)

Inductive input : Type :=
| Signal (signum : Z)            (* SIGTERM or SIGINT is delivered *)
| Tick                           (* a second passes *)
| Update (reply : result bool)   (* the loop runs check_for_updates *)
| Heartbeat                      (* the loop runs heartbeat *)
| Bridge                         (* the loop runs run_seedbox *)
| Worker                         (* the executor thread moves *)
| Run.                           (* the loop runs run *)

Definition exited (s : state) : bool :=
  match sup s with R_Exited _ => true | _ => false end.

Definition step (i : input) (s : state) : state :=
  if exited s then s
  else match i with
       | Signal signum => _handle_shutdown signum s
       | Tick => set_clock (S (clock s)) s
       | Update reply => check_for_updates reply s
       | Heartbeat => heartbeat s
       | Bridge => run_seedbox s
       | Worker => worker_step s
       | Run => run s
       end.

Definition exec (ins : list input) (s : state) : state :=
  fold_left (fun s i => step i s) ins s.

(** ** Schedules of check_for_updates *)





(** Calls of [has_updates] and heartbeats still to come from the turn
    a coroutine is inside. *)
Definition polls_left (s : state) : nat :=
  match um s with UM_Call => 1 | _ => 0 end.

Definition beats_left (s : state) : nat :=
  match hb s with HB_Emit => 1 | _ => 0 end.

(** Status records in the log of the seedbox. *)
Definition status_ticks (s : state) : nat :=
  length (filter (fun ev => Seedbox.is_status_log ev = true)
            (Seedbox.trace (seed s))).

(** ** Invariants of the system *)

(** The supervisor is in its wait, or a task has raised, or the three
    tasks are over. *)
Definition gather_open (s : state) : Prop :=
  sup s = R_Gather \/ gathered s <> None \/ all_done s = true.

(** Until the clock reaches [wake], and unless a task raises, the
    heartbeat stays asleep and the supervisor stays in its wait. *)
Definition asleep_until (wake : nat) (s : state) : Prop :=
  (clock s < wake)%nat -> gathered s = None ->
  hb s = HB_Sleeping wake /\ sup s = R_Gather.

(** The flag is down, the update monitor is not inside a turn and the
    bridge is over: nothing is left that could raise into [gather]. *)
Definition settled (s : state) : Prop :=
  running s = false /\ polls_left s = O /\ um s <> UM_Pull
  /\ sb_done s = true /\ gathered s = None.

(** The calls of the [finally] of [run] before the executor is shut
    down. *)
Definition cancellations_logged (s : state) : Prop :=
  CallCancel TUpdate ∈ log s /\ CallCancel THeartbeat ∈ log s
  /\ CallCancel TBridge ∈ log s /\ CallGatherCancelled ∈ log s.

(** [gather] holds the [SystemExit] of the update monitor: wherever the
    supervisor stands, that exception is what it carries, and it has
    gone through the [finally] step by step. *)
Definition restart_in_progress (s : state) : Prop :=
  gathered s = Some (SystemExit (EXIT_RESTART Config))
  /\ match sup s with
     | R_Gather => True
     | R_Finally pending =>
         pending = Some (SystemExit (EXIT_RESTART Config))
     | R_AwaitCancelled pending =>
         pending = Some (SystemExit (EXIT_RESTART Config))
         /\ cancellations_logged s
     | R_Shutdown pending =>
         pending = Some (SystemExit (EXIT_RESTART Config))
         /\ cancellations_logged s /\ CallExecutorShutdown ∈ log s
     | R_Exited code =>
         code = EXIT_RESTART Config
         /\ cancellations_logged s /\ CallExecutorShutdown ∈ log s
         /\ worker_stopped s = true
     end.


(** The bridge has submitted the call, the executor thread is inside
    the status loop with something to seed, and the process is alive. *)
Definition seeding (s : state) : Prop :=
  (exists tick, worker s = W_Loop tick)
  /\ Seedbox.handles (Seedbox.self (seed s)) <> []
  /\ exited s = false
  /\ sb s <> SB_Start.

(** What leaves the [try] of [run] when [gather] is over: the
    [CancelledError] of a child is caught by the [except] clause. *)
Definition left_try (g : option exn) : option exn :=
  match g with
  | Some e => if is_CancelledError e then None else Some e
  | None => None
  end.

(** The supervisor goes through [run] in order: nothing of the
    [finally] is called during the wait; the exception it carries is what
    left the [try]; the tasks are over once they were cancelled, and the
    thread has stopped once the executor was shut down. *)
Definition supervised (s : state) : Prop :=
  match sup s with
  | R_Gather => count is_shutdown_call (log s) = O
  | R_Finally pending =>
      pending = left_try (gathered s)
      /\ count is_shutdown_call (log s) = O
  | R_AwaitCancelled pending =>
      pending = left_try (gathered s) /\ all_done s = true
      /\ count is_shutdown_call (log s) = 4%nat
  | R_Shutdown pending =>
      pending = left_try (gathered s) /\ all_done s = true
      /\ count is_shutdown_call (log s) = 5%nat
  | R_Exited code =>
      all_done s = true /\ worker_stopped s = true
      /\ count is_shutdown_call (log s) = 5%nat
      /\ code = (main (left_try (gathered s))).2
      /\ exists before, log s = before ++ (main (left_try (gathered s))).1
  end.

(** The polls made so far fit the clock: poll number [n + 1] is not
    made before second [n * UPDATE_CHECK_INTERVAL]. *)
Definition polls_paced (s : state) : Prop :=
  let n := count is_poll (log s) in
  let every := UPDATE_CHECK_INTERVAL Config in
  match um s with
  | UM_Start => n = O
  | UM_Call => (n * every <= clock s)%nat
  | UM_Sleeping wake => (n * every <= wake)%nat /\ (wake <= clock s + every)%nat
  | UM_Pull | UM_Done _ => (n * every <= clock s + every)%nat
  end.

Definition beats_paced (s : state) : Prop :=
  let n := count is_heartbeat (log s) in
  let every := HEARTBEAT_INTERVAL Config in
  match hb s with
  | HB_Start => n = O
  | HB_Emit => (n * every <= clock s)%nat
  | HB_Sleeping wake => (n * every <= wake)%nat /\ (wake <= clock s + every)%nat
  | HB_Done _ => (n * every <= clock s + every)%nat
  end.

(** [sys.exit] is called right after each pull that returned, and a
    pull that returned has ended the coroutine. *)
Definition pulled_once (s : state) : Prop :=
  count is_sys_exit (log s) = count is_pulled (log s)
  /\ (count is_pulled (log s) = O
      \/ (count is_pulled (log s) = 1%nat
          /\ um s = UM_Done (Raise (SystemExit (EXIT_RESTART Config))))).

(** What [seed_content] can give to the bridge. *)
Definition expected_result (r : result unit) : bool :=
  match r with
  | Return _ => true
  | Raise e => is_SeedboxError e || negb (is_Exception e)
  end.

Definition bridge_expected (s : state) : Prop :=
  (forall r, worker s = W_Finished r -> expected_result r = true)
  /\ count is_unexpected_log (log s) = O.

(** [gather] is over, with nothing raised or with an instance of
    [Exception]. *)
Definition gather_over (s : state) : Prop :=
  match gathered s with
  | None => all_done s = true
  | Some e => is_Exception e = true
  end.

(** The five calls of the [finally] of [run]. *)
Definition finally_calls : list event :=
  [CallCancel TUpdate; CallCancel THeartbeat; CallCancel TBridge;
   CallGatherCancelled; CallExecutorShutdown].

End WithConfig.

(** Constants for the scenarios. *)
Definition demo : Config :=
  {| REPO_URL := "https://example.org/mycelium.git";
     REPO_BRANCH := "main";
     CONTENT_DIR := "content";
     TORRENT_TRACKER := "udp://tracker";
     SEEDBOX_PORT_MIN := 6881;
     SEEDBOX_PORT_MAX := 6891;
     UPDATE_CHECK_INTERVAL := 60;
     HEARTBEAT_INTERVAL := 30;
     SEEDBOX_STATUS_INTERVAL := 5;
     EXIT_SUCCESS := 0;
     EXIT_FAILURE := 1;
     EXIT_RESTART := 42 |}.

End Orchestrator.

(* ===================================================================== *)
(** * Facts about strings and paths *)
(* ===================================================================== *)

Module PathFacts.

Import Path.

Lemma app_nil_l (s : string) : "" +:+ s = s.
Proof. reflexivity. Qed.

Lemma app_cons (a : ascii) (s t : string) :
  String a s +:+ t = String a (s +:+ t).
Proof. reflexivity. Qed.

Lemma app_assoc (s t u : string) : (s +:+ t) +:+ u = s +:+ (t +:+ u).
Proof.
  induction s as [|a s IH]; [reflexivity|].
  rewrite !app_cons, IH. reflexivity.
Qed.

Lemma chars_app (s t : string) :
  list_ascii_of_string (s +:+ t)
  = list_ascii_of_string s ++ list_ascii_of_string t.
Proof.
  induction s as [|a s IH]; [reflexivity|].
  rewrite app_cons. simpl. rewrite IH. reflexivity.
Qed.

Lemma chars_inj (s t : string) :
  list_ascii_of_string s = list_ascii_of_string t -> s = t.
Proof.
  intros H. rewrite <- (string_of_list_ascii_of_string s),
    <- (string_of_list_ascii_of_string t), H. reflexivity.
Qed.

(** Appending the same suffix to different paths gives different paths. *)
Lemma app_inj_r (s1 s2 t : string) : s1 +:+ t = s2 +:+ t -> s1 = s2.
Proof.
  intros H. apply chars_inj.
  apply (f_equal list_ascii_of_string) in H. rewrite !chars_app in H.
  eapply List.app_inv_tail, H.
Qed.

Lemma endswith_eq (s suf : string) :
  endswith s suf
  = if String.eqb s suf then true
    else match s with
         | EmptyString => false
         | String _ s' => endswith s' suf
         end.
Proof. destruct s; reflexivity. Qed.

Lemma endswith_spec (s suf : string) :
  endswith s suf = true <-> exists pre, s = pre +:+ suf.
Proof.
  induction s as [|a s IH]; rewrite endswith_eq.
  - destruct (String.eqb_spec "" suf) as [<-|Hne].
    + split; [exists ""; reflexivity | reflexivity].
    + split; [discriminate|]. intros [pre Hpre]. exfalso.
      destruct pre; [apply Hne; exact Hpre | discriminate].
  - destruct (String.eqb_spec (String a s) suf) as [<-|Hne].
    + split; [exists ""; reflexivity | reflexivity].
    + rewrite IH. split.
      * intros [pre ->]. exists (String a pre). reflexivity.
      * intros [pre Hpre]. destruct pre as [|b pre].
        -- exfalso. apply Hne. exact Hpre.
        -- rewrite app_cons in Hpre. injection Hpre as _ ->. eauto.
Qed.

Lemma endswith_app (s suf : string) : endswith (s +:+ suf) suf = true.
Proof. apply endswith_spec. eauto. Qed.

Lemma strip_prefix_spec (p s r : string) :
  strip_prefix p s = Some r <-> s = p +:+ r.
Proof.
  revert s. induction p as [|a p IH]; intros s; simpl.
  - rewrite app_nil_l. split; congruence.
  - destruct s as [|b s]; [rewrite app_cons; split; discriminate|].
    rewrite app_cons. destruct (Ascii.eqb_spec a b) as [->|Hne].
    + rewrite IH. split; congruence.
    + split; [discriminate | congruence].
Qed.

Lemma has_char_app (c : ascii) (s t : string) :
  has_char c (s +:+ t) = has_char c s || has_char c t.
Proof.
  induction s as [|a s IH]; [reflexivity|].
  rewrite app_cons. simpl. rewrite IH, orb_assoc. reflexivity.
Qed.

(** The separator does not occur in the suffix [.torrent], so the test
    on a path is the test on its last component. *)
Lemma endswith_join (dir name : string) :
  endswith (join dir name) ".torrent" = endswith name ".torrent".
Proof.
  unfold join. induction dir as [|a dir IH].
  - rewrite app_nil_l. reflexivity.
  - rewrite app_cons, endswith_eq.
    destruct (String.eqb_spec (String a (dir +:+ "/" +:+ name)) ".torrent")
      as [Heq|_]; [|exact IH].
    exfalso. apply (f_equal (has_char "/")) in Heq.
    rewrite <- app_cons, has_char_app, has_char_app in Heq.
    simpl in Heq. rewrite orb_true_r in Heq. discriminate.
Qed.

Lemma join_torrent (dir name : string) :
  join dir name +:+ ".torrent" = join dir (name +:+ ".torrent").
Proof. unfold join. rewrite !app_assoc. reflexivity. Qed.

Lemma join_inj (dir n1 n2 : string) : join dir n1 = join dir n2 -> n1 = n2.
Proof.
  unfold join. intros H.
  apply (inj (String.app dir)) in H. apply (inj (String.app "/")) in H. exact H.
Qed.

End PathFacts.

(* ===================================================================== *)
(** * Facts about modules/seedbox.py *)
(* ===================================================================== *)

Module SeedboxFacts.

Import Path PathFacts Seedbox.

(** Unfolds the combinators of the monad in the goal. *)
Ltac run_m :=
  cbv [bind ret raise gets emit set_self set_fs call call_r
       try_except try_finally exists_ open_wb write].

Section WithEnv.

Context `{env : Env}.

(** ** _create_torrent *)

Lemma create_torrent_present (file_path : string) (w : world) :
  is_Some (fs w !! (file_path +:+ ".torrent")) ->
  _create_torrent file_path w
  = (Return (file_path +:+ ".torrent"), reused file_path w).
Proof.
  intros Hin. unfold _create_torrent. run_m.
  rewrite bool_decide_eq_true_2 by exact Hin. reflexivity.
Qed.

Lemma create_torrent_returned (file_path t : string) (w w1 : world) :
  _create_torrent file_path w = (Return t, w1) ->
  t = file_path +:+ ".torrent" /\ is_Some (fs w1 !! t).
Proof.
  unfold _create_torrent. run_m.
  case_bool_decide as Hin.
  - intros [= <- <-]. split; [reflexivity | exact Hin].
  - destruct (lt_generate _ _ _) as [torrent|e]; [|discriminate].
    destruct (os_open_wb _ _); [discriminate|]. simpl.
    destruct (lt_bencode torrent) as [data|e]; [|discriminate].
    intros [= <- <-]. split; [reflexivity|]. simpl.
    rewrite lookup_insert_eq. eauto.
Qed.

(** ** glob and _load_content_files *)

Lemma elem_of_glob_star (m : FS) (dir p : string) :
  p ∈ glob_star m dir <->
  m !! dir = Some Directory /\ is_Some (m !! p)
  /\ exists name, p = join dir name /\ star_matches name = true.
Proof.
  unfold glob_star. destruct (m !! dir) as [[data|]|] eqn:Hdir;
    try (rewrite elem_of_nil; split; [tauto | intros [[=] _]]).
  rewrite list_elem_of_filter, list_elem_of_fmap. unfold is_entry. split.
  - intros [Hent [[q node] [-> Hq]]]. simpl in *.
    apply elem_of_map_to_list in Hq.
    split; [reflexivity|]. split; [eauto|].
    destruct (strip_prefix _ _) as [name|] eqn:Hs; [|discriminate].
    apply strip_prefix_spec in Hs. exists name.
    split; [|exact Hent]. rewrite Hs. unfold join. apply app_assoc.
  - intros (_ & [node Hnode] & name & -> & Hname). split.
    + replace (strip_prefix (dir +:+ "/") (join dir name)) with (Some name);
        [exact Hname|].
      symmetry. apply strip_prefix_spec. unfold join.
      symmetry. apply app_assoc.
    + exists (join dir name, node). split; [reflexivity|].
      apply elem_of_map_to_list. exact Hnode.
Qed.

Lemma NoDup_glob_star (m : FS) (dir : string) : NoDup (glob_star m dir).
Proof.
  unfold glob_star. destruct (m !! dir) as [[|]|]; try apply NoDup_nil_2.
  apply NoDup_filter, NoDup_fst_map_to_list.
Qed.

Lemma elem_of_eligible (m : FS) (dir p : string) :
  p ∈ eligible m dir <->
  m !! dir = Some Directory
  /\ exists name, p = join dir name /\ is_Some (m !! p)
                  /\ star_matches name = true
                  /\ endswith name ".torrent" = false.
Proof.
  unfold eligible. rewrite list_elem_of_filter, elem_of_glob_star. split.
  - intros (Hend & Hdir & Hin & name & -> & Hname).
    rewrite endswith_join in Hend. eauto 10.
  - intros (Hdir & name & -> & Hin & Hname & Hend).
    rewrite endswith_join. eauto 10.
Qed.

Lemma NoDup_eligible (m : FS) (dir : string) : NoDup (eligible m dir).
Proof. apply NoDup_filter, NoDup_glob_star. Qed.

(** [_load_content_files] in closed form. *)
Lemma load_content_files_eq (w : world) :
  _load_content_files w
  = if bool_decide (is_Some (fs w !! content_dir (self w))) then
      match eligible (fs w) (content_dir (self w)) with
      | [] => (Raise (SeedboxError ("No files found in: "
                                      +:+ content_dir (self w))), w)
      | f :: fl =>
          (Return (f :: fl),
           {| self := self w; fs := fs w;
              trace := trace w ++ [InfoFound (length (f :: fl))] |})
      end
    else (Raise (SeedboxError ("Content directory not found: "
                                 +:+ content_dir (self w))), w).
Proof.
  unfold _load_content_files, eligible. run_m.
  case_bool_decide; simpl; [|reflexivity].
  destruct (filter _ _); reflexivity.
Qed.

Lemma load_content_files_returns (w w' : world) (files : list string) :
  _load_content_files w = (Return files, w') ->
  files = eligible (fs w) (content_dir (self w)) /\ files <> []
  /\ self w' = self w /\ fs w' = fs w
  /\ trace w' = trace w ++ [InfoFound (length files)].
Proof.
  rewrite load_content_files_eq. case_bool_decide; [|discriminate].
  destruct (eligible _ _) as [|f fl] eqn:He; [discriminate|].
  intros [= <- <-]. simpl. repeat split; congruence.
Qed.

(** ** _initialize_session *)

Lemma initialize_session_ok (w : world) :
  calls_return ->
  _initialize_session w
  = (Return tt,
     {| self := with_session (self w); fs := fs w;
        trace := trace w ++ [CallSession;
                             CallListenOn (port_min (self w)) (port_max (self w));
                             InfoSessionInitialized (port_min (self w))
                               (port_max (self w))] |}).
Proof.
  intros Hok. unfold _initialize_session. run_m.
  rewrite (session_returns Hok), (listen_returns Hok), (settings_return Hok).
  simpl. rewrite <- !List.app_assoc. reflexivity.
Qed.

(** The session call is issued first, whatever happens next. *)
Lemma initialize_session_trace (w w' : world) (r : result unit) :
  _initialize_session w = (r, w') ->
  exists rest, trace w' = trace w ++ CallSession :: rest.
Proof.
  unfold _initialize_session. run_m.
  destruct lt_session_new; simpl.
  { intros [= <- <-]. exists []. reflexivity. }
  destruct (lt_listen_on _ _); simpl.
  { intros [= <- <-]. simpl. rewrite <- List.app_assoc. eauto. }
  destruct (lt_apply_settings _); simpl.
  { intros [= <- <-]. simpl. rewrite <- List.app_assoc. eauto. }
  intros [= <- <-]. simpl. rewrite <- !List.app_assoc. eauto.
Qed.

(** ** _add_torrents *)

Lemma add_one_ok (f : string) (w : world) (ses : lt_session) :
  calls_return ->
  session (self w) = Some ses ->
  fs w !! (f +:+ ".torrent") = None ->
  exists data h,
    add_one_guarded f w
    = (Return tt,
       {| self :=
            {| content_dir := content_dir (self w);
               tracker_url := tracker_url (self w);
               port_min := port_min (self w);
               port_max := port_max (self w);
               session := Some {| listening := listening ses;
                                  listen_interfaces := listen_interfaces ses;
                                  registered := registered ses ++ [h] |};
               handles := handles (self w) ++ [(h, name_of f)] |};
          fs := <[f +:+ ".torrent" := RegularFile data]> (fs w);
          trace := trace w
                   ++ [InfoCreatingTorrent (name_of f);
                       InfoTorrentCreated (name_of (f +:+ ".torrent"));
                       CallAddTorrent (f +:+ ".torrent");
                       InfoAdded (name_of f)] |}).
Proof.
  intros Hok Hses Hnone.
  destruct (generate_returns Hok (fs w) f (tracker_url (self w)))
    as [torrent Hgen].
  destruct (bencode_returns Hok torrent) as [data Hben].
  destruct (parse_returns Hok data) as [info Hpar].
  exists data, {| ti := info; save_path := parent_of f |}.
  unfold add_one_guarded, add_one, _create_torrent, torrent_info_of,
    add_torrent, append_handle. run_m.
  rewrite bool_decide_eq_false_2 by (rewrite Hnone; apply is_Some_None).
  simpl. rewrite Hgen, (open_returns Hok). simpl. rewrite Hben. simpl.
  rewrite lookup_insert_eq, Hpar. simpl. rewrite Hses.
  rewrite (add_returns Hok). simpl.
  rewrite insert_insert_eq, <- !List.app_assoc. reflexivity.
Qed.

Lemma add_torrents_ok (files : list string) :
  forall (w : world) (ses : lt_session),
    calls_return ->
    session (self w) = Some ses ->
    NoDup files ->
    (forall f, f ∈ files -> fs w !! (f +:+ ".torrent") = None) ->
    exists w' ses',
      _add_torrents files w = (Return tt, w')
      /\ session (self w') = Some ses'
      /\ length (registered ses') = (length (registered ses) + length files)%nat
      /\ length (handles (self w'))
         = (length (handles (self w)) + length files)%nat
      /\ size (fs w') = (size (fs w) + length files)%nat
      /\ (forall f, f ∈ files ->
                    exists data, fs w' !! (f +:+ ".torrent")
                                 = Some (RegularFile data))
      /\ (forall p, (forall f, f ∈ files -> p <> f +:+ ".torrent") ->
                    fs w' !! p = fs w !! p).
Proof.
  induction files as [|f files IH]; intros w ses Hok Hses Hnd Hnone.
  - exists w, ses. simpl. repeat split; auto with lia.
    intros f Hf. inversion Hf.
  - apply NoDup_cons in Hnd as [Hf Hnd].
    destruct (add_one_ok f w ses Hok Hses) as (data & h & Hone).
    { apply Hnone. left. }
    match type of Hone with _ = (_, ?X) => set (w1 := X) in Hone end.
    destruct (IH w1 _ Hok eq_refl Hnd) as (w' & ses' & Hrun & Hs & Hr & Hh & Hsz & Hnew & Hold).
    { intros g Hg. simpl. rewrite lookup_insert_ne.
      - apply Hnone. right. exact Hg.
      - intros Heq. apply app_inj_r in Heq. subst g. contradiction. }
    exists w', ses'. simpl _add_torrents. unfold bind at 1.
    rewrite Hone, Hrun. simpl in *. rewrite length_app in Hr, Hh. simpl in *.
    rewrite map_size_insert_None in Hsz by (apply Hnone; left).
    repeat split; try lia; try assumption.
    + intros g Hg. apply elem_of_cons in Hg as [->|Hg]; [|auto].
      exists data. rewrite Hold.
      * apply lookup_insert_eq.
      * intros g Hg Heq. apply app_inj_r in Heq. subst g. contradiction.
    + intros p Hp. rewrite Hold.
      * apply lookup_insert_ne. intros Heq. eapply Hp; [left|]. auto.
      * intros g Hg. apply Hp. right. exact Hg.
Qed.

(** ** get_status *)

Lemma sum_status_returns (tick : nat) (hs : list (torrent_handle * string)) :
  calls_return ->
  forall up ps, exists totals, sum_status tick hs up ps = Return totals.
Proof.
  intros Hok. induction hs as [|[h name] hs IH]; intros up ps; simpl.
  - eauto.
  - destruct (status_returns Hok tick (ti h) (save_path h)) as [st ->].
    apply IH.
Qed.

Lemma get_status_ok (tick : nat) (w : world) :
  calls_return ->
  handles (self w) <> [] ->
  exists st, get_status tick w = (Return st, w)
             /\ active st = true
             /\ torrents st = Z.of_nat (length (handles (self w))).
Proof.
  intros Hok Hne. unfold get_status. run_m.
  destruct (handles (self w)) as [|h hs] eqn:Hh; [contradiction|].
  destruct (sum_status_returns tick (h :: hs) Hok 0 0) as [totals ->].
  eexists. split; [reflexivity|]. split; reflexivity.
Qed.

(** ** The listing and the metadata files *)

Lemma star_matches_torrent (name : string) :
  star_matches name = true -> star_matches (name +:+ ".torrent") = true.
Proof.
  destruct name as [|a name]; [discriminate|].
  rewrite app_cons. unfold star_matches.
  rewrite <- app_cons, has_char_app. simpl (has_char "/" ".torrent").
  rewrite orb_false_r. auto.
Qed.

(** A listed file whose metadata file is not listed has none on disk. *)
Lemma companion_absent (m : FS) (dir f : string) :
  metadata_files m dir = [] ->
  f ∈ glob_star m dir ->
  m !! (f +:+ ".torrent") = None.
Proof.
  intros Hmeta Hf.
  apply elem_of_glob_star in Hf as (Hdir & _ & name & -> & Hname).
  destruct (m !! (join dir name +:+ ".torrent")) as [node|] eqn:Hlook;
    [exfalso | reflexivity].
  assert (Hin : join dir name +:+ ".torrent" ∈ metadata_files m dir).
  { unfold metadata_files. apply list_elem_of_filter. split.
    - apply endswith_app.
    - apply elem_of_glob_star. split; [exact Hdir|]. split; [eauto|].
      exists (name +:+ ".torrent"). split.
      + apply join_torrent.
      + apply star_matches_torrent, Hname. }
  rewrite Hmeta in Hin. inversion Hin.
Qed.

(** ** A turn of the status loop *)

Lemma seed_tick_returns (status_interval : Z) (tick : nat) (w : world) :
  calls_return ->
  time_sleep tick = None ->
  handles (self w) <> [] ->
  exists st,
    seed_tick status_interval tick w
    = (Return tt,
       {| self := self w; fs := fs w;
          trace := trace w ++ [InfoSeeding st; CallSleep status_interval] |})
    /\ active st = true
    /\ torrents st = Z.of_nat (length (handles (self w))).
Proof.
  intros Hok Hsleep Hne.
  destruct (get_status_ok tick w Hok Hne) as (st & Hst & Hact & Hcount).
  exists st. unfold seed_tick. unfold bind at 1. rewrite Hst.
  run_m. rewrite Hsleep. simpl. rewrite <- List.app_assoc.
  repeat split; assumption.
Qed.

(** ** The session and the set-up failures *)

Lemma calls_return_session_opens : calls_return -> session_opens.
Proof. intros H. split; apply H. Qed.

Lemma session_opens_raises_Exceptions :
  session_opens -> session_raises_Exceptions.
Proof.
  intros H. split; intros.
  - rewrite (opens_new H) in *. discriminate.
  - rewrite (opens_listen H) in *. discriminate.
  - rewrite (opens_settings H) in *. discriminate.
Qed.

Lemma initialize_session_opens (w : world) :
  session_opens ->
  _initialize_session w
  = (Return tt,
     {| self := with_session (self w); fs := fs w;
        trace := trace w ++ [CallSession;
                             CallListenOn (port_min (self w)) (port_max (self w));
                             InfoSessionInitialized (port_min (self w))
                               (port_max (self w))] |}).
Proof.
  intros Hok. unfold _initialize_session. run_m.
  rewrite (opens_new Hok), (opens_listen Hok), (opens_settings Hok).
  simpl. rewrite <- !List.app_assoc. reflexivity.
Qed.

(** [_initialize_session] leaves the disk and the content directory
    alone, and what it raises comes from libtorrent. *)
Lemma initialize_session_frame (w w' : world) (r : result unit) :
  session_raises_Exceptions ->
  _initialize_session w = (r, w') ->
  fs w' = fs w /\ content_dir (self w') = content_dir (self w)
  /\ forall e, r = Raise e -> is_Exception e = true.
Proof.
  intros Hex. unfold _initialize_session. run_m.
  destruct lt_session_new as [e0|] eqn:H0; simpl.
  { intros [= <- <-]. repeat split. intros e [= <-]. eapply raises_new; eauto. }
  destruct (lt_listen_on _ _) as [e1|] eqn:H1; simpl.
  { intros [= <- <-]. repeat split. intros e [= <-]. eapply raises_listen; eauto. }
  destruct (lt_apply_settings _) as [e2|] eqn:H2; simpl.
  { intros [= <- <-]. repeat split. intros e [= <-]. eapply raises_settings; eauto. }
  intros [= <- <-]. repeat split. intros e [=].
Qed.

(** ** seed_open and seed_setup *)

Lemma seed_open_trace (w w' : world) (r : result (list string)) :
  seed_open w = (r, w') ->
  exists rest,
    trace w' = trace w ++ [InfoStarting;
                           InfoContentDirectory (content_dir (self w));
                           InfoTracker (tracker_url (self w));
                           CallSession] ++ rest.
Proof.
  unfold seed_open. run_m. simpl.
  destruct (_initialize_session _) as [[[]|e] w1] eqn:Hinit;
    apply initialize_session_trace in Hinit as [rest Hrest]; simpl in Hrest.
  - rewrite load_content_files_eq. case_bool_decide.
    + destruct (eligible _ _).
      * intros [= <- <-]. rewrite Hrest, <- !List.app_assoc. simpl. eauto.
      * intros [= <- <-]. simpl. rewrite Hrest, <- !List.app_assoc. simpl. eauto.
    + intros [= <- <-]. rewrite Hrest, <- !List.app_assoc. simpl. eauto.
  - intros [= <- <-]. rewrite Hrest, <- !List.app_assoc. simpl. eauto.
Qed.

(** Without the content directory [seed_open] raises, after the call
    that creates the session. *)
Lemma seed_open_missing (w : world) :
  session_raises_Exceptions ->
  fs w !! content_dir (self w) = None ->
  exists e w',
    seed_open w = (Raise e, w') /\ is_Exception e = true
    /\ (session_opens ->
        e = SeedboxError ("Content directory not found: "
                            +:+ content_dir (self w))
        /\ self w' = with_session (self w)).
Proof.
  intros Hex Hnone. unfold seed_open. run_m. simpl.
  destruct (_initialize_session _) as [[[]|e] w1] eqn:Hinit.
  - pose proof (initialize_session_frame _ _ _ Hex Hinit) as (Hfs & Hdir & _).
    simpl in Hfs, Hdir. rewrite load_content_files_eq.
    rewrite bool_decide_eq_false_2
      by (rewrite Hfs, Hdir, Hnone; apply is_Some_None).
    eexists _, _. split; [reflexivity|]. split; [reflexivity|].
    intros Hopen. rewrite (initialize_session_opens _ Hopen) in Hinit.
    injection Hinit as <-. rewrite Hdir. split; reflexivity.
  - pose proof (initialize_session_frame _ _ _ Hex Hinit) as (_ & _ & He).
    eexists _, _. split; [reflexivity|]. split; [apply He; reflexivity|].
    intros Hopen. rewrite (initialize_session_opens _ Hopen) in Hinit.
    discriminate.
Qed.

Lemma seed_setup_open_raises (w w' : world) (e : exn) :
  seed_open w = (Raise e, w') -> seed_setup w = (Raise e, w').
Proof. intros H. unfold seed_setup, bind. rewrite H. reflexivity. Qed.

(** Each declared failure makes the set-up raise [SeedboxError]. *)
Lemma setup_failure_raises (w : world) :
  session_opens -> setup_failure w ->
  exists msg w', seed_setup w = (Raise (SeedboxError msg), w').
Proof.
  intros Hopen [Hnone | Hsome Hel | files w1 w2 Hopen' Hadd Hh].
  - destruct (seed_open_missing w (session_opens_raises_Exceptions Hopen) Hnone)
      as (e & w' & Hrun & _ & Hmsg).
    destruct (Hmsg Hopen) as [-> _].
    eexists _, _. apply seed_setup_open_raises, Hrun.
  - eexists _, _. apply seed_setup_open_raises.
    unfold seed_open. run_m. simpl.
    rewrite (initialize_session_opens _ Hopen). simpl.
    rewrite load_content_files_eq. simpl.
    rewrite bool_decide_eq_true_2 by exact Hsome. rewrite Hel. reflexivity.
  - exists "No torrents loaded", w2.
    unfold seed_setup. unfold bind at 1. rewrite Hopen'.
    unfold bind at 1. rewrite Hadd. run_m. rewrite Hh. reflexivity.
Qed.

(** [seed_leave] on an instance of [Exception]: the error goes to the
    log and [SeedboxError] comes out. *)
Lemma seed_leave_Exception (e : exn) (w : world) :
  is_Exception e = true ->
  exists w', seed_leave e w
             = (Raise (SeedboxError ("Seeding failed: " +:+ exn_str e)), w')
             /\ ErrorSeedbox e ∈ trace w'
             /\ self w' = self w /\ fs w' = fs w
             /\ exists rest, trace w' = trace w ++ rest.
Proof.
  intros Hex. unfold seed_leave, seed_except, seed_finally. run_m.
  assert (Hki : is_KeyboardInterrupt e = false) by (destruct e; auto; discriminate).
  rewrite Hki, Hex. simpl.
  destruct (session (self w)); simpl; eexists; (split; [reflexivity|]); simpl;
    repeat split; eauto; rewrite ?elem_of_app, ?elem_of_cons; auto.
  rewrite <- List.app_assoc. eauto.
Qed.

End WithEnv.

End SeedboxFacts.

(* ===================================================================== *)
(** * The specification of the seeding session *)
(* ===================================================================== *)

Module SeedboxSpec.

Import Path PathFacts Seedbox SeedboxFacts.

Lemma seed_loop_more `{env : Env} (status_interval : Z) (n : nat) :
  forall (m tick : nat) (w w0 : world),
    seed_loop status_interval n tick w = (Seeding (tick + n), w0) ->
    seed_loop status_interval (n + m) tick w
    = seed_loop status_interval m (tick + n) w0.
Proof.
  induction n as [|n IH]; intros m tick w w0; simpl.
  - replace (tick + 0)%nat with tick by lia. intros [= <-]. reflexivity.
  - destruct (seed_tick status_interval tick w) as [[[]|e] w'].
    + intros H. rewrite <- Nat.add_succ_comm in *. apply IH, H.
    + destruct (seed_leave e w'). discriminate.
Qed.

Lemma seed_loop_Seeding `{env : Env} (status_interval : Z) (n : nat) :
  forall (tick k : nat) (w w0 : world),
    seed_loop status_interval n tick w = (Seeding k, w0) -> k = (tick + n)%nat.
Proof.
  induction n as [|n IH]; intros tick k w w0; simpl.
  - intros [= <- _]. lia.
  - destruct (seed_tick status_interval tick w) as [[[]|e] w'].
    + intros H. apply IH in H. lia.
    + destruct (seed_leave e w'). discriminate.
Qed.

(** The exit of [seed_content] once [e] has been raised inside it. *)
Lemma seed_content_leaves `{env : Env} (status_interval : Z) (w w1 : world)
  (e : exn) (fuel : nat) :
  enough status_interval w e w1 fuel ->
  seed_content status_interval fuel w
  = (Finished (seed_leave e w1).1, (seed_leave e w1).2).
Proof.
  intros [Hsetup | (n & w0 & Hlt & Hrun & Htick)]; unfold seed_content in *.
  - rewrite Hsetup. destruct (seed_leave e w1). reflexivity.
  - destruct (seed_setup w) as [[[]|e0] ws].
    + replace fuel with (n + S (fuel - S n))%nat by lia.
      rewrite (seed_loop_more _ _ _ _ _ _ Hrun). simpl.
      rewrite Htick. destruct (seed_leave e w1). reflexivity.
    + destruct (seed_leave e0 ws). discriminate.
Qed.

Lemma seed_leave_result `{env : Env} (e : exn) (w : world) :
  (seed_leave e w).1
  = if is_KeyboardInterrupt e then Return tt
    else if is_Exception e
         then Raise (SeedboxError ("Seeding failed: " +:+ exn_str e))
         else Raise e.
Proof.
  unfold seed_leave, seed_except, seed_finally. run_m.
  destruct (is_KeyboardInterrupt e); simpl.
  - destruct (session (self w)); reflexivity.
  - destruct (is_Exception e); simpl; destruct (session (self w)); reflexivity.
Qed.

(** C7: synthesis of the metadata file is idempotent.  In a world where
    the companion [.torrent] file is on disk, or that a call of
    [_create_torrent] on the same path has just returned, the call
    returns the path of the companion file and leaves the disk and the
    seedbox as they are: nothing is generated or written, the only
    effect is the debug record. *)
Theorem create_torrent_idempotent `{env : Env} (file_path : string) (w : world) :
  is_Some (fs w !! (file_path +:+ ".torrent"))
  \/ (exists w0 t, _create_torrent file_path w0 = (Return t, w)) ->
  exists w', _create_torrent file_path w = (Return (file_path +:+ ".torrent"), w')
             /\ fs w' = fs w /\ self w' = self w
             /\ trace w' = trace w ++ [DebugTorrentExists
                                         (name_of (file_path +:+ ".torrent"))]
             /\ (forall w0 t, _create_torrent file_path w0 = (Return t, w) ->
                              t = file_path +:+ ".torrent").
Proof.
  intros H. exists (reused file_path w).
  assert (Hin : is_Some (fs w !! (file_path +:+ ".torrent"))).
  { destruct H as [Hin | (w0 & t & Hcall)]; [exact Hin|].
    apply create_torrent_returned in Hcall as [-> Hin]. exact Hin. }
  split; [apply create_torrent_present, Hin|].
  repeat split. intros w0 t Hcall.
  apply create_torrent_returned in Hcall. tauto.
Qed.

Lemma create_torrent_idempotent_witness :
  let w1 := (_create_torrent (env := quiet) "content/a.bin" (fresh three_files)).2 in
  exists w', _create_torrent (env := quiet) "content/a.bin" w1
             = (Return "content/a.bin.torrent", w')
             /\ fs w' = fs w1 /\ self w' = self w1
             /\ trace w' = trace w1 ++ [DebugTorrentExists "a.bin.torrent"]
             /\ (forall w0 t,
                    _create_torrent (env := quiet) "content/a.bin" w0 = (Return t, w1) ->
                    t = "content/a.bin.torrent").
Proof.
  intros w1.
  apply (create_torrent_idempotent (env := quiet) "content/a.bin" w1).
  right. exists (fresh three_files), "content/a.bin.torrent".
  vm_compute. reflexivity.
Defined.

(** The set-up on a directory whose listed files have no metadata file
    yet, when every call returns: one metadata file and one registration
    per eligible file. *)
Lemma seed_setup_registers_all `{env : Env} (w : world) :
  calls_return ->
  handles (self w) = [] ->
  eligible (fs w) (content_dir (self w)) <> [] ->
  metadata_files (fs w) (content_dir (self w)) = [] ->
  let files := eligible (fs w) (content_dir (self w)) in
  exists w' ses,
    seed_setup w = (Return tt, w')
    /\ session (self w') = Some ses
    /\ length (registered ses) = length files
    /\ length (handles (self w')) = length files
    /\ size (fs w') = (size (fs w) + length files)%nat
    /\ (forall f, f ∈ files ->
                  exists data, fs w' !! (f +:+ ".torrent") = Some (RegularFile data))
    /\ (forall p, (forall f, f ∈ files -> p <> f +:+ ".torrent") ->
                  fs w' !! p = fs w !! p).
Proof.
  intros Hok Hh Hne Hmeta files.
  assert (Hdir : fs w !! content_dir (self w) = Some Directory).
  { destruct files as [|f fl] eqn:Hf; [contradiction|].
    assert (Hin : f ∈ files) by (rewrite Hf; left).
    apply elem_of_eligible in Hin. tauto. }
  unfold seed_setup, seed_open. run_m. simpl.
  rewrite (initialize_session_ok _ Hok). simpl.
  rewrite load_content_files_eq. simpl.
  rewrite bool_decide_eq_true_2 by (rewrite Hdir; eauto).
  fold files. destruct files as [|f fl] eqn:Hf; [contradiction|].
  rewrite <- Hf.
  match goal with
  | |- context [_add_torrents files ?W] =>
      destruct (add_torrents_ok files W _ Hok eq_refl)
      as (w' & ses' & Hrun & Hs & Hr & Hl & Hsz & Hnew & Hold)
  end.
  { apply NoDup_eligible. }
  { intros g Hg. simpl. apply companion_absent with (dir := content_dir (self w)).
    - exact Hmeta.
    - apply list_elem_of_filter in Hg. tauto. }
  rewrite Hrun. simpl in *. rewrite Hh in Hl. simpl in Hl.
  destruct (handles (self w')) as [|h hs] eqn:Hhs.
  { rewrite Hf in Hl. discriminate. }
  eexists _, ses'. split; [reflexivity|]. simpl. rewrite Hhs.
  repeat split; assumption.
Qed.

(** The metadata that a turn of the [for] writes and registers. *)
Lemma add_one_makes `{env : Env} (f : string) (w : world) (ses : lt_session) :
  calls_return ->
  session (self w) = Some ses ->
  fs w !! (f +:+ ".torrent") = None ->
  exists torrent data info,
    lt_generate (fs w) f (tracker_url (self w)) = Return torrent
    /\ lt_bencode torrent = Return data
    /\ lt_parse data = Return info
    /\ add_one_guarded f w
       = (Return tt,
          {| self :=
               {| content_dir := content_dir (self w);
                  tracker_url := tracker_url (self w);
                  port_min := port_min (self w);
                  port_max := port_max (self w);
                  session :=
                    Some {| listening := listening ses;
                            listen_interfaces := listen_interfaces ses;
                            registered :=
                              registered ses
                              ++ [{| ti := info; save_path := parent_of f |}] |};
                  handles :=
                    handles (self w)
                    ++ [({| ti := info; save_path := parent_of f |},
                         name_of f)] |};
             fs := <[f +:+ ".torrent" := RegularFile data]> (fs w);
             trace := trace w
                      ++ [InfoCreatingTorrent (name_of f);
                          InfoTorrentCreated (name_of (f +:+ ".torrent"));
                          CallAddTorrent (f +:+ ".torrent");
                          InfoAdded (name_of f)] |}).
Proof.
  intros Hok Hses Hnone.
  destruct (generate_returns Hok (fs w) f (tracker_url (self w)))
    as [torrent Hgen].
  destruct (bencode_returns Hok torrent) as [data Hben].
  destruct (parse_returns Hok data) as [info Hpar].
  exists torrent, data, info. do 3 (split; [assumption|]).
  unfold add_one_guarded, add_one, _create_torrent, torrent_info_of,
    add_torrent, append_handle. run_m.
  rewrite bool_decide_eq_false_2 by (rewrite Hnone; apply is_Some_None).
  simpl. rewrite Hgen, (open_returns Hok). simpl. rewrite Hben. simpl.
  rewrite lookup_insert_eq, Hpar. simpl. rewrite Hses.
  rewrite (add_returns Hok). simpl.
  rewrite insert_insert_eq, <- !List.app_assoc. reflexivity.
Qed.

(** What [_add_torrents] has written and registered when every call
    returns: for each file its metadata, generated on a disk that differs
    from [m0] by metadata files of [all] at most. *)
Lemma add_torrents_make `{env : Env} (m0 : FS) (all files : list string) :
  forall (w w' : world) (ses : lt_session),
    calls_return ->
    session (self w) = Some ses ->
    NoDup files ->
    (forall f, f ∈ files -> fs w !! (f +:+ ".torrent") = None) ->
    (forall f, f ∈ files -> f ∈ all) ->
    (forall p, (forall g, g ∈ all -> p <> g +:+ ".torrent") ->
               fs w !! p = m0 !! p) ->
    _add_torrents files w = (Return tt, w') ->
    exists ses',
      session (self w') = Some ses'
      /\ (forall h, h ∈ registered ses -> h ∈ registered ses')
      /\ (forall x, x ∈ handles (self w) -> x ∈ handles (self w'))
      /\ (forall p, (forall g, g ∈ files -> p <> g +:+ ".torrent") ->
                    fs w' !! p = fs w !! p)
      /\ forall f, f ∈ files ->
           exists data info,
             made_from m0 all (tracker_url (self w)) f data info
             /\ fs w' !! (f +:+ ".torrent") = Some (RegularFile data)
             /\ ({| ti := info; save_path := parent_of f |}, name_of f)
                ∈ handles (self w')
             /\ {| ti := info; save_path := parent_of f |} ∈ registered ses'.
Proof.
  induction files as [|f files IH];
    intros w w' ses Hok Hses Hnd Hnone Hall Hagree; simpl.
  - cbv [ret]. intros [= <-]. exists ses. repeat split; auto.
    intros f Hf. inversion Hf.
  - apply NoDup_cons in Hnd as [Hf Hnd].
    destruct (add_one_makes f w ses Hok Hses)
      as (torrent & data & info & Hgen & Hben & Hpar & Hone).
    { apply Hnone. left. }
    match type of Hone with _ = (_, ?X) => set (w1 := X) in Hone end.
    unfold bind at 1. rewrite Hone. intros Hrest.
    assert (Hne : forall g, g ∈ files -> f +:+ ".torrent" <> g +:+ ".torrent").
    { intros g Hg Heq. apply app_inj_r in Heq. subst g. contradiction. }
    destruct (IH w1 w' _ Hok eq_refl Hnd) as (ses' & Hs & Hreg & Hh & Hold & Hnew).
    { intros g Hg. simpl. rewrite lookup_insert_ne by (apply Hne, Hg).
      apply Hnone. right. exact Hg. }
    { intros g Hg. apply Hall. right. exact Hg. }
    { intros p Hp. simpl. rewrite lookup_insert_ne.
      - apply Hagree, Hp.
      - intros <-. apply (Hp f); [apply Hall; left | reflexivity]. }
    { exact Hrest. }
    exists ses'. split; [exact Hs|]. simpl in Hreg, Hh, Hold.
    split; [intros h Hin; apply Hreg; set_solver|].
    split; [intros x Hin; apply Hh; set_solver|].
    split.
    { intros p Hp. rewrite Hold by (intros g Hg; apply Hp; right; exact Hg).
      apply lookup_insert_ne. intros <-. apply (Hp f); [left | reflexivity]. }
    intros g Hg. apply elem_of_cons in Hg as [-> | Hg].
    + exists data, info. split.
      { exists (fs w), torrent. auto. }
      split.
      { rewrite Hold by (intros g Hg; apply Hne, Hg). apply lookup_insert_eq. }
      split; [apply Hh | apply Hreg]; set_solver.
    + apply Hnew, Hg.
Qed.

(** With every call returning and something to seed, a set-up that
    returns has run [_add_torrents] on the eligible files, with the
    session open and the disk as it was. *)
Lemma seed_setup_adds `{env : Env} (w w' : world) :
  calls_return ->
  eligible (fs w) (content_dir (self w)) <> [] ->
  seed_setup w = (Return tt, w') ->
  exists w0 w2,
    self w0 = with_session (self w) /\ fs w0 = fs w
    /\ _add_torrents (eligible (fs w) (content_dir (self w))) w0
       = (Return tt, w2)
    /\ self w' = self w2 /\ fs w' = fs w2.
Proof.
  intros Hok Hne.
  assert (Hdir : fs w !! content_dir (self w) = Some Directory).
  { destruct (eligible _ _) as [|f fl] eqn:Hf; [contradiction|].
    assert (Hin : f ∈ eligible (fs w) (content_dir (self w)))
      by (rewrite Hf; left).
    apply elem_of_eligible in Hin. tauto. }
  unfold seed_setup, seed_open. run_m. simpl.
  rewrite (initialize_session_ok _ Hok). simpl.
  rewrite load_content_files_eq. simpl.
  rewrite bool_decide_eq_true_2 by (rewrite Hdir; eauto).
  destruct (eligible _ _) as [|f fl] eqn:Hf; [contradiction|].
  match goal with
  | |- context [_add_torrents (f :: fl) ?W] =>
      set (w0 := W); destruct (_add_torrents (f :: fl) w0) as [[[]|e] w2] eqn:Hadd
  end; [|discriminate].
  destruct (handles (self w2)); simpl; [discriminate|].
  intros [= <-]. exists w0, w2. auto.
Qed.

(** C8: a content directory, under a path that [glob] takes literally,
    whose listing has exactly three eligible files and no metadata file,
    every call of the set-up and of the registrations returning.  The set-up returns; the disk has exactly
    three more files, the companions of the three files, and is
    otherwise unchanged; each companion holds the bencoded torrent that
    libtorrent generated for its file with the tracker, and the item
    registered for the file, which is also the handle kept for it, is
    what libtorrent parsed from these bytes, saved to the directory of the
    file; the session holds three registered items and the seedbox three
    handles; the first status snapshot has [active = true] and an item
    count of 3. *)
Theorem three_files_scenario `{env : Env} (w : world) (f1 f2 f3 : string) :
  calls_return ->
  plain_dir (content_dir (self w)) = true ->
  handles (self w) = [] ->
  eligible (fs w) (content_dir (self w)) = [f1; f2; f3] ->
  metadata_files (fs w) (content_dir (self w)) = [] ->
  exists w' ses st,
    seed_setup w = (Return tt, w')
    /\ size (fs w') = (size (fs w) + 3)%nat
    /\ (forall f, f ∈ [f1; f2; f3] ->
          fs w !! (f +:+ ".torrent") = None
          /\ exists data info,
               made_from (fs w) [f1; f2; f3] (tracker_url (self w)) f data info
               /\ fs w' !! (f +:+ ".torrent") = Some (RegularFile data)
               /\ ({| ti := info; save_path := parent_of f |}, name_of f)
                  ∈ handles (self w')
               /\ {| ti := info; save_path := parent_of f |} ∈ registered ses)
    /\ (forall p, p ∉ [f1 +:+ ".torrent"; f2 +:+ ".torrent"; f3 +:+ ".torrent"] ->
                  fs w' !! p = fs w !! p)
    /\ session (self w') = Some ses
    /\ length (registered ses) = 3%nat
    /\ length (handles (self w')) = 3%nat
    /\ get_status 0 w' = (Return st, w')
    /\ active st = true
    /\ torrents st = 3.
Proof.
  intros Hok _ Hh Hel Hmeta.
  destruct (seed_setup_registers_all w Hok Hh) as
    (w' & ses & Hrun & Hs & Hr & Hl & Hsz & _ & Hold); try assumption.
  { rewrite Hel. discriminate. }
  destruct (seed_setup_adds w w' Hok) as (w0 & w2 & Hself & Hfs & Hadd & Hs2 & Hf2);
    [rewrite Hel; discriminate | exact Hrun |].
  assert (Habsent : forall f, f ∈ eligible (fs w) (content_dir (self w)) ->
                              fs w !! (f +:+ ".torrent") = None).
  { intros f Hf. apply companion_absent with (dir := content_dir (self w));
      [exact Hmeta|]. apply list_elem_of_filter in Hf. tauto. }
  assert (Hses0 : session (self w0) = session (with_session (self w)))
    by (rewrite Hself; reflexivity).
  destruct (add_torrents_make (fs w) (eligible (fs w) (content_dir (self w)))
              (eligible (fs w) (content_dir (self w))) w0 w2 _ Hok Hses0)
    as (ses2 & Hses2 & _ & _ & _ & Hmade).
  { apply NoDup_eligible. }
  { intros f Hf. rewrite Hfs. apply Habsent, Hf. }
  { auto. }
  { intros p _. rewrite Hfs. reflexivity. }
  { exact Hadd. }
  rewrite Hel in *. simpl in Hr, Hl, Hsz.
  destruct (get_status_ok 0 w' Hok) as (st & Hst & Hact & Hcount).
  { intros Hnil. rewrite Hnil in Hl. discriminate. }
  exists w', ses, st. rewrite Hcount, Hl.
  repeat split; try assumption; try reflexivity.
  - apply Habsent, H.
  - destruct (Hmade f H) as (data & info & Hm & Hdata & Hhandle & Hreg).
    exists data, info. rewrite Hs2, Hf2.
    rewrite Hself in Hm. split; [exact Hm|]. split; [exact Hdata|].
    split; [exact Hhandle|].
    rewrite Hs2, Hses2 in Hs. injection Hs as <-. exact Hreg.
  - intros p Hp. apply Hold. intros f Hf ->. apply Hp.
    rewrite !elem_of_cons in *. rewrite elem_of_nil in *.
    destruct Hf as [->|[->|[->|[]]]]; auto.
Qed.

Lemma quiet_calls_return : calls_return (env := quiet).
Proof. split; simpl; eauto. Qed.

Lemma three_files_scenario_witness :
  exists w' ses st,
    seed_setup (env := quiet) (fresh three_files) = (Return tt, w')
    /\ size (fs w') = (size three_files + 3)%nat
    /\ (forall f, f ∈ ["content/c.bin"; "content/a.bin"; "content/b.bin"] ->
          three_files !! (f +:+ ".torrent") = None
          /\ exists data info,
               made_from (env := quiet) three_files
                 ["content/c.bin"; "content/a.bin"; "content/b.bin"]
                 "udp://tracker" f data info
               /\ fs w' !! (f +:+ ".torrent") = Some (RegularFile data)
               /\ ({| ti := info; save_path := parent_of f |}, name_of f)
                  ∈ handles (self w')
               /\ {| ti := info; save_path := parent_of f |} ∈ registered ses)
    /\ (forall p, p ∉ ["content/c.bin.torrent"; "content/a.bin.torrent";
                       "content/b.bin.torrent"] ->
                  fs w' !! p = three_files !! p)
    /\ session (self w') = Some ses
    /\ length (registered ses) = 3%nat
    /\ length (handles (self w')) = 3%nat
    /\ get_status (env := quiet) 0 w' = (Return st, w')
    /\ active st = true
    /\ torrents st = 3.
Proof.
  apply (three_files_scenario (env := quiet) (fresh three_files)
           "content/c.bin" "content/a.bin" "content/b.bin").
  - exact quiet_calls_return.
  - reflexivity.
  - reflexivity.
  - vm_compute. reflexivity.
  - vm_compute. reflexivity.
Defined.

(** C9 (amended): no path that ends in [.torrent], so no synthesized
    metadata file, is ever selected for seeding.  And for a content
    directory whose path [glob] takes literally, the files selected are
    exactly the entries of the directory that the pattern [*] lists, that
    is the top-level entries whose name does not start with a dot, and
    whose name does not end in [.torrent]. *)
Theorem load_content_files_selects `{env : Env} (w : world) (p : string) :
  ~ (exists files w', _load_content_files w = (Return files, w')
                      /\ p +:+ ".torrent" ∈ files)
  /\ (plain_dir (content_dir (self w)) = true ->
      ((exists files w', _load_content_files w = (Return files, w')
                         /\ p ∈ files)
       <-> (fs w !! content_dir (self w) = Some Directory
            /\ exists name, p = join (content_dir (self w)) name
                            /\ is_Some (fs w !! p)
                            /\ star_matches name = true
                            /\ endswith name ".torrent" = false))).
Proof.
  split; [|intros _; split].
  - intros (files & w' & Hrun & Hp).
    apply load_content_files_returns in Hrun as (-> & _).
    apply list_elem_of_filter in Hp as [Hend _].
    rewrite endswith_app in Hend. discriminate.
  - intros (files & w' & Hrun & Hp).
    apply load_content_files_returns in Hrun as (-> & _).
    apply elem_of_eligible, Hp.
  - intros H. pose proof H as [Hdir _]. apply elem_of_eligible in H.
    rewrite load_content_files_eq.
    rewrite bool_decide_eq_true_2 by (rewrite Hdir; eauto).
    destruct (eligible _ _) as [|f fl]; [inversion H|]. eauto.
Qed.

(** In a directory with one file, its metadata file and a dotfile, the
    file is selected. *)
Lemma load_content_files_selects_witness :
  let w := fresh (env := quiet) with_dotfile in
  let p := "content/a.bin" in
  ~ (exists files w', _load_content_files w = (Return files, w')
                      /\ p +:+ ".torrent" ∈ files)
  /\ ((exists files w', _load_content_files w = (Return files, w')
                        /\ p ∈ files)
      <-> (fs w !! content_dir (self w) = Some Directory
           /\ exists name, p = join (content_dir (self w)) name
                           /\ is_Some (fs w !! p)
                           /\ star_matches name = true
                           /\ endswith name ".torrent" = false)).
Proof.
  intros w p.
  destruct (load_content_files_selects (env := quiet) w p) as [Hnever Hiff].
  split; [exact Hnever | apply Hiff; reflexivity].
Defined.

(** C9 as stated fails on a directory with a dotfile: [.env] is a
    top-level entry whose name does not end in [.torrent], and it is not
    selected, because [glob] does not list it. *)
Lemma dotfile_is_not_selected :
  exists files w',
    _load_content_files (env := quiet) (fresh with_dotfile) = (Return files, w')
    /\ ~ (forall p, p ∈ files <-> top_level_non_torrent with_dotfile "content" p).
Proof.
  exists ["content/a.bin"]. eexists. split; [vm_compute; reflexivity|].
  intros Hclaim.
  assert (Hin : "content/.env" ∈ ["content/a.bin"]).
  { apply Hclaim. exists ".env". repeat split; try discriminate.
    vm_compute. eauto. }
  apply elem_of_cons in Hin as [Heq|Hin]; [discriminate | inversion Hin].
Qed.

(** No instance of [Exception] leaves a turn of the [for] of
    [_add_torrents]: it is logged, and the turn returns. *)
Lemma add_one_guarded_catches `{env : Env} (f : string) (w : world) :
  (forall e, (add_one_guarded f w).1 = Raise e -> is_Exception e = false)
  /\ (forall e, (add_one f w).1 = Raise e -> is_Exception e = true ->
        add_one_guarded f w
        = (Return tt,
           {| self := self (add_one f w).2; fs := fs (add_one f w).2;
              trace := trace (add_one f w).2
                       ++ [ErrorFailedToAdd (name_of f) e] |})).
Proof.
  unfold add_one_guarded, try_except.
  destruct (add_one f w) as [[[]|e0] w1]; simpl.
  - split; intros e [=].
  - destruct (is_Exception e0) eqn:Hex; simpl.
    + split; [intros e [=]|]. intros e [= <-] _. reflexivity.
    + split; [intros e [= <-]; exact Hex|]. intros e [= <-]. congruence.
Qed.

Lemma add_torrents_raises_no_Exception `{env : Env} (files : list string) :
  forall (w : world) (e : exn),
    (_add_torrents files w).1 = Raise e -> is_Exception e = false.
Proof.
  induction files as [|f files IH]; intros w e; simpl; [intros [=]|].
  unfold bind at 1.
  pose proof (proj1 (add_one_guarded_catches f w)) as Hone.
  destruct (add_one_guarded f w) as [[[]|e0] w1]; simpl in *.
  - apply IH.
  - intros [= <-]. apply Hone. reflexivity.
Qed.

(** C10 (amended): an exception that leaves the set-up of
    [seed_content] or a turn of its status loop ends the call, given the
    fuel to get there.  A [KeyboardInterrupt] is swallowed: the call logs
    it and returns.  An instance of [Exception] is logged and re-raised as
    [SeedboxError] with the message [Seeding failed: ...].  Any other
    [BaseException] ([SystemExit], [CancelledError]) is neither caught
    nor wrapped: it propagates as it is.  An instance of [Exception]
    raised while one file is being added does not get that far:
    [_add_torrents] logs it, skips the file and goes on, so it raises no
    instance of [Exception] itself. *)
Theorem seed_content_exception_policy `{env : Env} (status_interval : Z)
  (w w1 : world) (e : exn) (fuel : nat) :
  enough status_interval w e w1 fuel ->
  (exists r w2,
      seed_content status_interval fuel w = (Finished r, w2)
      /\ (e = KeyboardInterrupt -> r = Return tt /\ InfoInterrupted ∈ trace w2)
      /\ (is_Exception e = true ->
          r = Raise (SeedboxError ("Seeding failed: " +:+ exn_str e))
          /\ ErrorSeedbox e ∈ trace w2)
      /\ (is_Exception e = false -> e <> KeyboardInterrupt -> r = Raise e))
  /\ (forall f w0 e0,
         (add_one f w0).1 = Raise e0 -> is_Exception e0 = true ->
         exists w3, add_one_guarded f w0 = (Return tt, w3)
                    /\ ErrorFailedToAdd (name_of f) e0 ∈ trace w3)
  /\ (forall files w0 e0,
         (_add_torrents files w0).1 = Raise e0 -> is_Exception e0 = false).
Proof.
  intros Hen. split; [|split].
  - rewrite (seed_content_leaves _ _ _ _ _ Hen).
    eexists _, _. split; [reflexivity|]. rewrite seed_leave_result.
    split; [|split].
    + intros ->. split; [reflexivity|].
      unfold seed_leave, seed_except, seed_finally. run_m. simpl.
      destruct (session (self w1)); simpl; set_solver.
    + intros Hex. destruct e; try discriminate; simpl; (split; [reflexivity|]);
        unfold seed_leave, seed_except, seed_finally; run_m; simpl;
        destruct (session (self w1)); simpl; set_solver.
    + intros Hex Hki. destruct e; try discriminate; try reflexivity.
      contradiction.
  - intros f w0 e0 Hraise Hex.
    rewrite (proj2 (add_one_guarded_catches f w0) e0 Hraise Hex).
    eexists. split; [reflexivity|]. simpl. set_solver.
  - intros files w0 e0. apply add_torrents_raises_no_Exception.
Qed.

Lemma seed_content_exception_policy_witness :
  let e := KeyboardInterrupt in
  (exists r w2,
      seed_content (env := interrupted_by e) 5 1 (fresh three_files)
      = (Finished r, w2)
      /\ (e = KeyboardInterrupt -> r = Return tt /\ InfoInterrupted ∈ trace w2)
      /\ (is_Exception e = true ->
          r = Raise (SeedboxError ("Seeding failed: " +:+ exn_str e))
          /\ ErrorSeedbox e ∈ trace w2)
      /\ (is_Exception e = false -> e <> KeyboardInterrupt -> r = Raise e))
  /\ (forall f w0 e0,
         (add_one (env := interrupted_by e) f w0).1 = Raise e0 ->
         is_Exception e0 = true ->
         exists w3, add_one_guarded f w0 = (Return tt, w3)
                    /\ ErrorFailedToAdd (name_of f) e0 ∈ trace w3)
  /\ (forall files w0 e0,
         (_add_torrents (env := interrupted_by e) files w0).1 = Raise e0 ->
         is_Exception e0 = false).
Proof.
  intros e.
  pose (w0 := (seed_setup (env := interrupted_by e) (fresh three_files)).2).
  pose (w1 := (seed_tick (env := interrupted_by e) 5 0 w0).2).
  apply (seed_content_exception_policy (env := interrupted_by e)
           5 (fresh three_files) w1 e 1).
  right. exists O, w0. split; [lia|]. split; vm_compute; reflexivity.
Defined.

(** C10 as stated fails twice.  A [SystemExit] raised inside the status
    loop leaves [seed_content] as it is, not wrapped in [SeedboxError].
    And an instance of [Exception] raised while a file is being added is
    not re-raised at all: the failure is logged, and [seed_content] goes
    on to seed the other two files. *)
Lemma system_exit_is_not_wrapped :
  (exists w2,
      seed_content (env := interrupted_by (SystemExit 3)) 5 1 (fresh three_files)
      = (Finished (Raise (SystemExit 3)), w2)
      /\ SystemExit 3 <> KeyboardInterrupt
      /\ forall msg, SystemExit 3 <> SeedboxError msg)
  /\ let e := OtherException "RuntimeError" "Permission denied" in
     exists w2 w3,
       (add_one (env := unreadable "content/b.bin" e) "content/b.bin" w2).1
       = Raise e
       /\ seed_content (env := unreadable "content/b.bin" e) 5 1
            (fresh three_files)
          = (Seeding 1, w3)
       /\ ErrorFailedToAdd "b.bin" e ∈ trace w3
       /\ length (handles (self w3)) = 2%nat.
Proof.
  split.
  - eexists. split; [vm_compute; reflexivity|]. split; intros; discriminate.
  - intros e. exists (fresh three_files). eexists.
    split; [vm_compute; reflexivity|].
    split; [vm_compute; reflexivity|].
    split; [|vm_compute; reflexivity].
    simpl. rewrite !elem_of_cons, ?elem_of_app. vm_compute. tauto.
Qed.

End SeedboxSpec.

(* ===================================================================== *)
(** * Facts about main.py *)
(* ===================================================================== *)

Module OrchestratorFacts.

Import SeedboxFacts Orchestrator.

(** Unfolds a move of the system down to the record updates. *)
Ltac unfold_step :=
  unfold step, _handle_shutdown, check_for_updates, heartbeat, run_seedbox,
    worker_step, run, um_head, um_sleep, um_except, hb_head, sb_resume,
    finish_worker, cancel_um, cancel_hb, cancel_sb, cancelled_um,
    cancelled_hb, cancelled_sb, deliver, main,
    idle, inside, exited, all_done, um_done, hb_done, sb_done,
    worker_stopped in *.

(** Splits on every test of the move. *)
Ltac split_step :=
  repeat match goal with
    | |- context [match ?x with _ => _ end] =>
        lazymatch x with
        | context [match _ with _ => _ end] => fail
        | _ => destruct x eqn:?; simpl in *
        end
    | |- context [match ?x with _ => _ end] => destruct x eqn:?; simpl in *
    end.

(** Splits on the tests left in the hypotheses. *)
Ltac break_hyps :=
  repeat match goal with
    | H : context [match ?x with _ => _ end] |- _ =>
        destruct x eqn:?; simpl in *; try discriminate
    end.

Ltac step_cases := unfold_step; split_step.

(** Closes a case of a move: uses the tests that were taken. *)
Ltac settle :=
  repeat match goal with
    | H : ?x = _, H' : context [match ?x with _ => _ end] |- _ =>
        rewrite H in H'; simpl in H'
    | H : match ?p with _ => _ end = (_, _) |- _ =>
        destruct p; simpl in H
    | H : (_, _) = (_, _) |- _ => injection H as <- <-
    | H : (_ <=? _)%nat = true |- _ => apply Nat.leb_le in H
    | H : (_ <=? _)%nat = false |- _ => apply Nat.leb_gt in H
    end;
  simpl; try congruence; auto with lia.

Section WithConfig.

Context `{env : Seedbox.Env} (Config : Config).

Implicit Types (s : state) (i : input) (ins : list input).

Lemma exec_app ins1 ins2 s :
  exec Config (ins1 ++ ins2) s = exec Config ins2 (exec Config ins1 s).
Proof. unfold exec. apply fold_left_app. Qed.

Lemma exec_cons i ins s :
  exec Config (i :: ins) s = exec Config ins (step Config i s).
Proof. reflexivity. Qed.

Lemma count_app f (l1 l2 : list event) :
  count f (l1 ++ l2) = (count f l1 + count f l2)%nat.
Proof. induction l1 as [|ev l1 IH]; simpl; [reflexivity|]. rewrite IH. lia. Qed.

(** A property that every move keeps holds along every execution. *)
Lemma exec_invariant (P : state -> Prop) :
  (forall i s, P s -> P (step Config i s)) ->
  forall ins s, P s -> P (exec Config ins s).
Proof.
  intros Hstep ins. induction ins as [|i ins IH]; intros s Hs; [exact Hs|].
  rewrite exec_cons. apply IH, Hstep, Hs.
Qed.

(** ** What no move undoes *)

Lemma step_exited i s : exited s = true -> step Config i s = s.
Proof. unfold step. intros ->. reflexivity. Qed.

Lemma running_stays_false i s :
  running s = false -> running (step Config i s) = false.
Proof. intros H. step_cases; settle. Qed.

Lemma clock_grows i s : (clock s <= clock (step Config i s))%nat.
Proof. step_cases; settle. Qed.

Lemma gathered_stays i s e :
  gathered s = Some e -> gathered (step Config i s) = Some e.
Proof. intros H. step_cases; settle. Qed.

Lemma um_stays_done i s r :
  um s = UM_Done r -> um (step Config i s) = UM_Done r.
Proof. intros H. step_cases; settle. Qed.

(** ** Counting polls and heartbeats *)

Lemma polls_grow i s :
  (count is_poll (log s) <= count is_poll (log (step Config i s)))%nat.
Proof. step_cases; rewrite ?count_app; simpl; settle. Qed.

(** With the flag down, the only poll still to come is that of the
    turn the coroutine is inside. *)
Lemma polls_bounded i s :
  running s = false ->
  (count is_poll (log (step Config i s)) + polls_left (step Config i s)
   <= count is_poll (log s) + polls_left s)%nat.
Proof.
  intros H. unfold polls_left.
  step_cases; rewrite ?count_app; simpl; settle.
Qed.

Lemma beats_grow i s :
  (count is_heartbeat (log s)
   <= count is_heartbeat (log (step Config i s)))%nat.
Proof. step_cases; rewrite ?count_app; simpl; settle. Qed.

Lemma beats_bounded i s :
  running s = false ->
  (count is_heartbeat (log (step Config i s)) + beats_left (step Config i s)
   <= count is_heartbeat (log s) + beats_left s)%nat.
Proof.
  intros H. unfold beats_left.
  step_cases; rewrite ?count_app; simpl; settle.
Qed.

Lemma exec_running_false ins s :
  running s = false -> running (exec Config ins s) = false.
Proof.
  apply (exec_invariant (fun s => running s = false)).
  intros i s0. apply running_stays_false.
Qed.

Lemma exec_polls_grow ins s :
  (count is_poll (log s) <= count is_poll (log (exec Config ins s)))%nat.
Proof.
  revert s. induction ins as [|i ins IH]; intros s; [reflexivity|].
  rewrite exec_cons. etrans; [apply (polls_grow i)|apply IH].
Qed.

Lemma exec_beats_grow ins s :
  (count is_heartbeat (log s)
   <= count is_heartbeat (log (exec Config ins s)))%nat.
Proof.
  revert s. induction ins as [|i ins IH]; intros s; [reflexivity|].
  rewrite exec_cons. etrans; [apply (beats_grow i)|apply IH].
Qed.

Lemma exec_polls_bounded ins s :
  running s = false ->
  (count is_poll (log (exec Config ins s)) + polls_left (exec Config ins s)
   <= count is_poll (log s) + polls_left s)%nat.
Proof.
  revert s. induction ins as [|i ins IH]; intros s Hr; [reflexivity|].
  rewrite exec_cons. etrans; [apply IH, running_stays_false, Hr|].
  apply polls_bounded, Hr.
Qed.

Lemma exec_beats_bounded ins s :
  running s = false ->
  (count is_heartbeat (log (exec Config ins s))
   + beats_left (exec Config ins s)
   <= count is_heartbeat (log s) + beats_left s)%nat.
Proof.
  revert s. induction ins as [|i ins IH]; intros s Hr; [reflexivity|].
  rewrite exec_cons. etrans; [apply IH, running_stays_false, Hr|].
  apply beats_bounded, Hr.
Qed.




(** ** The first gather *)

Lemma hb_stays_done i s r :
  hb s = HB_Done r -> hb (step Config i s) = HB_Done r.
Proof. intros H. step_cases; settle. Qed.

Lemma sb_stays_done i s r :
  sb s = SB_Done r -> sb (step Config i s) = SB_Done r.
Proof. intros H. step_cases; settle. Qed.

Lemma all_done_stays i s : all_done s = true -> all_done (step Config i s) = true.
Proof.
  unfold all_done, um_done, hb_done, sb_done.
  destruct (um s) eqn:Hu; try discriminate.
  destruct (hb s) eqn:Hh; try discriminate.
  destruct (sb s) eqn:Hs; try discriminate. intros _.
  rewrite (um_stays_done i s _ Hu), (hb_stays_done i s _ Hh),
    (sb_stays_done i s _ Hs). reflexivity.
Qed.

Lemma gather_open_step i s : gather_open s -> gather_open (step Config i s).
Proof.
  unfold gather_open.
  intros [Hg | [Hg | Hd]].
  - step_cases; settle;
      first [ left; congruence
            | right; left; simpl; congruence
            | right; right; simpl; settle ].
  - right. left. destruct (gathered s) as [e|] eqn:He; [|contradiction].
    rewrite (gathered_stays i s e He). discriminate.
  - right. right. apply all_done_stays, Hd.
Qed.
Lemma exec_gather_open ins s : gather_open s -> gather_open (exec Config ins s).
Proof. apply (exec_invariant gather_open). apply gather_open_step. Qed.

Lemma exec_clock_grows ins s : (clock s <= clock (exec Config ins s))%nat.
Proof.
  revert s. induction ins as [|i ins IH]; intros s; [reflexivity|].
  rewrite exec_cons. etrans; [apply (clock_grows i)|apply IH].
Qed.

(** ** A heartbeat asleep holds the supervisor *)

Lemma asleep_until_step wake i s :
  asleep_until wake s -> asleep_until wake (step Config i s).
Proof.
  unfold asleep_until. intros Hs Hc Hg.
  assert (Hc0 : (clock s < wake)%nat).
  { pose proof (clock_grows i s). lia. }
  assert (Hg0 : gathered s = None).
  { destruct (gathered s) as [e|] eqn:He; [|reflexivity].
    rewrite (gathered_stays i s e He) in Hg. discriminate. }
  destruct (Hs Hc0 Hg0) as [Hh Hsup]. clear Hs.
  revert Hc Hg. step_cases; intros; simplify_eq/=;
    try (split; congruence); settle.
Qed.

Lemma exec_asleep_until wake ins s :
  asleep_until wake s -> asleep_until wake (exec Config ins s).
Proof.
  apply (exec_invariant (asleep_until wake)).
  intros i s0. apply asleep_until_step.
Qed.

(** ** When no task can raise any more *)

Lemma settled_step i s : settled s -> settled (step Config i s).
Proof.
  unfold settled, polls_left. intros (Hr & Hp & Hu & Hs & Hg).
  step_cases; break_hyps; settle; repeat split; settle.
Qed.

Lemma exec_settled ins s : settled s -> settled (exec Config ins s).
Proof. apply (exec_invariant settled). apply settled_step. Qed.

(** ** A restart on its way out *)

Lemma restart_in_progress_step i s :
  restart_in_progress Config s -> restart_in_progress Config (step Config i s).
Proof.
  unfold restart_in_progress, cancellations_logged. intros [Hg Hs].
  split; [apply gathered_stays, Hg|].
  revert Hs. step_cases; intros; break_hyps; destruct_and?; simplify_eq/=;
    rewrite ?elem_of_app, ?elem_of_cons; settle; try tauto.
Qed.

Lemma exec_restart_in_progress ins s :
  restart_in_progress Config s -> restart_in_progress Config (exec Config ins s).
Proof.
  apply (exec_invariant (restart_in_progress Config)).
  apply restart_in_progress_step.
Qed.

(** ** The update monitor once it is over *)

Lemma no_poll_once_done i s r :
  um s = UM_Done r ->
  count is_poll (log (step Config i s)) = count is_poll (log s).
Proof. intros H. step_cases; rewrite ?count_app; simpl; settle. Qed.

Lemma exec_no_poll_once_done ins s r :
  um s = UM_Done r ->
  count is_poll (log (exec Config ins s)) = count is_poll (log s).
Proof.
  revert s. induction ins as [|i ins IH]; intros s H; [reflexivity|].
  rewrite exec_cons, (IH _ (um_stays_done i s r H)).
  apply no_poll_once_done with r, H.
Qed.


(** ** Time passing *)


(** ** The moves of a turn of the update monitor *)





Lemma step_pull_returns b s :
  exited s = false -> um s = UM_Pull -> cur s = Some TUpdate ->
  step Config (Update (Return b)) s
  = deliver (Raise (SystemExit (EXIT_RESTART Config)))
      (set_cur None
         (set_um (UM_Done (Raise (SystemExit (EXIT_RESTART Config))))
            (emit [InfoUpdatesPulled; CallSysExit (EXIT_RESTART Config)]
               (emit [CallPullUpdates] s)))).
Proof.
  intros Hex Hum Hcur. unfold step, check_for_updates, um_except, inside.
  rewrite Hex, Hum, Hcur.
  rewrite bool_decide_eq_true_2 by reflexivity. reflexivity.
Qed.

(** ** A failing turn of the update monitor *)



(** ** A healthy seeding session never ends *)

Lemma seeding_step i s :
  Seedbox.calls_return ->
  (forall tick, Seedbox.time_sleep tick = None) ->
  seeding s -> seeding (step Config i s).
Proof.
  intros Hok Hsleep ([tick Hw] & Hh & Hex & Hsb).
  destruct i.
  7: { unfold seeding. revert Hex. step_cases; intros; simplify_eq/=; settle;
         repeat split; eauto; settle;
         rewrite andb_false_r in *; discriminate. }
  6: { unfold step, worker_step. rewrite Hex, Hw.
       destruct (SeedboxFacts.seed_tick_returns
                   (SEEDBOX_STATUS_INTERVAL Config) tick (seed s)
                   Hok (Hsleep tick) Hh) as (st & -> & _).
       unfold seeding. simpl. repeat split; eauto. }
  all: unfold seeding; revert Hex; step_cases; intros; simplify_eq/=;
    repeat split; eauto; settle.
Qed.

Lemma exec_seeding ins s :
  Seedbox.calls_return -> (forall tick, Seedbox.time_sleep tick = None) ->
  seeding s -> seeding (exec Config ins s).
Proof.
  intros Hok Hsleep. apply (exec_invariant seeding).
  intros i s0. apply seeding_step; assumption.
Qed.

Lemma exec_um_stays_done ins s r :
  um s = UM_Done r -> um (exec Config ins s) = UM_Done r.
Proof.
  apply (exec_invariant (fun s => um s = UM_Done r)).
  intros i s0. apply um_stays_done.
Qed.



(** ** The executor thread and the bridge at a failed set-up *)

Lemma worker_setup_raises e w1 s :
  exited s = false -> worker s = W_Setup ->
  Seedbox.seed_setup (seed s) = (Raise e, w1) ->
  is_Exception e = true ->
  exists w2,
    step Config Worker s
    = set_worker
        (W_Finished (Raise (SeedboxError ("Seeding failed: " +:+ exn_str e))))
        w2 s
    /\ Seedbox.ErrorSeedbox e ∈ Seedbox.trace w2
    /\ Seedbox.self w2 = Seedbox.self w1
    /\ exists rest, Seedbox.trace w2 = Seedbox.trace w1 ++ rest.
Proof.
  intros Hex Hw Hset Hexc.
  destruct (seed_leave_Exception e w1 Hexc) as (w2 & Hleave & Hin & Hself & _ & Hrest).
  exists w2. unfold step, worker_step, finish_worker.
  rewrite Hex, Hw, Hset, Hleave. auto.
Qed.

Lemma bridge_logs_SeedboxError msg s :
  exited s = false -> cur s = None -> sb s = SB_Awaiting ->
  worker s = W_Finished (Raise (SeedboxError msg)) ->
  step Config Bridge s
  = set_sb (SB_Done (Return tt))
      (emit [ErrorSeedboxFailed (SeedboxError msg)] s).
Proof.
  intros Hex Hcur Hsb Hw. unfold step, run_seedbox, idle, sb_resume, deliver.
  rewrite Hex, Hsb, Hcur, Hw. reflexivity.
Qed.

(** ** The moves of the supervisor *)

Lemma run_from_gather_raised s e :
  cur s = None -> sup s = R_Gather -> gathered s = Some e ->
  is_CancelledError e = false ->
  step Config Run s = set_cur (Some TRun) (set_sup (R_Finally (Some e)) s).
Proof.
  intros Hcur Hsup Hg Hc. unfold step, exited, run, idle.
  rewrite Hsup, Hcur, Hg, Hc. reflexivity.
Qed.

Lemma run_from_finally s p :
  sup s = R_Finally p -> cur s = Some TRun ->
  step Config Run s
  = set_cur None
      (set_sup (R_AwaitCancelled p)
         (emit [CallGatherCancelled] (cancel_sb (cancel_hb (cancel_um s))))).
Proof.
  intros Hsup Hcur. unfold step, exited, run, inside.
  rewrite Hsup, Hcur, bool_decide_eq_true_2 by reflexivity. reflexivity.
Qed.

Lemma run_from_await s p :
  sup s = R_AwaitCancelled p -> cur s = None ->
  step Config Run s
  = set_cur (Some TRun)
      (set_sup (R_Shutdown p) (emit [CallExecutorShutdown] s)).
Proof.
  intros Hsup Hcur. unfold step, exited, run, idle.
  rewrite Hsup, Hcur. reflexivity.
Qed.

Lemma run_from_shutdown s p :
  sup s = R_Shutdown p -> cur s = Some TRun ->
  step Config Run s
  = if worker_stopped s
    then set_cur None
           (set_sup (R_Exited (main Config p).2) (emit (main Config p).1 s))
    else s.
Proof.
  intros Hsup Hcur. unfold step, exited, run, inside.
  rewrite Hsup, Hcur, bool_decide_eq_true_2 by reflexivity.
  destruct (worker_stopped s); [|reflexivity].
  destruct (main Config p). reflexivity.
Qed.

(** The four moves of the supervisor once [gather] has delivered [e]:
    through the [finally] to the exit, if the executor thread has
    stopped. *)
Lemma raised_runs_to_exit s e :
  cur s = None -> sup s = R_Gather -> gathered s = Some e ->
  is_CancelledError e = false -> worker_stopped s = true ->
  sup (exec Config [Run; Run; Run; Run] s) = R_Exited (main Config (Some e)).2.
Proof.
  intros Hcur Hsup Hg Hc Hw.
  unfold exec. cbn [fold_left].
  rewrite (run_from_gather_raised s e Hcur Hsup Hg Hc).
  set (s1 := set_cur (Some TRun) _).
  rewrite (run_from_finally s1 (Some e) eq_refl eq_refl).
  set (s2 := set_cur None _).
  rewrite (run_from_await s2 (Some e) eq_refl eq_refl).
  set (s3 := set_cur (Some TRun) _).
  rewrite (run_from_shutdown s3 (Some e) eq_refl eq_refl).
  assert (Hwk : worker_stopped s3 = worker_stopped s) by reflexivity.
  rewrite Hwk, Hw. reflexivity.
Qed.

End WithConfig.

End OrchestratorFacts.

(* ===================================================================== *)
(** * The specification of the orchestrator *)
(* ===================================================================== *)

Module OrchestratorSpec.

Import SeedboxFacts Orchestrator OrchestratorFacts.

(** C1 (amended): the update monitor is about to call [pull_updates],
    the supervisor is in its wait and no task has raised.  When the call
    returns, the coroutine logs the restart, calls [sys.exit] and ends
    with [SystemExit(EXIT_RESTART)], and in every continuation no further
    [has_updates] call is made.  When the executor thread is not
    running, the next four moves of the supervisor end the process with
    status [EXIT_RESTART].  The exit is not direct: whenever the process
    has exited, its status is [EXIT_RESTART], and by then the [finally]
    of [run] has cancelled the three tasks, awaited them and called
    [executor.shutdown(wait=True)], and the executor thread has
    stopped. *)
Theorem restart_after_pull `{env : Seedbox.Env} (Config : Config)
  (s : state) (b : bool) (ins : list input) :
  exited s = false -> um s = UM_Pull -> cur s = Some TUpdate ->
  sup s = R_Gather -> gathered s = None ->
  let s1 := step Config (Update (Return b)) s in
  let s' := exec Config ins s1 in
  um s' = UM_Done (Raise (SystemExit (EXIT_RESTART Config)))
  /\ InfoUpdatesPulled ∈ log s1
  /\ CallSysExit (EXIT_RESTART Config) ∈ log s1
  /\ count is_poll (log s') = count is_poll (log s)
  /\ (worker_stopped s = true ->
      sup (exec Config [Run; Run; Run; Run] s1)
      = R_Exited (EXIT_RESTART Config))
  /\ forall code,
      sup s' = R_Exited code ->
      code = EXIT_RESTART Config
      /\ cancellations_logged s'
      /\ CallExecutorShutdown ∈ log s'
      /\ worker_stopped s' = true.
Proof.
  intros Hex Hum Hcur Hsup Hg s1 s'.
  assert (Hs1 : s1 = set_gathered (Some (SystemExit (EXIT_RESTART Config)))
                       (set_cur None
                          (set_um (UM_Done (Raise (SystemExit (EXIT_RESTART Config))))
                             (emit [InfoUpdatesPulled;
                                    CallSysExit (EXIT_RESTART Config)]
                                (emit [CallPullUpdates] s))))).
  { unfold s1. rewrite step_pull_returns by assumption.
    unfold deliver. simpl. rewrite Hg, Hsup. reflexivity. }
  assert (Hum1 : um s1 = UM_Done (Raise (SystemExit (EXIT_RESTART Config))))
    by (rewrite Hs1; reflexivity).
  assert (Hinv : restart_in_progress Config s1).
  { rewrite Hs1. split; [reflexivity|]. simpl. rewrite Hsup. exact I. }
  split; [apply exec_um_stays_done, Hum1|].
  split; [rewrite Hs1; simpl; rewrite !elem_of_app, !elem_of_cons; auto|].
  split; [rewrite Hs1; simpl; rewrite !elem_of_app, !elem_of_cons; auto|].
  split.
  { unfold s'. rewrite (exec_no_poll_once_done _ _ _ _ Hum1).
    rewrite Hs1. simpl. rewrite !count_app. simpl. lia. }
  split.
  - intros Hw.
    rewrite (raised_runs_to_exit Config s1 (SystemExit (EXIT_RESTART Config)));
      rewrite ?Hs1; try reflexivity; assumption.
  - intros code Hcode.
    destruct (exec_restart_in_progress Config ins s1 Hinv) as [_ Hsup'].
    fold s' in Hsup'. rewrite Hcode in Hsup'. exact Hsup'.
Qed.

(** C3 (amended): a signal arrives while the heartbeat is asleep until
    [wake].  The flag goes down and stays down, and no further heartbeat
    is emitted in any continuation.  The supervisor does not proceed to
    shutdown on the signal: as long as the clock has not reached [wake]
    and no task has raised, it is still in its wait and the heartbeat is
    still asleep. *)
Theorem signal_during_heartbeat_sleep `{env : Seedbox.Env} (Config : Config)
  (s : state) (wake : nat) (signum : Z) (ins : list input) :
  exited s = false -> hb s = HB_Sleeping wake -> (clock s < wake)%nat ->
  let s1 := step Config (Signal signum) s in
  let s' := exec Config ins s1 in
  running s1 = false /\ running s' = false
  /\ count is_heartbeat (log s') = count is_heartbeat (log s)
  /\ (sup s = R_Gather -> (clock s' < wake)%nat -> gathered s' = None ->
      sup s' = R_Gather /\ hb s' = HB_Sleeping wake).
Proof.
  intros Hex Hhb Hclk s1 s'.
  assert (Hs1 : s1 = set_running false (emit [InfoSignal signum] s)).
  { unfold s1, step, _handle_shutdown. rewrite Hex. reflexivity. }
  assert (Hr1 : running s1 = false) by (rewrite Hs1; reflexivity).
  split; [exact Hr1|]. split; [apply exec_running_false, Hr1|]. split.
  - pose proof (exec_beats_bounded Config ins s1 Hr1) as Hub.
    pose proof (exec_beats_grow Config ins s1) as Hlb. fold s' in Hub, Hlb.
    assert (Hb1 : count is_heartbeat (log s1) = count is_heartbeat (log s)).
    { rewrite Hs1. simpl. rewrite count_app. simpl. lia. }
    assert (Hl1 : beats_left s1 = O).
    { unfold beats_left. rewrite Hs1. simpl. rewrite Hhb. reflexivity. }
    lia.
  - intros Hsup Hc Hg.
    assert (Hinv : asleep_until wake s1).
    { intros _ _. rewrite Hs1. simpl. auto. }
    destruct (exec_asleep_until Config wake ins s1 Hinv Hc Hg). auto.
Qed.


(** C5 (amended): once the flag is down it stays down, and the two
    cooperative loops begin no new turn: in every continuation the update
    monitor makes no [has_updates] call and the heartbeat emits nothing,
    apart from the one call or record of a turn whose test of the flag
    had passed before the flag went down.  In particular a coroutine that
    was asleep at that moment does nothing more when its sleep is over.
    (The status loop of the executor thread does not read the flag.) *)
Theorem stop_flag_ends_cooperative_loops `{env : Seedbox.Env} (Config : Config)
  (s : state) (ins : list input) :
  running s = false ->
  let s' := exec Config ins s in
  running s' = false
  /\ (count is_poll (log s') <= count is_poll (log s) + polls_left s)%nat
  /\ (count is_heartbeat (log s')
      <= count is_heartbeat (log s) + beats_left s)%nat
  /\ (polls_left s = O -> count is_poll (log s') = count is_poll (log s))
  /\ (beats_left s = O ->
      count is_heartbeat (log s') = count is_heartbeat (log s)).
Proof.
  intros Hr s'.
  pose proof (exec_polls_bounded Config ins s Hr) as Hp.
  pose proof (exec_beats_bounded Config ins s Hr) as Hb.
  pose proof (exec_polls_grow Config ins s) as Hp'.
  pose proof (exec_beats_grow Config ins s) as Hb'.
  fold s' in Hp, Hb, Hp', Hb'.
  split; [apply exec_running_false, Hr|].
  repeat split; lia.
Qed.

(** C6: the seeding call is submitted and the set-up is about to fail in
    one of the declared ways (no content directory, no eligible file, no
    item registered), libtorrent opening its session.  The call ends
    with [SeedboxError] without entering the status loop (for every
    fuel, none included), the error is in the log of the seedbox; the
    bridge logs it and ends normally.  Nothing else moves: the update
    monitor, the heartbeat, the flag and the supervisor are as before and
    the process has not exited; from then on the supervisor leaves its
    wait only when a task has raised or when the three tasks are over. *)
Theorem setup_failure_ends_only_the_bridge `{env : Seedbox.Env}
  (Config : Config) (s : state) :
  Seedbox.session_opens ->
  exited s = false -> cur s = None -> sb s = SB_Awaiting ->
  worker s = W_Setup ->
  Seedbox.setup_failure (seed s) ->
  let s1 := step Config Worker s in
  let s2 := step Config Bridge s1 in
  exists msg,
    (forall fuel,
        (Seedbox.seed_content (SEEDBOX_STATUS_INTERVAL Config) fuel (seed s)).1
        = Seedbox.Finished (Raise (SeedboxError msg)))
    /\ worker s1 = W_Finished (Raise (SeedboxError msg))
    /\ (exists e, Seedbox.ErrorSeedbox e ∈ Seedbox.trace (seed s1))
    /\ sb s2 = SB_Done (Return tt)
    /\ log s2 = log s ++ [ErrorSeedboxFailed (SeedboxError msg)]
    /\ um s2 = um s /\ hb s2 = hb s /\ running s2 = running s
    /\ sup s2 = sup s /\ gathered s2 = gathered s /\ exited s2 = false
    /\ (forall ins,
           sup s = R_Gather ->
           sup (exec Config ins s2) <> R_Gather ->
           gathered (exec Config ins s2) <> None
           \/ all_done (exec Config ins s2) = true).
Proof.
  intros Hopen Hex Hcur Hsb Hw Hfail s1 s2.
  destruct (setup_failure_raises (seed s) Hopen Hfail) as (m0 & w1 & Hset).
  destruct (worker_setup_raises Config (SeedboxError m0) w1 s Hex Hw Hset eq_refl)
    as (w2 & Hs1 & Hin & _).
  fold s1 in Hs1. simpl exn_str in Hs1.
  exists ("Seeding failed: " +:+ m0).
  assert (Hs2 : s2 = set_sb (SB_Done (Return tt))
                       (emit [ErrorSeedboxFailed
                                (SeedboxError ("Seeding failed: " +:+ m0))] s1)).
  { unfold s2. apply bridge_logs_SeedboxError; rewrite Hs1; auto. }
  split.
  { intros fuel. unfold Seedbox.seed_content. rewrite Hset.
    destruct (seed_leave_Exception (SeedboxError m0) w1 eq_refl)
      as (w' & -> & _). reflexivity. }
  split; [rewrite Hs1; reflexivity|].
  split; [exists (SeedboxError m0); rewrite Hs1; exact Hin|].
  rewrite Hs2, Hs1. simpl. repeat split; auto.
  intros ins Hsup Hleft.
  assert (Hopen2 : gather_open s2).
  { left. rewrite Hs2, Hs1. exact Hsup. }
  apply (exec_gather_open Config ins) in Hopen2.
  rewrite Hs2, Hs1 in Hopen2. simpl in Hopen2.
  destruct Hopen2 as [H|H]; [contradiction | exact H].
Qed.

(** C2 (amended): the seeding call is submitted, the content directory
    does not exist, and libtorrent raises nothing but instances of
    [Exception].  The call to [lt.session()] is issued first, before the
    directory is looked at; then the call fails with [SeedboxError]
    (when libtorrent opens the session, the seedbox holds it, bound to
    the port range, and the message names the missing directory).  The
    bridge logs the failure and ends normally: nothing is raised into
    [gather] and the supervisor stays where it is. *)
Theorem missing_content_directory `{env : Seedbox.Env}
  (Config : Config) (s : state) :
  Seedbox.session_raises_Exceptions ->
  exited s = false -> cur s = None -> sb s = SB_Awaiting ->
  worker s = W_Setup ->
  Seedbox.fs (seed s) !! Seedbox.content_dir (Seedbox.self (seed s)) = None ->
  let s1 := step Config Worker s in
  let s2 := step Config Bridge s1 in
  exists msg,
    worker s1 = W_Finished (Raise (SeedboxError msg))
    /\ (exists rest,
           Seedbox.trace (seed s1)
           = Seedbox.trace (seed s)
             ++ [Seedbox.InfoStarting;
                 Seedbox.InfoContentDirectory
                   (Seedbox.content_dir (Seedbox.self (seed s)));
                 Seedbox.InfoTracker (Seedbox.tracker_url (Seedbox.self (seed s)));
                 Seedbox.CallSession] ++ rest)
    /\ (Seedbox.session_opens ->
        msg = "Seeding failed: "
              +:+ ("Content directory not found: "
                     +:+ Seedbox.content_dir (Seedbox.self (seed s)))
        /\ Seedbox.self (seed s1) = Seedbox.with_session (Seedbox.self (seed s)))
    /\ sb s2 = SB_Done (Return tt)
    /\ log s2 = log s ++ [ErrorSeedboxFailed (SeedboxError msg)]
    /\ gathered s2 = gathered s /\ sup s2 = sup s.
Proof.
  intros Hexc Hex Hcur Hsb Hw Hnone s1 s2.
  destruct (seed_open_missing (seed s) Hexc Hnone) as (e & w1 & Hopen & He & Hmsg).
  pose proof (seed_open_trace _ _ _ Hopen) as [rest Hrest].
  apply seed_setup_open_raises in Hopen.
  destruct (worker_setup_raises Config e w1 s Hex Hw Hopen He)
    as (w2 & Hs1 & _ & Hself & rest2 & Hrest2).
  fold s1 in Hs1.
  exists ("Seeding failed: " +:+ exn_str e).
  assert (Hs2 : s2 = set_sb (SB_Done (Return tt))
                       (emit [ErrorSeedboxFailed
                                (SeedboxError ("Seeding failed: " +:+ exn_str e))]
                          s1)).
  { unfold s2. apply bridge_logs_SeedboxError; rewrite Hs1; auto. }
  split; [rewrite Hs1; reflexivity|].
  split.
  { exists (rest ++ rest2). rewrite Hs1. simpl. rewrite Hrest2, Hrest.
    rewrite <- !List.app_assoc. reflexivity. }
  split.
  { intros Hses. destruct (Hmsg Hses) as [-> Hw1]. rewrite Hs1. simpl.
    split; [reflexivity | congruence]. }
  rewrite Hs2, Hs1. simpl. repeat split.
Qed.

(** ** Scenarios *)

Ltac by_computation :=
  first [ vm_compute; reflexivity | vm_compute; lia
        | vm_compute; solve [eauto] ].

Lemma quiet_session_opens : Seedbox.session_opens (env := Seedbox.quiet).
Proof. split; reflexivity. Qed.

(** An update is pulled before the bridge has started: the process
    exits with status 42 after the whole [finally]. *)
Lemma restart_after_pull_witness :
  let s := exec (env := Seedbox.quiet) demo
             [Update (Return false); Update (Return true)]
             (start demo Seedbox.three_files) in
  let s1 := step demo (Update (Return true)) s in
  let s' := exec demo [Run; Run; Run; Run; Heartbeat] s1 in
  um s' = UM_Done (Raise (SystemExit (EXIT_RESTART demo)))
  /\ InfoUpdatesPulled ∈ log s1
  /\ CallSysExit (EXIT_RESTART demo) ∈ log s1
  /\ count is_poll (log s') = count is_poll (log s)
  /\ (worker_stopped s = true ->
      sup (exec demo [Run; Run; Run; Run] s1) = R_Exited (EXIT_RESTART demo))
  /\ forall code,
      sup s' = R_Exited code ->
      code = EXIT_RESTART demo
      /\ cancellations_logged s'
      /\ CallExecutorShutdown ∈ log s'
      /\ worker_stopped s' = true.
Proof.
  intros s.
  apply (restart_after_pull (env := Seedbox.quiet) demo s true
           [Run; Run; Run; Run; Heartbeat]); by_computation.
Defined.

(** C1 as stated fails in both ways.  With the executor idle, the
    process does exit with status 42 after a pull, but not directly: by
    then the three tasks have been cancelled and awaited and the executor
    shut down.  And while the seedbox is seeding, the supervisor goes
    through the cancellations and stops inside
    [executor.shutdown(wait=True)]: no continuation ever reaches the
    exit, because the status loop never returns. *)
Lemma restart_waits_for_the_worker :
  (let s0 := exec (env := Seedbox.quiet) demo
               [Update (Return false); Update (Return true); Update (Return true)]
               (start demo Seedbox.three_files) in
   let s4 := exec demo [Run; Run; Run; Run] s0 in
   sup (exec demo [Run; Run; Run] s0) = R_Shutdown (Some (SystemExit 42))
   /\ sup s4 = R_Exited 42
   /\ hb s4 = HB_Done (Raise CancelledError)
   /\ sb s4 = SB_Done (Raise CancelledError)
   /\ count is_shutdown_call (log s4) = 5%nat)
  /\ let s1 := exec (env := Seedbox.quiet) demo
                 [Bridge; Worker; Worker;
                  Update (Return false); Update (Return true); Update (Return true)]
                 (start demo Seedbox.three_files) in
     let s2 := exec demo [Run; Run; Run; Run] s1 in
     um s1 = UM_Done (Raise (SystemExit 42))
     /\ sup s2 = R_Shutdown (Some (SystemExit 42))
     /\ hb s2 = HB_Done (Raise CancelledError)
     /\ sb s2 = SB_Done (Raise CancelledError)
     /\ count is_shutdown_call (log s2) = 5%nat
     /\ worker s2 = W_Loop 1
     /\ forall ins, exited (exec demo ins s1) = false.
Proof.
  split; [do 4 (split; [by_computation|]); by_computation|].
  intros s1 s2. do 6 (split; [by_computation|]).
  intros ins. apply (exec_seeding demo ins s1).
  - exact SeedboxSpec.quiet_calls_return.
  - reflexivity.
  - split; [exists 1%nat; by_computation|].
    split; [vm_compute; discriminate|].
    split; [by_computation | vm_compute; discriminate].
Qed.

Lemma signal_during_heartbeat_sleep_witness :
  let s := exec (env := Seedbox.quiet) demo [Heartbeat; Heartbeat]
             (start demo Seedbox.three_files) in
  let s1 := step demo (Signal 2) s in
  let s' := exec demo [Tick; Heartbeat; Run] s1 in
  running s1 = false /\ running s' = false
  /\ count is_heartbeat (log s') = count is_heartbeat (log s)
  /\ (sup s = R_Gather -> (clock s' < 30)%nat -> gathered s' = None ->
      sup s' = R_Gather /\ hb s' = HB_Sleeping 30).
Proof.
  intros s.
  apply (signal_during_heartbeat_sleep (env := Seedbox.quiet) demo s 30 2
           [Tick; Heartbeat; Run]); by_computation.
Defined.

(** C3 as stated fails: the content directory is missing, so the bridge
    is over; the heartbeat is asleep until second 30 and the update
    monitor until second 60 when the signal arrives at second 0.  In no
    continuation has the supervisor left its wait before second 30. *)
Lemma supervisor_waits_out_the_sleep :
  let s := exec (env := Seedbox.quiet) demo
             [Bridge; Worker; Bridge; Heartbeat; Heartbeat;
              Update (Return false); Update (Return false)]
             (start demo Seedbox.no_content) in
  let s1 := step demo (Signal 2) s in
  hb s = HB_Sleeping 30 /\ clock s = O /\ sup s1 = R_Gather
  /\ running s1 = false
  /\ forall ins, sup (exec demo ins s1) <> R_Gather ->
                 (30 <= clock (exec demo ins s1))%nat.
Proof.
  intros s s1. do 4 (split; [by_computation|]).
  intros ins Hleft.
  destruct (le_lt_dec 30 (clock (exec demo ins s1))) as [Hle|Hlt]; [exact Hle|].
  exfalso. apply Hleft.
  assert (Hset : settled s1).
  { split; [by_computation|]. split; [by_computation|].
    split; [vm_compute; discriminate|]. split; by_computation. }
  apply (exec_settled demo ins) in Hset. destruct Hset as (_ & _ & _ & _ & Hg).
  assert (Hsleep : asleep_until 30 s1).
  { intros _ _. split; by_computation. }
  apply (exec_asleep_until demo 30 ins) in Hsleep.
  apply Hsleep; assumption.
Qed.


Lemma stop_flag_ends_cooperative_loops_witness :
  let s := exec (env := Seedbox.quiet) demo
             [Heartbeat; Heartbeat; Update (Return false); Update (Return false);
              Signal 15]
             (start demo Seedbox.three_files) in
  let s' := exec demo (repeat Tick 60 ++ [Heartbeat; Update (Return false); Run]) s in
  running s' = false
  /\ (count is_poll (log s') <= count is_poll (log s) + polls_left s)%nat
  /\ (count is_heartbeat (log s')
      <= count is_heartbeat (log s) + beats_left s)%nat
  /\ (polls_left s = O -> count is_poll (log s') = count is_poll (log s))
  /\ (beats_left s = O ->
      count is_heartbeat (log s') = count is_heartbeat (log s)).
Proof.
  intros s.
  apply (stop_flag_ends_cooperative_loops (env := Seedbox.quiet) demo s
           (repeat Tick 60 ++ [Heartbeat; Update (Return false); Run])).
  by_computation.
Defined.

(** C5 as stated fails for the status loop: with the flag down, the
    executor thread goes on logging one status record per turn. *)
Lemma status_loop_ignores_the_flag :
  let s := exec (env := Seedbox.quiet) demo [Bridge; Worker; Worker; Signal 15]
             (start demo Seedbox.three_files) in
  running s = false
  /\ status_ticks s = 1%nat
  /\ status_ticks (exec demo [Worker; Worker; Worker] s) = 4%nat
  /\ worker (exec demo [Worker; Worker; Worker] s) = W_Loop 4.
Proof. do 3 (split; [by_computation|]). by_computation. Qed.

Lemma setup_failure_ends_only_the_bridge_witness :
  let s := exec (env := Seedbox.quiet) demo [Bridge]
             (start demo Seedbox.no_content) in
  let s1 := step demo Worker s in
  let s2 := step demo Bridge s1 in
  exists msg,
    (forall fuel,
        (Seedbox.seed_content (SEEDBOX_STATUS_INTERVAL demo) fuel (seed s)).1
        = Seedbox.Finished (Raise (SeedboxError msg)))
    /\ worker s1 = W_Finished (Raise (SeedboxError msg))
    /\ (exists e, Seedbox.ErrorSeedbox e ∈ Seedbox.trace (seed s1))
    /\ sb s2 = SB_Done (Return tt)
    /\ log s2 = log s ++ [ErrorSeedboxFailed (SeedboxError msg)]
    /\ um s2 = um s /\ hb s2 = hb s /\ running s2 = running s
    /\ sup s2 = sup s /\ gathered s2 = gathered s /\ exited s2 = false
    /\ (forall ins,
           sup s = R_Gather ->
           sup (exec demo ins s2) <> R_Gather ->
           gathered (exec demo ins s2) <> None
           \/ all_done (exec demo ins s2) = true).
Proof.
  intros s.
  apply (setup_failure_ends_only_the_bridge (env := Seedbox.quiet) demo s);
    [ exact quiet_session_opens | by_computation .. | ].
  apply Seedbox.directory_missing. by_computation.
Defined.

Lemma missing_content_directory_witness :
  let s := exec (env := Seedbox.quiet) demo [Heartbeat; Heartbeat; Bridge]
             (start demo Seedbox.no_content) in
  let s1 := step demo Worker s in
  let s2 := step demo Bridge s1 in
  exists msg,
    worker s1 = W_Finished (Raise (SeedboxError msg))
    /\ (exists rest,
           Seedbox.trace (seed s1)
           = Seedbox.trace (seed s)
             ++ [Seedbox.InfoStarting;
                 Seedbox.InfoContentDirectory
                   (Seedbox.content_dir (Seedbox.self (seed s)));
                 Seedbox.InfoTracker (Seedbox.tracker_url (Seedbox.self (seed s)));
                 Seedbox.CallSession] ++ rest)
    /\ (Seedbox.session_opens (env := Seedbox.quiet) ->
        msg = "Seeding failed: "
              +:+ ("Content directory not found: "
                     +:+ Seedbox.content_dir (Seedbox.self (seed s)))
        /\ Seedbox.self (seed s1) = Seedbox.with_session (Seedbox.self (seed s)))
    /\ sb s2 = SB_Done (Return tt)
    /\ log s2 = log s ++ [ErrorSeedboxFailed (SeedboxError msg)]
    /\ gathered s2 = gathered s /\ sup s2 = sup s.
Proof.
  intros s.
  apply (missing_content_directory (env := Seedbox.quiet) demo s);
    [ apply session_opens_raises_Exceptions, quiet_session_opens
    | by_computation .. ].
Defined.

(** C2 as stated fails: without the content directory the call ends
    with [SeedboxError], but by then the session has been created and
    bound to the port range. *)
Lemma session_opens_before_the_directory_check :
  let s1 := exec (env := Seedbox.quiet) demo [Bridge; Worker]
              (start demo Seedbox.no_content) in
  worker s1
  = W_Finished
      (Raise (SeedboxError
                "Seeding failed: Content directory not found: content"))
  /\ existsb Seedbox.opens_network (Seedbox.trace (seed s1)) = true
  /\ Seedbox.session (Seedbox.self (seed s1))
     = Some {| Seedbox.listening := Some (6881, 6891);
               Seedbox.listen_interfaces := Some ("0.0.0.0", 6881);
               Seedbox.registered := [] |}.
Proof. do 2 (split; [by_computation|]). by_computation. Qed.

End OrchestratorSpec.

(* ===================================================================== *)
(** * Further properties of modules/seedbox.py *)
(* ===================================================================== *)

Module SeedboxExtra.

Import Path PathFacts Seedbox SeedboxFacts.

(** ** get_status *)

Lemma sum_status_totals `{env : Env} (tick : nat)
  (hs : list (torrent_handle * string)) (sts : list torrent_status) :
  Forall2 (fun h st => lt_status tick (ti h.1) (save_path h.1) = Return st) hs sts ->
  forall up ps,
    sum_status tick hs up ps
    = Return (up + sum_of total_upload sts, ps + sum_of num_peers sts).
Proof.
  induction 1 as [|[h name] st hs sts Hst _ IH]; intros up ps; simpl.
  - rewrite !Z.add_0_r. reflexivity.
  - simpl in Hst. rewrite Hst, IH. f_equal. f_equal; lia.
Qed.

(** X1: when [handle.status()] returns for every handle, [get_status]
    reports the number of handles as the item count, the sum of their
    peers and the sum of their uploaded bytes, [active] exactly when there
    is a handle, and leaves the seedbox, the disk and the log as they
    are. *)
Theorem get_status_totals `{env : Env} (tick : nat) (w : world)
  (sts : list torrent_status) :
  Forall2 (fun h st => lt_status tick (ti h.1) (save_path h.1) = Return st)
    (handles (self w)) sts ->
  get_status tick w
  = (Return {| active := match handles (self w) with [] => false | _ => true end;
               torrents := Z.of_nat (length (handles (self w)));
               peers := sum_of num_peers sts;
               uploaded := sum_of total_upload sts |}, w).
Proof.
  intros Hall. unfold get_status. run_m.
  destruct (handles (self w)) as [|h hs] eqn:Hh.
  - inversion Hall. reflexivity.
  - rewrite (sum_status_totals tick (h :: hs) sts Hall 0 0). reflexivity.
Qed.

Lemma get_status_totals_witness :
  let w := (seed_setup (env := busy) (fresh three_files)).2 in
  get_status (env := busy) 0 w
  = (Return {| active := true; torrents := 3; peers := 6; uploaded := 3072 |}, w).
Proof.
  intros w.
  apply (get_status_totals (env := busy) 0 w
           (repeat {| total_upload := 1024; num_peers := 2 |} 3)).
  vm_compute. repeat constructor.
Defined.

Lemma sum_status_raises `{env : Env} (tick : nat)
  (hs : list (torrent_handle * string)) :
  forall up ps e,
    sum_status tick hs up ps = Raise e ->
    exists h name, (h, name) ∈ hs
                   /\ lt_status tick (ti h) (save_path h) = Raise e.
Proof.
  induction hs as [|[h name] hs IH]; intros up ps e; simpl; [discriminate|].
  destruct (lt_status tick (ti h) (save_path h)) as [st|e0] eqn:Hst.
  - intros H. destruct (IH _ _ _ H) as (h' & name' & Hin & Hr).
    exists h', name'. split; [right; exact Hin | exact Hr].
  - intros [= <-]. exists h, name. split; [left | exact Hst].
Qed.

Lemma get_status_world `{env : Env} (tick : nat) (w : world) :
  (get_status tick w).2 = w.
Proof.
  unfold get_status. run_m.
  destruct (handles (self w)) as [|h hs]; [reflexivity|].
  destruct (sum_status tick (h :: hs) 0 0); reflexivity.
Qed.

(** X2: [get_status] only reads: whatever it returns or raises, the
    seedbox, the disk and the log are unchanged; and it raises only what
    the [status()] call of one of its handles raises. *)
Theorem get_status_reads_only `{env : Env} (tick : nat) (w : world) :
  (get_status tick w).2 = w
  /\ forall e, (get_status tick w).1 = Raise e ->
               exists h name, (h, name) ∈ handles (self w)
                              /\ lt_status tick (ti h) (save_path h) = Raise e.
Proof.
  unfold get_status. run_m.
  destruct (handles (self w)) as [|h hs] eqn:Hh.
  - split; [reflexivity | discriminate].
  - destruct (sum_status tick (h :: hs) 0 0) as [totals|e0] eqn:Hsum; simpl.
    + split; [reflexivity | discriminate].
    + split; [reflexivity|]. intros e [= <-].
      apply sum_status_raises in Hsum. exact Hsum.
Qed.

(** ** _create_torrent *)

Lemma app_torrent_neq (p : string) : p <> p +:+ ".torrent".
Proof.
  intros H. apply (f_equal String.length) in H.
  assert (Hlen : forall a b, String.length (a +:+ b)
                             = (String.length a + String.length b)%nat).
  { intros a b. induction a as [|c a IH]; [reflexivity|].
    rewrite app_cons. simpl. rewrite IH. reflexivity. }
  rewrite Hlen in H. simpl in H. lia.
Qed.

Lemma create_torrent_touches `{env : Env} (file_path : string) (w : world) :
  let w' := (_create_torrent file_path w).2 in
  self w' = self w
  /\ forall q, q <> file_path +:+ ".torrent" -> fs w' !! q = fs w !! q.
Proof.
  unfold _create_torrent. run_m. case_bool_decide; simpl; [auto|].
  destruct (lt_generate _ _ _) as [torrent|e]; simpl; [|auto].
  destruct (os_open_wb _ _); simpl; [auto|].
  destruct (lt_bencode torrent) as [data|e]; simpl.
  - split; [reflexivity|]. intros q Hq.
    rewrite !lookup_insert_ne by congruence. reflexivity.
  - split; [reflexivity|]. intros q Hq.
    rewrite lookup_insert_ne by congruence. reflexivity.
Qed.

(** X3: whatever [_create_torrent] does (reuse, create, or fail half
    way), it leaves the seedbox object alone and touches no path of the
    disk other than the companion [.torrent] path; in particular the
    content file itself is never written. *)
Theorem create_torrent_frame `{env : Env} (file_path : string) (w : world) :
  let w' := (_create_torrent file_path w).2 in
  self w' = self w
  /\ (forall q, q <> file_path +:+ ".torrent" -> fs w' !! q = fs w !! q)
  /\ fs w' !! file_path = fs w !! file_path.
Proof.
  destruct (create_torrent_touches file_path w) as [Hs Hf].
  repeat split; auto. apply Hf, app_torrent_neq.
Qed.

(** X4: [open] runs before [lt.bencode].  When the companion file is
    absent, the torrent is generated and the file opens, but [lt.bencode]
    raises, the call raises that exception and leaves an empty companion
    file behind; the next call finds it and returns its path as an
    existing torrent, without generating anything. *)
Theorem create_torrent_bencode_failure `{env : Env} (file_path : string)
  (w : world) (torrent : torrent_entry) (e : exn) :
  fs w !! (file_path +:+ ".torrent") = None ->
  lt_generate (fs w) file_path (tracker_url (self w)) = Return torrent ->
  os_open_wb (fs w) (file_path +:+ ".torrent") = None ->
  lt_bencode torrent = Raise e ->
  exists w1,
    _create_torrent file_path w = (Raise e, w1)
    /\ fs w1 = <[file_path +:+ ".torrent" := RegularFile ""]> (fs w)
    /\ _create_torrent file_path w1
       = (Return (file_path +:+ ".torrent"), reused file_path w1).
Proof.
  intros Hnone Hgen Hopen Hben.
  eexists. split; [|split].
  - unfold _create_torrent. run_m.
    rewrite bool_decide_eq_false_2 by (rewrite Hnone; apply is_Some_None).
    simpl. rewrite Hgen. simpl. rewrite Hopen. simpl. rewrite Hben.
    reflexivity.
  - reflexivity.
  - apply create_torrent_present. simpl. rewrite lookup_insert_eq. eauto.
Qed.

Lemma create_torrent_bencode_failure_witness :
  let boom := OtherException "RuntimeError" "boom" in
  exists w1 : @world (bencode_raises boom),
    _create_torrent "content/a.bin" (fresh three_files) = (Raise boom, w1)
    /\ fs w1 = <["content/a.bin" +:+ ".torrent" := RegularFile ""]> three_files
    /\ _create_torrent "content/a.bin" w1
       = (Return ("content/a.bin" +:+ ".torrent"), reused "content/a.bin" w1).
Proof.
  intros boom.
  apply (create_torrent_bencode_failure (env := bencode_raises boom)
           "content/a.bin" (fresh three_files) "content/a.bin@udp://tracker");
    vm_compute; reflexivity.
Defined.

(** ** _add_torrents *)

Lemma add_one_guarded_grows `{env : Env} (f : string) (w : world) :
  let r := (add_one_guarded f w).1 in
  let w' := (add_one_guarded f w).2 in
  (forall e, r = Raise e -> is_Exception e = false)
  /\ (is_Some (session (self w')) <-> is_Some (session (self w)))
  /\ content_dir (self w') = content_dir (self w)
  /\ exists new,
      handles (self w') = handles (self w) ++ new
      /\ (length new <= 1)%nat
      /\ session_items (self w') = session_items (self w) ++ new.*1.
Proof.
  pose proof (create_torrent_touches f w) as (Hself & _).
  unfold add_one_guarded, add_one, torrent_info_of, add_torrent,
    append_handle, session_items. run_m.
  destruct (_create_torrent f w) as [[t|e] w1]; simpl in Hself; simpl.
  all: repeat match goal with
         | |- context [match ?x with _ => _ end] =>
             lazymatch x with
             | context [match _ with _ => _ end] => fail
             | _ => destruct x eqn:?; simpl
             end
         end.
  all: rewrite ?Hself in *; simplify_eq/=.
  all: repeat match goal with H : session _ = _ |- _ => rewrite H end.
  all: split; [intros ? [=]; congruence|].
  all: split; [first [tauto | split; eauto]|].
  all: split; [reflexivity|].
  all: first [ exists []; rewrite !app_nil_r; simpl; split; [reflexivity|];
               split; [lia | reflexivity]
             | eexists [_]; simpl; split; [reflexivity|];
               split; [lia | reflexivity] ].
Qed.

Lemma add_torrents_invariant `{env : Env} (files : list string) (w : world) :
  let r := (_add_torrents files w).1 in
  let w' := (_add_torrents files w).2 in
  (forall e, r = Raise e -> is_Exception e = false)
  /\ (is_Some (session (self w')) <-> is_Some (session (self w)))
  /\ content_dir (self w') = content_dir (self w)
  /\ exists new,
      handles (self w') = handles (self w) ++ new
      /\ (length new <= length files)%nat
      /\ session_items (self w') = session_items (self w) ++ new.*1.
Proof.
  revert w. induction files as [|f files IH]; intros w; simpl.
  - split; [intros ? [=]|]. split; [tauto|]. split; [reflexivity|].
    exists []. rewrite !app_nil_r. auto.
  - pose proof (add_one_guarded_grows f w) as (Hr & Hs & Hd & new1 & Hh & Hl & Hi).
    unfold bind. destruct (add_one_guarded f w) as [[[]|e] w1]; simpl in *.
    + destruct (IH w1) as (Hr' & Hs' & Hd' & new2 & Hh' & Hl' & Hi').
      split; [exact Hr'|]. split; [tauto|]. split; [congruence|].
      exists (new1 ++ new2). rewrite Hh', Hh, Hi', Hi, fmap_app, !length_app.
      rewrite <- !List.app_assoc. repeat split; auto. lia.
    + split; [exact Hr|]. split; [exact Hs|]. split; [exact Hd|].
      exists new1. repeat split; auto. lia.
Qed.

(** X5: [_add_torrents] never raises an instance of [Exception] (a
    failing file is logged and skipped); it keeps the handles it had, adds
    at most one handle per file, and every handle it adds is an item it
    has registered with the session, in the same order; it creates no
    session and drops none, and it leaves the content directory as
    configured. *)
Theorem add_torrents_grows `{env : Env} (files : list string) (w : world) :
  let r := (_add_torrents files w).1 in
  let w' := (_add_torrents files w).2 in
  (forall e, r = Raise e -> is_Exception e = false)
  /\ (is_Some (session (self w')) <-> is_Some (session (self w)))
  /\ content_dir (self w') = content_dir (self w)
  /\ exists new,
      handles (self w') = handles (self w) ++ new
      /\ (length new <= length files)%nat
      /\ session_items (self w') = session_items (self w) ++ new.*1.
Proof. apply add_torrents_invariant. Qed.

(** ** _load_content_files *)

(** X6: what [_load_content_files] gives for a content directory whose
    path [glob] takes literally.  When it returns, the list is
    not empty, has no duplicate, holds only paths that are on the disk and
    do not end in [.torrent], and the only effect is the record of the
    count.  When it raises, nothing has changed, and the error is
    [Content directory not found] exactly when the directory path is
    absent, [No files found] when it is present and nothing is
    eligible. *)
Theorem load_content_files_outcomes `{env : Env} (w : world) :
  plain_dir (content_dir (self w)) = true ->
  match _load_content_files w with
  | (Return files, w') =>
      files <> [] /\ NoDup files
      /\ (forall f, f ∈ files ->
                    is_Some (fs w !! f) /\ endswith f ".torrent" = false)
      /\ self w' = self w /\ fs w' = fs w
      /\ trace w' = trace w ++ [InfoFound (length files)]
  | (Raise e, w') =>
      w' = w
      /\ ((fs w !! content_dir (self w) = None
           /\ e = SeedboxError ("Content directory not found: "
                                  +:+ content_dir (self w)))
          \/ (is_Some (fs w !! content_dir (self w))
              /\ eligible (fs w) (content_dir (self w)) = []
              /\ e = SeedboxError ("No files found in: "
                                     +:+ content_dir (self w))))
  end.
Proof.
  intros _. rewrite load_content_files_eq. case_bool_decide as Hdir.
  - destruct (eligible _ _) as [|f fl] eqn:Hel.
    + split; [reflexivity|]. right. auto.
    + simpl. split; [discriminate|]. split; [rewrite <- Hel; apply NoDup_eligible|].
      split; [|auto]. intros g Hg. rewrite <- Hel in Hg.
      pose proof Hg as Hg'. apply list_elem_of_filter in Hg' as [Hend _].
      apply elem_of_eligible in Hg as (_ & name & -> & Hin & _). auto.
  - split; [reflexivity|]. left. split; [|reflexivity].
    destruct (fs w !! content_dir (self w)) eqn:H; [|reflexivity].
    exfalso. apply Hdir. eauto.
Qed.

Lemma load_content_files_outcomes_witness :
  let w := fresh (env := quiet) with_dotfile in
  match _load_content_files w with
  | (Return files, w') =>
      files <> [] /\ NoDup files
      /\ (forall f, f ∈ files ->
                    is_Some (fs w !! f) /\ endswith f ".torrent" = false)
      /\ self w' = self w /\ fs w' = fs w
      /\ trace w' = trace w ++ [InfoFound (length files)]
  | (Raise e, w') =>
      w' = w
      /\ ((fs w !! content_dir (self w) = None
           /\ e = SeedboxError ("Content directory not found: "
                                  +:+ content_dir (self w)))
          \/ (is_Some (fs w !! content_dir (self w))
              /\ eligible (env := quiet) (fs w) (content_dir (self w)) = []
              /\ e = SeedboxError ("No files found in: "
                                     +:+ content_dir (self w))))
  end.
Proof.
  intros w.
  apply (load_content_files_outcomes (env := quiet) w). reflexivity.
Defined.



(** ** seed_content *)

Lemma seed_tick_keeps `{env : Env} (status_interval : Z) (tick : nat)
  (w : world) :
  self (seed_tick status_interval tick w).2 = self w
  /\ fs (seed_tick status_interval tick w).2 = fs w.
Proof.
  pose proof (get_status_world tick w) as Hw.
  unfold seed_tick, bind, emit, call, ret, raise.
  destruct (get_status tick w) as [[st|e] w0]; simpl in Hw; subst w0.
  - destruct (time_sleep tick); auto.
  - auto.
Qed.

(** The logs of the handlers, then the record of the [finally] when
    there is a session. *)
Lemma seed_leave_trace `{env : Env} (e : exn) (w : world) :
  self (seed_leave e w).2 = self w
  /\ exists logs,
      trace (seed_leave e w).2
      = trace w ++ logs
        ++ match session (self w) with Some _ => [InfoStopping] | None => [] end
      /\ (logs = [] \/ logs = [InfoInterrupted] \/ logs = [ErrorSeedbox e]).
Proof.
  unfold seed_leave, seed_except, seed_finally. run_m.
  destruct (is_KeyboardInterrupt e); simpl.
  - destruct (session (self w)); simpl; (split; [reflexivity|]);
      exists [InfoInterrupted]; rewrite <- ?List.app_assoc; auto.
  - destruct (is_Exception e); simpl; destruct (session (self w)); simpl;
      (split; [reflexivity|]).
    + exists [ErrorSeedbox e]. rewrite <- ?List.app_assoc. auto.
    + exists [ErrorSeedbox e]. auto.
    + exists []. auto.
    + exists []. rewrite !app_nil_r. auto.
Qed.

Lemma seed_loop_finished `{env : Env} (status_interval : Z) (fuel : nat) :
  forall (tick : nat) (w w' : world) (r : result unit),
    seed_loop status_interval fuel tick w = (Finished r, w') ->
    exists e w1, seed_leave e w1 = (r, w') /\ self w1 = self w.
Proof.
  induction fuel as [|fuel IH]; intros tick w w' r; simpl; [discriminate|].
  pose proof (seed_tick_keeps status_interval tick w) as [Hs _].
  destruct (seed_tick status_interval tick w) as [[[]|e] w1]; simpl in Hs.
  - intros H. destruct (IH _ _ _ _ H) as (e & w2 & Hl & Hs2).
    exists e, w2. split; [exact Hl | congruence].
  - destruct (seed_leave e w1) as [r1 w2] eqn:Hl. intros [= <- <-].
    exists e, w1. auto.
Qed.

(** The call is over only through the handlers: [e] was raised by the
    set-up, or by the loop with the seedbox as the set-up left it. *)
Lemma seed_content_finished `{env : Env} (status_interval : Z) (fuel : nat)
  (w w' : world) (r : result unit) :
  seed_content status_interval fuel w = (Finished r, w') ->
  exists e w1,
    seed_leave e w1 = (r, w')
    /\ (seed_setup w = (Raise e, w1)
        \/ exists w0, seed_setup w = (Return tt, w0) /\ self w1 = self w0).
Proof.
  unfold seed_content.
  destruct (seed_setup w) as [[[]|e] w0] eqn:Hset.
  - intros H. apply seed_loop_finished in H as (e & w1 & Hl & Hs).
    exists e, w1. split; [exact Hl|]. right. eauto.
  - destruct (seed_leave e w0) as [r1 w2] eqn:Hl. intros [= <- <-].
    exists e, w0. auto.
Qed.

(** X8: how [seed_content] can end.  It returns normally only after
    catching a [KeyboardInterrupt], which it logs; when it raises, it
    raises either [SeedboxError], the error being in the log, or an
    exception that is not an instance of [Exception]. *)
Theorem seed_content_outcomes `{env : Env} (status_interval : Z) (fuel : nat)
  (w w' : world) (r : result unit) :
  seed_content status_interval fuel w = (Finished r, w') ->
  match r with
  | Return _ => InfoInterrupted ∈ trace w'
  | Raise e =>
      (is_SeedboxError e = true /\ exists e0, ErrorSeedbox e0 ∈ trace w')
      \/ (is_Exception e = false /\ e <> KeyboardInterrupt)
  end.
Proof.
  intros H. apply seed_content_finished in H as (e & w1 & Hl & _).
  revert Hl. unfold seed_leave, seed_except, seed_finally. run_m.
  destruct (is_KeyboardInterrupt e) eqn:Hki; simpl.
  - destruct (session (self w1)); simpl; intros [= <- <-]; simpl; set_solver.
  - destruct (is_Exception e) eqn:Hex; simpl;
      destruct (session (self w1)); simpl; intros [= <- <-]; simpl.
    + left. split; [reflexivity|]. exists e. set_solver.
    + left. split; [reflexivity|]. exists e. set_solver.
    + right. split; [exact Hex|]. destruct e; discriminate.
    + right. split; [exact Hex|]. destruct e; discriminate.
Qed.

Lemma seed_content_outcomes_witness :
  let w' := (seed_content (env := interrupted_by KeyboardInterrupt) 5 1
               (fresh three_files)).2 in
  InfoInterrupted ∈ trace w'.
Proof.
  intros w'.
  apply (seed_content_outcomes (env := interrupted_by KeyboardInterrupt) 5 1
           (fresh three_files) w' (Return tt)).
  vm_compute. reflexivity.
Defined.

Lemma initialize_session_creates `{env : Env} (w : world) :
  (lt_session_new = None ->
   is_Some (session (self (_initialize_session w).2)))
  /\ (forall e, lt_session_new = Some e ->
                _initialize_session w
                = (Raise e, {| self := self w; fs := fs w;
                               trace := trace w ++ [CallSession] |})).
Proof.
  unfold _initialize_session. run_m. split.
  - intros ->. simpl. destruct (lt_listen_on _ _); simpl; [eauto|].
    destruct (lt_apply_settings _); simpl; eauto.
  - intros e ->. reflexivity.
Qed.

Lemma load_content_files_self `{env : Env} (w : world) :
  self (_load_content_files w).2 = self w.
Proof.
  rewrite load_content_files_eq. case_bool_decide; [|reflexivity].
  destruct (eligible _ _); reflexivity.
Qed.

Lemma seed_setup_session `{env : Env} (w : world) :
  lt_session_new = None -> is_Some (session (self (seed_setup w).2)).
Proof.
  intros Hnew. unfold seed_setup, seed_open.
  cbv [bind ret raise gets emit]. cbn [self fs trace].
  match goal with
  | |- context [_initialize_session ?W] =>
      pose proof (proj1 (initialize_session_creates W) Hnew) as Hs;
      destruct (_initialize_session W) as [[[]|e] w1]
  end; cbn [fst snd] in *; [|exact Hs].
  pose proof (load_content_files_self w1) as Hl.
  destruct (_load_content_files w1) as [[files|e] w2]; cbn [fst snd] in *;
    [|congruence].
  pose proof (add_torrents_invariant files w2) as (_ & Hiff & _).
  cbv zeta in Hiff.
  destruct (_add_torrents files w2) as [[[]|e] w3]; cbn [fst snd] in *;
    [|apply Hiff; congruence].
  destruct (handles (self w3)); cbn [fst snd self]; apply Hiff; congruence.
Qed.

(** X9: starting without a session, [seed_content] ends its log with
    [Stopping seedbox] exactly when [lt.session()] had returned: the
    [finally] clause says nothing when the session was never created. *)
Theorem stopping_logged_iff_session_created `{env : Env} (status_interval : Z)
  (fuel : nat) (w w' : world) (r : result unit) :
  session (self w) = None ->
  seed_content status_interval fuel w = (Finished r, w') ->
  (last (trace w') = Some InfoStopping <-> lt_session_new = None).
Proof.
  intros Hnone Hrun.
  destruct lt_session_new as [e0|] eqn:Hnew.
  - split; [|discriminate]. intros Hlast. exfalso.
    assert (Hopen : seed_open w
                    = (Raise e0,
                       {| self := self w; fs := fs w;
                          trace := trace w ++ [InfoStarting;
                                               InfoContentDirectory (content_dir (self w));
                                               InfoTracker (tracker_url (self w));
                                               CallSession] |})).
    { unfold seed_open. run_m. simpl.
      rewrite (proj2 (initialize_session_creates _) e0 Hnew). simpl.
      rewrite <- !List.app_assoc. reflexivity. }
    apply seed_setup_open_raises in Hopen.
    unfold seed_content in Hrun. rewrite Hopen in Hrun.
    match type of Hrun with context [seed_leave e0 ?W] =>
      destruct (seed_leave_trace e0 W) as (_ & logs & Ht & Hlogs);
      destruct (seed_leave e0 W) as [r1 w2] end.
    injection Hrun as Hr Hw. subst r w'. simpl in Ht. rewrite Hnone in Ht.
    rewrite Ht in Hlast.
    destruct Hlogs as [-> | [-> | ->]];
      rewrite <- ?List.app_assoc in Hlast; simpl in Hlast;
      erewrite last_app in Hlast by reflexivity; discriminate.
  - split; [reflexivity|]. intros _.
    apply seed_content_finished in Hrun as (e & w1 & Hl & Hwhere).
    assert (Hs : is_Some (session (self w1))).
    { pose proof (seed_setup_session w Hnew) as Hs.
      destruct Hwhere as [Hset | (w0 & Hset & Heq)]; rewrite Hset in Hs; simpl in Hs;
        congruence. }
    destruct (seed_leave_trace e w1) as (_ & logs & Ht & _).
    rewrite Hl in Ht. simpl in Ht. destruct Hs as [ses Hs]. rewrite Hs in Ht.
    rewrite Ht, !List.app_assoc. apply last_snoc.
Qed.

Lemma stopping_logged_iff_session_created_witness :
  let refused := OtherException "RuntimeError" "no socket" in
  let w' := (seed_content (env := session_refused refused) 5 1
               (fresh three_files)).2 in
  last (trace w') = Some InfoStopping
  <-> lt_session_new (Env := session_refused refused) = None.
Proof.
  intros refused w'.
  apply (stopping_logged_iff_session_created (env := session_refused refused)
           5 1 (fresh three_files) w'
           (Raise (SeedboxError "Seeding failed: no socket")));
    vm_compute; reflexivity.
Defined.

(** X10: a healthy status loop never ends by itself.  When every call
    returns, no exception arrives during a sleep and there is a handle,
    [fuel] turns of the loop leave it still seeding; they log exactly
    [fuel] status records, each active with the number of handles as item
    count, each followed by a sleep of the interval, and change neither
    the seedbox nor the disk. *)
Theorem status_loop_keeps_seeding `{env : Env} (status_interval : Z)
  (fuel : nat) :
  forall (tick : nat) (w : world),
    calls_return ->
    (forall k, time_sleep k = None) ->
    handles (self w) <> [] ->
    exists sts,
      seed_loop status_interval fuel tick w
      = (Seeding (tick + fuel),
         {| self := self w; fs := fs w;
            trace := trace w ++ status_records status_interval sts |})
      /\ length sts = fuel
      /\ Forall (fun st => active st = true
                           /\ torrents st = Z.of_nat (length (handles (self w))))
           sts.
Proof.
  induction fuel as [|fuel IH]; intros tick w Hok Hsleep Hh.
  - exists []. simpl. rewrite Nat.add_0_r, app_nil_r. destruct w. auto.
  - destruct (seed_tick_returns status_interval tick w Hok (Hsleep tick) Hh)
      as (st & Htick & Hact & Hcount).
    simpl. rewrite Htick.
    match goal with |- context [seed_loop _ _ _ ?W] =>
      destruct (IH (S tick) W Hok Hsleep Hh) as (sts & Hrun & Hlen & Hall) end.
    exists (st :: sts). rewrite Hrun. simpl.
    rewrite <- !List.app_assoc. simpl.
    replace (S (tick + fuel)) with (tick + S fuel)%nat by lia.
    split; [reflexivity|]. split; [lia|]. constructor; auto.
Qed.

Lemma status_loop_keeps_seeding_witness :
  let w := (seed_setup (env := quiet) (fresh three_files)).2 in
  exists sts,
    seed_loop (env := quiet) 5 4 0 w
    = (Seeding (0 + 4),
       {| self := self w; fs := fs w;
          trace := trace w ++ status_records 5 sts |})
    /\ length sts = 4%nat
    /\ Forall (fun st => active st = true
                         /\ torrents st = Z.of_nat (length (handles (self w))))
         sts.
Proof.
  intros w.
  apply (status_loop_keeps_seeding (env := quiet) 5 4 0%nat w).
  - exact SeedboxSpec.quiet_calls_return.
  - reflexivity.
  - vm_compute. discriminate.
Defined.

(** ** _initialize_session when the ports cannot be bound *)

(** X11: the session object outlives a failure of [listen_on].  When
    [lt.session()] returns and [listen_on] raises an instance of
    [Exception], [_initialize_session] raises it with [self.session]
    already set (not listening, no settings applied) and without its
    record; [seed_content] then looks at no file, logs the error, and its
    [finally] logs [Stopping seedbox] before [SeedboxError] is raised. *)
Theorem listen_failure_leaves_session `{env : Env} (status_interval : Z)
  (fuel : nat) (w : world) (e : exn) :
  lt_session_new = None ->
  lt_listen_on (port_min (self w)) (port_max (self w)) = Some e ->
  is_Exception e = true ->
  let held := {| content_dir := content_dir (self w);
                 tracker_url := tracker_url (self w);
                 port_min := port_min (self w);
                 port_max := port_max (self w);
                 session := Some {| listening := None;
                                    listen_interfaces := None;
                                    registered := [] |};
                 handles := handles (self w) |} in
  let calls := [CallSession;
                CallListenOn (port_min (self w)) (port_max (self w))] in
  _initialize_session w
  = (Raise e, {| self := held; fs := fs w; trace := trace w ++ calls |})
  /\ seed_content status_interval fuel w
     = (Finished (Raise (SeedboxError ("Seeding failed: " +:+ exn_str e))),
        {| self := held; fs := fs w;
           trace := trace w
                    ++ [InfoStarting;
                        InfoContentDirectory (content_dir (self w));
                        InfoTracker (tracker_url (self w))]
                    ++ calls ++ [ErrorSeedbox e; InfoStopping] |}).
Proof.
  intros Hnew Hlisten Hex held calls.
  assert (Hinit : forall t,
             _initialize_session {| self := self w; fs := fs w; trace := t |}
             = (Raise e, {| self := held; fs := fs w; trace := t ++ calls |})).
  { intros t. unfold _initialize_session. run_m. rewrite Hnew. simpl.
    rewrite Hlisten. simpl. rewrite <- List.app_assoc. reflexivity. }
  split.
  - specialize (Hinit (trace w)). destruct w. exact Hinit.
  - assert (Hki : is_KeyboardInterrupt e = false)
      by (destruct e; auto; discriminate).
    unfold seed_content, seed_setup, seed_open, seed_leave, seed_except,
      seed_finally.
    cbv [bind ret raise gets emit try_finally]. cbn [self fs trace].
    rewrite Hinit. cbn [fst snd]. rewrite Hki, Hex.
    cbv [bind ret raise gets emit try_finally]. cbn [self fs trace session held].
    rewrite <- !List.app_assoc. reflexivity.
Qed.

Lemma listen_failure_leaves_session_witness :
  let e := OtherException "RuntimeError" "Address already in use" in
  let w := fresh (env := ports_taken e) three_files in
  let held := {| content_dir := "content"; tracker_url := "udp://tracker";
                 port_min := 6881; port_max := 6891;
                 session := Some {| listening := None;
                                    listen_interfaces := None;
                                    registered := [] |};
                 handles := [] |} in
  let calls := [CallSession; CallListenOn 6881 6891] in
  _initialize_session w
  = (Raise e, {| self := held; fs := three_files; trace := [] ++ calls |})
  /\ seed_content 5 7 w
     = (Finished (Raise (SeedboxError
                           ("Seeding failed: " +:+ "Address already in use"))),
        {| self := held; fs := three_files;
           trace := [] ++ [InfoStarting; InfoContentDirectory "content";
                           InfoTracker "udp://tracker"]
                    ++ calls ++ [ErrorSeedbox e; InfoStopping] |}).
Proof.
  intros e w.
  apply (listen_failure_leaves_session (env := ports_taken e) 5 7 w e);
    reflexivity.
Defined.

(** ** _add_torrents, file by file *)

Lemma create_torrent_trace `{env : Env} (f : string) (w : world) :
  exists evs,
    trace (_create_torrent f w).2 = trace w ++ evs
    /\ added evs = O /\ failed evs = O.
Proof.
  unfold _create_torrent, added, failed. run_m.
  case_bool_decide; simpl; [eexists; split; [reflexivity|]; auto|].
  destruct (lt_generate _ _ _) as [torrent|e]; simpl;
    [|eexists; split; [reflexivity|]; auto].
  destruct (os_open_wb _ _); simpl; [eexists; split; [reflexivity|]; auto|].
  destruct (lt_bencode torrent) as [data|e]; simpl.
  - rewrite <- List.app_assoc. eexists; split; [reflexivity|]; auto.
  - eexists; split; [reflexivity|]; auto.
Qed.

Lemma added_app (l1 l2 : list event) : added (l1 ++ l2) = (added l1 + added l2)%nat.
Proof. unfold added. rewrite filter_app, length_app. reflexivity. Qed.

Lemma failed_app (l1 l2 : list event) :
  failed (l1 ++ l2) = (failed l1 + failed l2)%nat.
Proof. unfold failed. rewrite filter_app, length_app. reflexivity. Qed.

(** A turn of the [for] that does not raise ends with one of the two
    records: the handle is appended, or nothing is. *)
Lemma add_one_guarded_accounts `{env : Env} (f : string) (w w' : world) :
  add_one_guarded f w = (Return tt, w') ->
  exists evs,
    trace w' = trace w ++ evs
    /\ (added evs + failed evs = 1)%nat
    /\ length (handles (self w'))
       = (length (handles (self w)) + added evs)%nat.
Proof.
  pose proof (create_torrent_touches f w) as (Hself & _).
  destruct (create_torrent_trace f w) as (evs0 & Ht0 & Ha0 & Hf0).
  unfold add_one_guarded, add_one, torrent_info_of, add_torrent,
    append_handle. run_m.
  destruct (_create_torrent f w) as [[t|e] w1]; simpl in Hself, Ht0; simpl.
  all: repeat match goal with
         | |- context [match ?x with _ => _ end] =>
             lazymatch x with
             | context [match _ with _ => _ end] => fail
             | _ => destruct x eqn:?; simpl
             end
         end.
  all: intros [= <-]; simpl; rewrite ?Ht0, ?Hself, <- ?List.app_assoc.
  all: eexists; (split; [reflexivity|]).
  all: rewrite ?added_app, ?failed_app, ?Ha0, ?Hf0, ?length_app.
  all: unfold added, failed; simpl.
  all: split; reflexivity || lia.
Qed.

(** X12: [_add_torrents] accounts for every file.  When the call
    returns, each file of the list has been closed by exactly one of the
    two records, [Added to session] or [Failed to add], and the handles
    have grown by the number of files added: a file that fails is logged
    and skipped, and the loop goes on with the next one. *)
Theorem add_torrents_accounts_for_every_file `{env : Env}
  (files : list string) :
  forall (w w' : world),
    _add_torrents files w = (Return tt, w') ->
    exists evs,
      trace w' = trace w ++ evs
      /\ (added evs + failed evs)%nat = length files
      /\ length (handles (self w'))
         = (length (handles (self w)) + added evs)%nat.
Proof.
  induction files as [|f files IH]; intros w w'; simpl.
  - cbv [ret]. intros [= <-]. exists []. rewrite app_nil_r. auto.
  - cbv [bind].
    destruct (add_one_guarded f w) as [[[]|e] w1] eqn:Hone; [|discriminate].
    intros Hrest.
    apply add_one_guarded_accounts in Hone as (evs1 & Ht1 & Hc1 & Hh1).
    apply IH in Hrest as (evs2 & Ht2 & Hc2 & Hh2).
    exists (evs1 ++ evs2).
    rewrite Ht2, Ht1, added_app, failed_app, <- List.app_assoc.
    split; [reflexivity|]. split; lia.
Qed.

Lemma add_torrents_accounts_for_every_file_witness :
  let e := OtherException "RuntimeError" "Permission denied" in
  let w := (seed_open (env := unreadable "content/b.bin" e)
              (fresh three_files)).2 in
  let files := ["content/c.bin"; "content/a.bin"; "content/b.bin"] in
  let w' := (_add_torrents files w).2 in
  exists evs,
    trace w' = trace w ++ evs
    /\ (added evs + failed evs)%nat = length files
    /\ length (handles (self w'))
       = (length (handles (self w)) + added evs)%nat.
Proof.
  intros e w files w'.
  apply (add_torrents_accounts_for_every_file
           (env := unreadable "content/b.bin" e) files w w').
  vm_compute. reflexivity.
Defined.

End SeedboxExtra.

(* ===================================================================== *)
(** * Further properties of main.py *)
(* ===================================================================== *)

Module OrchestratorExtra.

Import SeedboxFacts Orchestrator OrchestratorFacts.

Section WithConfig.

Context `{env : Seedbox.Env} (Config : Config).

(** ** The way out of run and main *)

(** Only the supervisor moves the supervisor and calls the [finally]. *)
Lemma others_keep_sup i s :
  i <> Run ->
  sup (step Config i s) = sup s
  /\ count is_shutdown_call (log (step Config i s))
     = count is_shutdown_call (log s).
Proof.
  intros Hi. destruct i; try congruence; clear Hi;
    (split; [step_cases; settle | step_cases; rewrite ?count_app; simpl; settle]).
Qed.

(** Once the supervisor has left its wait, [gather] delivers nothing
    more. *)
Lemma gathered_closed i s :
  sup s <> R_Gather -> gathered (step Config i s) = gathered s.
Proof. intros H. step_cases; settle. Qed.

Lemma cancelled_all_done s :
  all_done (cancel_sb (cancel_hb (cancel_um s))) = true.
Proof.
  unfold all_done, um_done, hb_done, sb_done, cancel_sb, cancel_hb, cancel_um,
    cancelled_um, cancelled_hb, cancelled_sb. simpl.
  destruct (um s), (hb s), (sb s); reflexivity.
Qed.

Lemma supervised_step i s :
  supervised Config s -> supervised Config (step Config i s).
Proof.
  intros H. destruct (exited s) eqn:Hex; [rewrite step_exited; auto|].
  assert (Hrun : i = Run \/ i <> Run) by (destruct i; auto; right; discriminate).
  destruct Hrun as [->|Hi].
  - unfold step. rewrite Hex. unfold supervised, run in *.
    destruct (sup s) as [|p|p|p|code] eqn:Hsup.
    + destruct (idle s); [|rewrite Hsup; exact H].
      destruct (gathered s) as [e|] eqn:Hg.
      * destruct (is_CancelledError e) eqn:Hc; simpl; rewrite ?count_app, Hg;
          simpl; rewrite Hc; split; auto with lia.
      * destruct (all_done s); simpl; rewrite ?Hsup, ?Hg; auto.
    + destruct (inside TRun s); [|rewrite Hsup; exact H].
      destruct H as [-> H]. cbn [sup set_cur set_sup emit log gathered].
      split; [reflexivity|]. split.
      * pose proof (cancelled_all_done s) as Hd. exact Hd.
      * unfold cancel_sb, cancel_hb, cancel_um. simpl.
        rewrite !count_app. simpl. lia.
    + destruct (idle s); [|rewrite Hsup; exact H].
      destruct H as (-> & Hd & Hc). simpl.
      split; [reflexivity|]. split; [exact Hd|].
      rewrite count_app. simpl. lia.
    + destruct (inside TRun s && worker_stopped s) eqn:Hw;
        [|rewrite Hsup; exact H].
      apply andb_true_iff in Hw as [_ Hw].
      destruct H as (-> & Hd & Hc).
      destruct (main Config (left_try (gathered s))) as [evs code] eqn:Hm.
      simpl. rewrite Hm. simpl. repeat split; auto.
      * rewrite count_app, Hc.
        revert Hm. unfold main.
        destruct (left_try (gathered s)) as [[]|]; intros [= <- <-];
          reflexivity.
      * eauto.
    + unfold exited in Hex. rewrite Hsup in Hex. discriminate.
  - destruct (others_keep_sup i s Hi) as [Hs Hc].
    unfold supervised in *. rewrite Hs, Hc.
    destruct (sup s) as [|p|p|p|code] eqn:Hsup.
    + exact H.
    + rewrite gathered_closed by congruence. exact H.
    + rewrite gathered_closed by congruence. destruct H as (? & ? & ?).
      auto using all_done_stays.
    + rewrite gathered_closed by congruence. destruct H as (? & ? & ?).
      auto using all_done_stays.
    + unfold exited in Hex. rewrite Hsup in Hex. discriminate.
Qed.

Lemma start_supervised disk : supervised Config (start Config disk).
Proof. reflexivity. Qed.

(** X13: in every execution from the start of [run], once the process
    has exited the three tasks are over, the executor thread has stopped
    and the five calls of the [finally] of [run] were made once each; the
    exit status follows what [gather] delivered: [EXIT_SUCCESS] with
    [Orchestrator stopped] as last record when nothing was raised or a
    task was cancelled, [EXIT_SUCCESS] for [KeyboardInterrupt], the code
    of a [SystemExit], and [EXIT_FAILURE] with the fatal error as last
    record for any instance of [Exception]. *)
Theorem exit_status_and_shutdown (disk : Seedbox.FS) (ins : list input)
  (code : Z) :
  let s := exec Config ins (start Config disk) in
  sup s = R_Exited code ->
  all_done s = true /\ worker_stopped s = true
  /\ count is_shutdown_call (log s) = 5%nat
  /\ match gathered s with
     | None | Some CancelledError =>
         code = EXIT_SUCCESS Config /\ last (log s) = Some InfoStopped
     | Some KeyboardInterrupt => code = EXIT_SUCCESS Config
     | Some (SystemExit c) => code = c
     | Some e =>
         code = EXIT_FAILURE Config /\ last (log s) = Some (ErrorFatal e)
     end.
Proof.
  intros s Hsup.
  pose proof (exec_invariant Config (supervised Config) (supervised_step)
                ins _ (start_supervised disk)) as H.
  fold s in H. unfold supervised in H. rewrite Hsup in H.
  destruct H as (Hd & Hw & Hc & -> & before & Hlog).
  repeat split; auto.
  destruct (gathered s) as [[]|]; simpl in *; rewrite ?Hlog;
    auto using last_snoc.
Qed.

(** ** The pace of the two periodic loops *)

Lemma polls_paced_step i s :
  polls_paced Config s -> polls_paced Config (step Config i s).
Proof.
  unfold polls_paced. intros H.
  step_cases; rewrite ?count_app; simpl; settle; lia.
Qed.

Lemma beats_paced_step i s :
  beats_paced Config s -> beats_paced Config (step Config i s).
Proof.
  unfold beats_paced. intros H.
  step_cases; rewrite ?count_app; simpl; settle; lia.
Qed.

Lemma polls_paced_bound s :
  polls_paced Config s ->
  (count is_poll (log s) * UPDATE_CHECK_INTERVAL Config
   <= clock s + UPDATE_CHECK_INTERVAL Config)%nat.
Proof. unfold polls_paced. destruct (um s); lia. Qed.

Lemma beats_paced_bound s :
  beats_paced Config s ->
  (count is_heartbeat (log s) * HEARTBEAT_INTERVAL Config
   <= clock s + HEARTBEAT_INTERVAL Config)%nat.
Proof. unfold beats_paced. destruct (hb s); lia. Qed.

(** X14: [check_for_updates] polls at most once per interval, whatever
    the replies, the errors and the schedule: in every execution from the
    start of [run], [n] calls of [has_updates] take at least
    [(n - 1) * UPDATE_CHECK_INTERVAL] seconds. *)
Theorem polls_at_most_one_per_interval (disk : Seedbox.FS)
  (ins : list input) :
  let s := exec Config ins (start Config disk) in
  (count is_poll (log s) * UPDATE_CHECK_INTERVAL Config
   <= clock s + UPDATE_CHECK_INTERVAL Config)%nat.
Proof.
  intros s. apply polls_paced_bound.
  apply (exec_invariant Config (polls_paced Config)).
  - apply polls_paced_step.
  - reflexivity.
Qed.

(** X15: [heartbeat] logs at most one record per interval: in every
    execution from the start of [run], [n] heartbeats take at least
    [(n - 1) * HEARTBEAT_INTERVAL] seconds. *)
Theorem heartbeats_at_most_one_per_interval (disk : Seedbox.FS)
  (ins : list input) :
  let s := exec Config ins (start Config disk) in
  (count is_heartbeat (log s) * HEARTBEAT_INTERVAL Config
   <= clock s + HEARTBEAT_INTERVAL Config)%nat.
Proof.
  intros s. apply beats_paced_bound.
  apply (exec_invariant Config (beats_paced Config)).
  - apply beats_paced_step.
  - reflexivity.
Qed.

(** ** One pull *)

Lemma pulled_once_step i s :
  pulled_once Config s -> pulled_once Config (step Config i s).
Proof.
  unfold pulled_once. intros [Heq H].
  step_cases; rewrite ?count_app; simpl; settle;
    (split; [lia|]); destruct H as [H | [H ?]]; try congruence;
    first [ left; simpl; lia | right; split; [simpl; lia | simpl; congruence] ].
Qed.

(** X16: in every execution from the start of [run], [sys.exit] is
    called exactly as often as [pull_updates] has returned, which is at
    most once; and when it has, [check_for_updates] is over with
    [SystemExit(EXIT_RESTART)]. *)
Theorem at_most_one_pull (disk : Seedbox.FS) (ins : list input) :
  let s := exec Config ins (start Config disk) in
  count is_sys_exit (log s) = count is_pulled (log s)
  /\ (count is_pulled (log s) <= 1)%nat
  /\ (count is_pulled (log s) = 1%nat ->
      um s = UM_Done (Raise (SystemExit (EXIT_RESTART Config)))).
Proof.
  intros s.
  assert (H : pulled_once Config s).
  { apply (exec_invariant Config (pulled_once Config)).
    - apply pulled_once_step.
    - split; [reflexivity | left; reflexivity]. }
  destruct H as [Heq [H | [H Hu]]]; repeat split; auto; lia.
Qed.

(** ** What the bridge can receive *)

Lemma seed_leave_expected e w :
  expected_result (Seedbox.seed_leave e w).1 = true.
Proof.
  unfold Seedbox.seed_leave, Seedbox.seed_except, Seedbox.seed_finally.
  run_m.
  destruct (is_KeyboardInterrupt e) eqn:Hki; simpl.
  - destruct (Seedbox.session (Seedbox.self w)); reflexivity.
  - destruct (is_Exception e) eqn:Hex; simpl;
      destruct (Seedbox.session (Seedbox.self w)); simpl; rewrite ?Hex;
      auto using orb_true_r.
Qed.

Lemma sb_resume_expected r s :
  expected_result r = true ->
  worker (sb_resume r s) = worker s
  /\ count is_unexpected_log (log (sb_resume r s))
     = count is_unexpected_log (log s).
Proof.
  unfold sb_resume, expected_result, deliver. intros Hr.
  destruct r as [[]|e].
  - split_step; auto.
  - destruct (is_SeedboxError e); simpl in *.
    + split_step; rewrite ?count_app; simpl; auto with lia.
    + rewrite negb_true_iff in Hr. rewrite Hr. split_step; auto.
Qed.

Lemma bridge_expected_step i s :
  bridge_expected s -> bridge_expected (step Config i s).
Proof.
  unfold bridge_expected. intros [Hw Hc].
  assert (Hrun : i = Bridge \/ i = Worker \/ (i <> Bridge /\ i <> Worker))
    by (destruct i; auto; right; right; split; discriminate).
  destruct Hrun as [-> | [-> | [Hb Hk]]].
  - unfold step, run_seedbox.
    destruct (exited s); [auto|].
    destruct (sb s); auto.
    + destruct (idle s); auto. simpl. split; [discriminate|].
      rewrite count_app, Hc. reflexivity.
    + destruct (idle s); auto.
      destruct (worker s) as [| |tick|r] eqn:Hr;
        try (split; [intros; congruence | exact Hc]).
      destruct (sb_resume_expected r s (Hw r eq_refl)) as [-> ->].
      rewrite Hr. auto.
  - unfold step, worker_step, finish_worker.
    destruct (exited s); [auto|].
    destruct (worker s) as [| |tick|r] eqn:Hr;
      try (split; [intros; congruence | exact Hc]).
    + destruct (Seedbox.seed_setup (seed s)) as [[[]|e] w]; simpl.
      * split; [discriminate | exact Hc].
      * pose proof (seed_leave_expected e w) as He.
        destruct (Seedbox.seed_leave e w) as [r w']. simpl in *.
        split; [intros r0 [= <-]; exact He | exact Hc].
    + destruct (Seedbox.seed_tick _ _ _) as [[[]|e] w]; simpl.
      * split; [discriminate | exact Hc].
      * pose proof (seed_leave_expected e w) as He.
        destruct (Seedbox.seed_leave e w) as [r w']. simpl in *.
        split; [intros r0 [= <-]; exact He | exact Hc].
    + split; [intros r0 Hr0; apply Hw; congruence | exact Hc].
  - assert (Hsame : worker (step Config i s) = worker s
                    /\ count is_unexpected_log (log (step Config i s))
                       = count is_unexpected_log (log s)).
    { destruct i; try congruence;
        (split; [step_cases; settle
                | step_cases; rewrite ?count_app; simpl; settle]). }
    destruct Hsame as [-> ->]. auto.
Qed.

(** X17: the second handler of [run_seedbox] is never taken for what
    [seed_content] raises.  In every execution from the start of [run],
    the call in the executor ends by returning, with [SeedboxError], or
    with an exception that is no instance of [Exception]; and the bridge
    never logs an unexpected seedbox error. *)
Theorem bridge_never_logs_unexpected (disk : Seedbox.FS) (ins : list input) :
  let s := exec Config ins (start Config disk) in
  (forall r, worker s = W_Finished r -> expected_result r = true)
  /\ forall e, ErrorUnexpectedSeedbox e ∉ log s.
Proof.
  intros s.
  assert (H : bridge_expected s).
  { apply (exec_invariant Config bridge_expected).
    - apply bridge_expected_step.
    - split; [discriminate | reflexivity]. }
  destruct H as [Hw Hc]. split; [exact Hw|].
  intros e Hin. revert Hc. clear -Hin.
  induction (log s) as [|ev l IH]; [inversion Hin|].
  apply elem_of_cons in Hin as [<- | Hin]; simpl; [discriminate|].
  destruct (is_unexpected_log ev); [discriminate|]. auto.
Qed.

(** ** The finally of run, move by move *)

Lemma run_from_gather s :
  cur s = None -> sup s = R_Gather -> gather_over s ->
  step Config Run s = set_cur (Some TRun) (set_sup (R_Finally (gathered s)) s).
Proof.
  intros Hcur Hsup Hover. unfold gather_over in Hover.
  unfold step, exited, run, idle. rewrite Hsup, Hcur.
  destruct (gathered s) as [e|].
  - assert (Hc : is_CancelledError e = false)
      by (destruct e; auto; discriminate).
    rewrite Hc. reflexivity.
  - rewrite Hover. reflexivity.
Qed.

Lemma finally_sequence s :
  cur s = None -> sup s = R_Gather -> gather_over s ->
  let s3 := exec Config [Run; Run; Run] s in
  let s4 := step Config Run s3 in
  sup s3 = R_Shutdown (gathered s)
  /\ log s3 = log s ++ finally_calls
  /\ um s3 = cancelled_um (um s) /\ hb s3 = cancelled_hb (hb s)
  /\ sb s3 = cancelled_sb (sb s)
  /\ worker s3 = worker s /\ seed s3 = seed s /\ running s3 = running s
  /\ (worker_stopped s = false -> s4 = s3)
  /\ (worker_stopped s = true ->
      match gathered s with
      | None =>
          sup s4 = R_Exited (EXIT_SUCCESS Config)
          /\ log s4 = log s3 ++ [InfoStopped]
      | Some e =>
          sup s4 = R_Exited (EXIT_FAILURE Config)
          /\ log s4 = log s3 ++ [ErrorFatal e]
      end).
Proof.
  intros Hcur Hsup Hover. cbv zeta.
  unfold exec. cbn [fold_left].
  rewrite (run_from_gather s Hcur Hsup Hover).
  set (s1 := set_cur (Some TRun) (set_sup (R_Finally (gathered s)) s)).
  rewrite (run_from_finally Config s1 (gathered s) eq_refl eq_refl).
  set (s2 := set_cur None _).
  rewrite (run_from_await Config s2 (gathered s) eq_refl eq_refl).
  set (s3 := set_cur (Some TRun) _).
  rewrite (run_from_shutdown Config s3 (gathered s) eq_refl eq_refl).
  assert (Hlog : log s3 = log s ++ finally_calls).
  { change (log s3)
      with (((((log s ++ [CallCancel TUpdate]) ++ [CallCancel THeartbeat])
               ++ [CallCancel TBridge]) ++ [CallGatherCancelled])
            ++ [CallExecutorShutdown]).
    rewrite <- !List.app_assoc. reflexivity. }
  assert (Hwk : worker_stopped s3 = worker_stopped s) by reflexivity.
  split; [reflexivity|]. split; [exact Hlog|].
  do 6 (split; [reflexivity|]).
  rewrite Hwk. split; intros ->; [reflexivity|].
  unfold gather_over in Hover.
  destruct (gathered s) as [e|]; [|split; reflexivity].
  destruct e; try discriminate; split; reflexivity.
Qed.

(** X18: the [finally] of [run] when [gather] is over with nothing
    raised, or with an instance of [Exception].  Three moves of the
    supervisor cancel the three tasks (a task that is over stays as it
    is), await them and call [executor.shutdown]: exactly these five
    calls are logged, in this order.  The next move is the exit, with
    [EXIT_SUCCESS] after [Orchestrator stopped] or with [EXIT_FAILURE]
    after the fatal error, but only if the executor thread has stopped:
    otherwise the supervisor does not move. *)
Theorem finally_runs_in_order s :
  cur s = None -> sup s = R_Gather -> gather_over s ->
  let s3 := exec Config [Run; Run; Run] s in
  let s4 := step Config Run s3 in
  sup s3 = R_Shutdown (gathered s)
  /\ log s3 = log s ++ finally_calls
  /\ um s3 = cancelled_um (um s) /\ hb s3 = cancelled_hb (hb s)
  /\ sb s3 = cancelled_sb (sb s)
  /\ worker s3 = worker s /\ seed s3 = seed s /\ running s3 = running s
  /\ (worker_stopped s = false -> s4 = s3)
  /\ (worker_stopped s = true ->
      match gathered s with
      | None =>
          sup s4 = R_Exited (EXIT_SUCCESS Config)
          /\ log s4 = log s3 ++ [InfoStopped]
      | Some e =>
          sup s4 = R_Exited (EXIT_FAILURE Config)
          /\ log s4 = log s3 ++ [ErrorFatal e]
      end).
Proof. apply finally_sequence. Qed.

(** X19: an exception of [has_updates] that is an instance of
    [Exception] but not a [CodeSyncError] is fatal.  The coroutine ends
    with it at once, without sleeping; [gather] delivers it, the
    [finally] of [run] cancels the other two tasks, and, the executor
    thread being stopped, [main] logs the fatal error and the process
    exits with [EXIT_FAILURE]. *)
Theorem undeclared_sync_exception_is_fatal s e :
  exited s = false -> um s = UM_Call -> cur s = Some TUpdate ->
  sup s = R_Gather -> gathered s = None -> worker_stopped s = true ->
  is_Exception e = true -> is_CodeSyncError e = false ->
  let s' := exec Config [Update (Raise e); Run; Run; Run; Run] s in
  sup s' = R_Exited (EXIT_FAILURE Config)
  /\ um s' = UM_Done (Raise e)
  /\ hb s' = cancelled_hb (hb s) /\ sb s' = cancelled_sb (sb s)
  /\ log s' = log s ++ [CallHasUpdates] ++ finally_calls ++ [ErrorFatal e].
Proof.
  intros Hex Hum Hcur Hsup Hg Hw He Hc.
  assert (H1 : step Config (Update (Raise e)) s
               = set_gathered (Some e)
                   (set_cur None
                      (set_um (UM_Done (Raise e)) (emit [CallHasUpdates] s)))).
  { unfold step, check_for_updates, inside, um_except, deliver.
    rewrite Hex, Hum, Hcur, bool_decide_eq_true_2 by reflexivity.
    rewrite Hc. simpl. rewrite Hg, Hsup. reflexivity. }
  cbv zeta.
  change [Update (Raise e); Run; Run; Run; Run]
    with ([Update (Raise e)] ++ [Run; Run; Run] ++ [Run]).
  rewrite (exec_app Config [Update (Raise e)] ([Run; Run; Run] ++ [Run])),
    (exec_app Config [Run; Run; Run] [Run]).
  change (exec Config [Update (Raise e)] s)
    with (step Config (Update (Raise e)) s).
  rewrite H1.
  match goal with
  | |- context [exec Config [Run; Run; Run] ?S] =>
      pose proof (finally_sequence S eq_refl Hsup He)
        as (_ & Hlog & Humx & Hhb & Hsb & _ & _ & _ & _ & Hexit);
      specialize (Hexit Hw); cbn [gathered set_gathered] in Hexit;
      destruct Hexit as [Hs4 Hl4]
  end.
  change (exec Config [Run] ?S) with (step Config Run S).
  rewrite Hs4, Hl4, Hlog. split; [reflexivity|].
  split.
  { rewrite um_stays_done with (r := Raise e); [reflexivity|].
    rewrite Humx. reflexivity. }
  split.
  { destruct (hb s) eqn:Hh;
      erewrite hb_stays_done; try reflexivity; rewrite Hhb; simpl;
      rewrite Hh; reflexivity. }
  split.
  { destruct (sb s) eqn:Hs;
      erewrite sb_stays_done; try reflexivity; rewrite Hsb; simpl;
      rewrite Hs; reflexivity. }
  simpl. rewrite <- !List.app_assoc. reflexivity.
Qed.

(** ** The seeding loop under the orchestrator *)

Lemma seeding_worker_step s :
  Seedbox.calls_return -> (forall tick, Seedbox.time_sleep tick = None) ->
  seeding s ->
  status_ticks (step Config Worker s) = S (status_ticks s).
Proof.
  intros Hok Hsleep ([tick Hw] & Hh & Hex & _).
  unfold step, worker_step. rewrite Hex, Hw.
  destruct (seed_tick_returns (SEEDBOX_STATUS_INTERVAL Config) tick (seed s)
              Hok (Hsleep tick) Hh) as (st & -> & _).
  unfold status_ticks. simpl.
  rewrite filter_app, length_app. simpl. lia.
Qed.

(** X20: while the seedbox is seeding and libtorrent keeps answering,
    nothing the orchestrator does ends the process.  Whatever signals
    arrive, whatever [has_updates] and [pull_updates] do and however the
    tasks are scheduled, the process has not exited and the executor
    thread is still in its status loop; and [n] more turns of the thread
    log [n] more status records. *)
Theorem seeding_outlives_shutdown s (ins : list input) (n : nat) :
  Seedbox.calls_return -> (forall tick, Seedbox.time_sleep tick = None) ->
  seeding s ->
  let s' := exec Config ins s in
  exited s' = false
  /\ (exists tick, worker s' = W_Loop tick)
  /\ status_ticks (exec Config (repeat Worker n) s')
     = (status_ticks s' + n)%nat.
Proof.
  intros Hok Hsleep Hs s'.
  assert (Hs' : seeding s') by (apply exec_seeding; assumption).
  split; [apply Hs'|]. split; [apply Hs'|].
  clearbody s'. clear Hs.
  induction n as [|n IH] in s', Hs' |- *.
  - simpl. lia.
  - change (repeat Worker (S n)) with (Worker :: repeat Worker n).
    rewrite exec_cons, IH by (apply seeding_step; assumption).
    rewrite seeding_worker_step by assumption. lia.
Qed.

End WithConfig.

Lemma exit_status_and_shutdown_witness :
  let s := exec (env := Seedbox.quiet) demo
             [Bridge; Worker; Bridge; Signal 15; Heartbeat;
              Update (Return false); Run; Run; Run; Run]
             (start demo Seedbox.no_content) in
  all_done s = true /\ worker_stopped s = true
  /\ count is_shutdown_call (log s) = 5%nat
  /\ match gathered s with
     | None | Some CancelledError =>
         0 = EXIT_SUCCESS demo /\ last (log s) = Some InfoStopped
     | Some KeyboardInterrupt => 0 = EXIT_SUCCESS demo
     | Some (SystemExit c) => 0 = c
     | Some e =>
         0 = EXIT_FAILURE demo /\ last (log s) = Some (ErrorFatal e)
     end.
Proof.
  intros s.
  apply (exit_status_and_shutdown (env := Seedbox.quiet) demo
           Seedbox.no_content
           [Bridge; Worker; Bridge; Signal 15; Heartbeat;
            Update (Return false); Run; Run; Run; Run] 0).
  vm_compute. reflexivity.
Defined.

(** The flag is lowered with the bridge over: the two loops end, and
    the supervisor goes through the [finally] to the exit. *)
Lemma finally_runs_in_order_witness :
  let s := exec (env := Seedbox.quiet) demo
             [Bridge; Worker; Bridge; Signal 15; Heartbeat;
              Update (Return false)]
             (start demo Seedbox.no_content) in
  let s3 := exec demo [Run; Run; Run] s in
  let s4 := step demo Run s3 in
  sup s3 = R_Shutdown (gathered s)
  /\ log s3 = log s ++ finally_calls
  /\ um s3 = cancelled_um (um s) /\ hb s3 = cancelled_hb (hb s)
  /\ sb s3 = cancelled_sb (sb s)
  /\ worker s3 = worker s /\ seed s3 = seed s /\ running s3 = running s
  /\ (worker_stopped s = false -> s4 = s3)
  /\ (worker_stopped s = true ->
      match gathered s with
      | None =>
          sup s4 = R_Exited (EXIT_SUCCESS demo)
          /\ log s4 = log s3 ++ [InfoStopped]
      | Some e =>
          sup s4 = R_Exited (EXIT_FAILURE demo)
          /\ log s4 = log s3 ++ [ErrorFatal e]
      end).
Proof.
  intros s.
  apply (finally_runs_in_order (env := Seedbox.quiet) demo s);
    vm_compute; reflexivity.
Defined.

(** [git] is missing on the first poll, before the bridge has started. *)
Lemma undeclared_sync_exception_is_fatal_witness :
  let s := exec (env := Seedbox.quiet) demo [Update (Return false)]
             (start demo Seedbox.three_files) in
  let e := OtherException "FileNotFoundError" "git" in
  let s' := exec demo [Update (Raise e); Run; Run; Run; Run] s in
  sup s' = R_Exited (EXIT_FAILURE demo)
  /\ um s' = UM_Done (Raise e)
  /\ hb s' = cancelled_hb (hb s) /\ sb s' = cancelled_sb (sb s)
  /\ log s' = log s ++ [CallHasUpdates] ++ finally_calls ++ [ErrorFatal e].
Proof.
  intros s e.
  apply (undeclared_sync_exception_is_fatal (env := Seedbox.quiet) demo s e);
    vm_compute; reflexivity.
Defined.

(** Three files are being seeded when a signal arrives and an update is
    pulled. *)
Lemma seeding_outlives_shutdown_witness :
  let s := exec (env := Seedbox.quiet) demo [Bridge; Worker]
             (start demo Seedbox.three_files) in
  let s' := exec demo
              [Signal 15; Update (Return false); Update (Return true);
               Update (Return true); Run; Run; Run; Run; Bridge]
              s in
  exited s' = false
  /\ (exists tick, worker s' = W_Loop tick)
  /\ status_ticks (exec demo (repeat Worker 3) s')
     = (status_ticks s' + 3)%nat.
Proof.
  intros s.
  apply (seeding_outlives_shutdown (env := Seedbox.quiet) demo s
           [Signal 15; Update (Return false); Update (Return true);
            Update (Return true); Run; Run; Run; Run; Bridge] 3).
  - exact SeedboxSpec.quiet_calls_return.
  - reflexivity.
  - split; [exists O; vm_compute; reflexivity|].
    split; [vm_compute; discriminate|].
    split; [vm_compute; reflexivity | vm_compute; discriminate].
Defined.

End OrchestratorExtra.
